(** * SpeakBook: the BookReader playback / cache / highlight core

    A shallow embedding of [components/BookReader.tsx] and of
    [services/geminiService.ts].

    The component is event driven: a click handler, a promise continuation,
    a timer callback or an [ended] event runs to completion, React then
    re-renders, runs the effects whose dependencies changed, and only then
    is the next event handled.  A handler therefore sees, through its
    closure, the state of the latest render; an [async] function that is
    suspended at an [await] keeps the closure it was started with.  The
    model makes both explicit: a [State] holds the React state, the refs and
    the browser-side objects (audio source nodes, interval timers, pending
    promises), and [step] runs one event.

    [fontSize] and [volume] only drive the presentation and are left out. *)

From Stdlib Require Import QArith.
From Stdlib Require Import String Ascii.
From stdpp Require Import gmap list.

Local Open Scope Z_scope.

(** ** JavaScript strings *)

(** A JavaScript string is a sequence of UTF-16 code units. *)
Abbreviation jsstring := (list N).

(** An ASCII literal as a JavaScript string. *)
Definition js (s : string) : jsstring :=
  map N_of_ascii (list_ascii_of_string s).

(** A string is truthy when it is not empty. *)
Definition truthy (s : jsstring) : bool :=
  match s with [] => false | _ :: _ => true end.

(** ECMAScript [WhiteSpace] and [LineTerminator] code units: what
    [String.prototype.trim] strips and what [\s] matches. *)
Definition isWhiteSpace (c : N) : bool :=
  ((9 <=? c) && (c <=? 13) || (c =? 32) || (c =? 160) || (c =? 5760)
   || (8192 <=? c) && (c <=? 8202) || (c =? 8232) || (c =? 8233)
   || (c =? 8239) || (c =? 8287) || (c =? 12288) || (c =? 65279))%N.

Fixpoint trimStart (s : jsstring) : jsstring :=
  match s with
  | [] => []
  | c :: r => if isWhiteSpace c then trimStart r else s
  end.

Definition trimEnd (s : jsstring) : jsstring := rev (trimStart (rev s)).

(** [text.trim()] *)
Definition trim (s : jsstring) : jsstring := trimEnd (trimStart s).

(** [text.match(/\S+/g) || []]: the maximal runs of non-white-space code
    units, left to right.  [cur] is the run being read, reversed. *)
Fixpoint matchNonSpace (cur : jsstring) (s : jsstring) : list jsstring :=
  match s with
  | [] => match cur with [] => [] | _ :: _ => [rev cur] end
  | c :: r =>
      if isWhiteSpace c
      then match cur with
           | [] => matchNonSpace [] r
           | _ :: _ => rev cur :: matchNonSpace [] r
           end
      else matchNonSpace (c :: cur) r
  end.

(** [(pageText.match(/\S+/g) || []).length] *)
Definition countWords (s : jsstring) : Z :=
  Z.of_nat (length (matchNonSpace [] s)).

(** ** types.ts *)

Inductive VoiceOption := MALE | FEMALE.

Global Instance VoiceOption_eq_dec : EqDecision VoiceOption.
Proof. solve_decision. Defined.

Record Book := {
  id : jsstring;
  title : jsstring;
  coverImage : jsstring;
  pageTexts : list jsstring
}.

(** [arr[i]] for a JavaScript number [i]: [undefined] outside the array. *)
Definition at_index {A} (l : list A) (i : Z) : option A :=
  if decide (0 <= i) then l !! Z.to_nat i else None.

(** ** services/geminiService.ts *)

Definition voiceName (v : VoiceOption) : jsstring :=
  match v with MALE => js "Puck" | FEMALE => js "Kore" end.

(** What [generateSpeech] does before its first [await]: it either returns
    the empty string at once, or sends one request to the service. *)
Inductive SpeechStart :=
| ReturnEmpty
| CallService (text : jsstring) (voice_name : jsstring).

Definition generateSpeech_start (text : jsstring) (v : VoiceOption) : SpeechStart :=
  if negb (truthy (trim text)) then ReturnEmpty
  else CallService text (voiceName v).

(** What [generateSpeech] does when the request settles.  [resp] is
    [response.candidates?.[0]?.content?.parts?.[0]?.inlineData?.data], or
    [None] when the request was rejected or the field is missing.  The
    result is the returned payload, or [None] when the function throws. *)
Definition generateSpeech_finish (resp : option jsstring) : option jsstring :=
  match resp with
  | Some base64Audio => if truthy base64Audio then Some base64Audio else None
  | None => None
  end.

(** ** The state of a mounted BookReader *)

(** The values a callback created by one render closes over:
    [currentPage], [voice], [autoPlay] and [audioCache] of that render. *)
Record Closure := {
  cl_currentPage : Z;
  cl_voice : VoiceOption;
  cl_autoPlay : bool;
  cl_audioCache : gmap Z jsstring
}.

(** An [AudioBufferSourceNode].  A started node is [Playing] until it
    reaches the end of its buffer or [stop()] is called on it; the browser
    then dispatches one [ended] event to it, after which it is [Ended]. *)
Inductive NodeStatus := Playing | Stopped | Ended.

Record SourceNode := {
  sn_onended : option Closure;
  sn_connected : bool;
  sn_status : NodeStatus
}.

(** An interval created by [window.setInterval]: the word count its
    callback closes over, its delay in milliseconds, and whether it is
    still scheduled. *)
Record Timer := {
  tm_totalWords : Z;
  tm_delay : Q;
  tm_active : bool
}.

(** An [async] function suspended at an [await]. *)
Inductive Task :=
| PlayAwaitSpeech (c : Closure)
    (* playCurrentPage at [await generateSpeech(pageText, voice)] *)
| PlayAwaitDecode (c : Closure) (audioData : jsstring) (totalWords : Z)
    (* playCurrentPage at [await decodeAudioData(...)] *)
| PreloadAwaitSpeech (pageIndex : Z).
    (* preloadPage at [await generateSpeech(pageText, voice)] *)

(** One request sent to the speech service.  [sc_page] and [sc_foreground]
    record which page it was sent for and whether playCurrentPage (rather
    than preloadPage) sent it; the service sees neither. *)
Record SynthCall := {
  sc_text : jsstring;
  sc_voiceName : jsstring;
  sc_page : Z;
  sc_foreground : bool
}.

Record State := {
  (* useState *)
  currentPage : Z;
  voice : VoiceOption;
  isPlaying : bool;
  isGenerating : bool;
  highlightedWordIndex : Z;
  audioCache : gmap Z jsstring;
  autoPlay : bool;
  (* useRef *)
  audioContextRef : bool;
  gainNodeRef : bool;
  audioSourceRef : option nat;
  wordHighlightIntervalRef : option nat;
  preloadingPageRef : option Z;
  isInitialMountRef : bool;
  (* the browser side *)
  nodes : list SourceNode;
  timers : list Timer;
  tasks : list Task;
  calls : list SynthCall;
  alerts : nat
}.

(** Functional record update, one setter per field. *)

Definition set_currentPage (x : Z) (s : State) : State :=
  {| currentPage := x; voice := voice s; isPlaying := isPlaying s;
     isGenerating := isGenerating s;
     highlightedWordIndex := highlightedWordIndex s;
     audioCache := audioCache s; autoPlay := autoPlay s;
     audioContextRef := audioContextRef s; gainNodeRef := gainNodeRef s;
     audioSourceRef := audioSourceRef s;
     wordHighlightIntervalRef := wordHighlightIntervalRef s;
     preloadingPageRef := preloadingPageRef s;
     isInitialMountRef := isInitialMountRef s; nodes := nodes s;
     timers := timers s; tasks := tasks s; calls := calls s;
     alerts := alerts s |}.

Definition set_voice (x : VoiceOption) (s : State) : State :=
  {| currentPage := currentPage s; voice := x; isPlaying := isPlaying s;
     isGenerating := isGenerating s;
     highlightedWordIndex := highlightedWordIndex s;
     audioCache := audioCache s; autoPlay := autoPlay s;
     audioContextRef := audioContextRef s; gainNodeRef := gainNodeRef s;
     audioSourceRef := audioSourceRef s;
     wordHighlightIntervalRef := wordHighlightIntervalRef s;
     preloadingPageRef := preloadingPageRef s;
     isInitialMountRef := isInitialMountRef s; nodes := nodes s;
     timers := timers s; tasks := tasks s; calls := calls s;
     alerts := alerts s |}.

Definition set_isPlaying (x : bool) (s : State) : State :=
  {| currentPage := currentPage s; voice := voice s; isPlaying := x;
     isGenerating := isGenerating s;
     highlightedWordIndex := highlightedWordIndex s;
     audioCache := audioCache s; autoPlay := autoPlay s;
     audioContextRef := audioContextRef s; gainNodeRef := gainNodeRef s;
     audioSourceRef := audioSourceRef s;
     wordHighlightIntervalRef := wordHighlightIntervalRef s;
     preloadingPageRef := preloadingPageRef s;
     isInitialMountRef := isInitialMountRef s; nodes := nodes s;
     timers := timers s; tasks := tasks s; calls := calls s;
     alerts := alerts s |}.

Definition set_isGenerating (x : bool) (s : State) : State :=
  {| currentPage := currentPage s; voice := voice s;
     isPlaying := isPlaying s; isGenerating := x;
     highlightedWordIndex := highlightedWordIndex s;
     audioCache := audioCache s; autoPlay := autoPlay s;
     audioContextRef := audioContextRef s; gainNodeRef := gainNodeRef s;
     audioSourceRef := audioSourceRef s;
     wordHighlightIntervalRef := wordHighlightIntervalRef s;
     preloadingPageRef := preloadingPageRef s;
     isInitialMountRef := isInitialMountRef s; nodes := nodes s;
     timers := timers s; tasks := tasks s; calls := calls s;
     alerts := alerts s |}.

Definition set_highlightedWordIndex (x : Z) (s : State) : State :=
  {| currentPage := currentPage s; voice := voice s;
     isPlaying := isPlaying s; isGenerating := isGenerating s;
     highlightedWordIndex := x; audioCache := audioCache s;
     autoPlay := autoPlay s; audioContextRef := audioContextRef s;
     gainNodeRef := gainNodeRef s; audioSourceRef := audioSourceRef s;
     wordHighlightIntervalRef := wordHighlightIntervalRef s;
     preloadingPageRef := preloadingPageRef s;
     isInitialMountRef := isInitialMountRef s; nodes := nodes s;
     timers := timers s; tasks := tasks s; calls := calls s;
     alerts := alerts s |}.

Definition set_audioCache (x : gmap Z jsstring) (s : State) : State :=
  {| currentPage := currentPage s; voice := voice s;
     isPlaying := isPlaying s; isGenerating := isGenerating s;
     highlightedWordIndex := highlightedWordIndex s; audioCache := x;
     autoPlay := autoPlay s; audioContextRef := audioContextRef s;
     gainNodeRef := gainNodeRef s; audioSourceRef := audioSourceRef s;
     wordHighlightIntervalRef := wordHighlightIntervalRef s;
     preloadingPageRef := preloadingPageRef s;
     isInitialMountRef := isInitialMountRef s; nodes := nodes s;
     timers := timers s; tasks := tasks s; calls := calls s;
     alerts := alerts s |}.

Definition set_autoPlay (x : bool) (s : State) : State :=
  {| currentPage := currentPage s; voice := voice s;
     isPlaying := isPlaying s; isGenerating := isGenerating s;
     highlightedWordIndex := highlightedWordIndex s;
     audioCache := audioCache s; autoPlay := x;
     audioContextRef := audioContextRef s; gainNodeRef := gainNodeRef s;
     audioSourceRef := audioSourceRef s;
     wordHighlightIntervalRef := wordHighlightIntervalRef s;
     preloadingPageRef := preloadingPageRef s;
     isInitialMountRef := isInitialMountRef s; nodes := nodes s;
     timers := timers s; tasks := tasks s; calls := calls s;
     alerts := alerts s |}.

Definition set_audioContextRef (x : bool) (s : State) : State :=
  {| currentPage := currentPage s; voice := voice s;
     isPlaying := isPlaying s; isGenerating := isGenerating s;
     highlightedWordIndex := highlightedWordIndex s;
     audioCache := audioCache s; autoPlay := autoPlay s; audioContextRef := x;
     gainNodeRef := gainNodeRef s; audioSourceRef := audioSourceRef s;
     wordHighlightIntervalRef := wordHighlightIntervalRef s;
     preloadingPageRef := preloadingPageRef s;
     isInitialMountRef := isInitialMountRef s; nodes := nodes s;
     timers := timers s; tasks := tasks s; calls := calls s;
     alerts := alerts s |}.

Definition set_gainNodeRef (x : bool) (s : State) : State :=
  {| currentPage := currentPage s; voice := voice s;
     isPlaying := isPlaying s; isGenerating := isGenerating s;
     highlightedWordIndex := highlightedWordIndex s;
     audioCache := audioCache s; autoPlay := autoPlay s;
     audioContextRef := audioContextRef s; gainNodeRef := x;
     audioSourceRef := audioSourceRef s;
     wordHighlightIntervalRef := wordHighlightIntervalRef s;
     preloadingPageRef := preloadingPageRef s;
     isInitialMountRef := isInitialMountRef s; nodes := nodes s;
     timers := timers s; tasks := tasks s; calls := calls s;
     alerts := alerts s |}.

Definition set_audioSourceRef (x : option nat) (s : State) : State :=
  {| currentPage := currentPage s; voice := voice s;
     isPlaying := isPlaying s; isGenerating := isGenerating s;
     highlightedWordIndex := highlightedWordIndex s;
     audioCache := audioCache s; autoPlay := autoPlay s;
     audioContextRef := audioContextRef s; gainNodeRef := gainNodeRef s;
     audioSourceRef := x;
     wordHighlightIntervalRef := wordHighlightIntervalRef s;
     preloadingPageRef := preloadingPageRef s;
     isInitialMountRef := isInitialMountRef s; nodes := nodes s;
     timers := timers s; tasks := tasks s; calls := calls s;
     alerts := alerts s |}.

Definition set_wordHighlightIntervalRef (x : option nat) (s : State) : State :=
  {| currentPage := currentPage s; voice := voice s;
     isPlaying := isPlaying s; isGenerating := isGenerating s;
     highlightedWordIndex := highlightedWordIndex s;
     audioCache := audioCache s; autoPlay := autoPlay s;
     audioContextRef := audioContextRef s; gainNodeRef := gainNodeRef s;
     audioSourceRef := audioSourceRef s; wordHighlightIntervalRef := x;
     preloadingPageRef := preloadingPageRef s;
     isInitialMountRef := isInitialMountRef s; nodes := nodes s;
     timers := timers s; tasks := tasks s; calls := calls s;
     alerts := alerts s |}.

Definition set_preloadingPageRef (x : option Z) (s : State) : State :=
  {| currentPage := currentPage s; voice := voice s;
     isPlaying := isPlaying s; isGenerating := isGenerating s;
     highlightedWordIndex := highlightedWordIndex s;
     audioCache := audioCache s; autoPlay := autoPlay s;
     audioContextRef := audioContextRef s; gainNodeRef := gainNodeRef s;
     audioSourceRef := audioSourceRef s;
     wordHighlightIntervalRef := wordHighlightIntervalRef s;
     preloadingPageRef := x; isInitialMountRef := isInitialMountRef s;
     nodes := nodes s; timers := timers s; tasks := tasks s; calls := calls s;
     alerts := alerts s |}.

Definition set_isInitialMountRef (x : bool) (s : State) : State :=
  {| currentPage := currentPage s; voice := voice s;
     isPlaying := isPlaying s; isGenerating := isGenerating s;
     highlightedWordIndex := highlightedWordIndex s;
     audioCache := audioCache s; autoPlay := autoPlay s;
     audioContextRef := audioContextRef s; gainNodeRef := gainNodeRef s;
     audioSourceRef := audioSourceRef s;
     wordHighlightIntervalRef := wordHighlightIntervalRef s;
     preloadingPageRef := preloadingPageRef s; isInitialMountRef := x;
     nodes := nodes s; timers := timers s; tasks := tasks s; calls := calls s;
     alerts := alerts s |}.

Definition set_nodes (x : list SourceNode) (s : State) : State :=
  {| currentPage := currentPage s; voice := voice s;
     isPlaying := isPlaying s; isGenerating := isGenerating s;
     highlightedWordIndex := highlightedWordIndex s;
     audioCache := audioCache s; autoPlay := autoPlay s;
     audioContextRef := audioContextRef s; gainNodeRef := gainNodeRef s;
     audioSourceRef := audioSourceRef s;
     wordHighlightIntervalRef := wordHighlightIntervalRef s;
     preloadingPageRef := preloadingPageRef s;
     isInitialMountRef := isInitialMountRef s; nodes := x; timers := timers s;
     tasks := tasks s; calls := calls s; alerts := alerts s |}.

Definition set_timers (x : list Timer) (s : State) : State :=
  {| currentPage := currentPage s; voice := voice s;
     isPlaying := isPlaying s; isGenerating := isGenerating s;
     highlightedWordIndex := highlightedWordIndex s;
     audioCache := audioCache s; autoPlay := autoPlay s;
     audioContextRef := audioContextRef s; gainNodeRef := gainNodeRef s;
     audioSourceRef := audioSourceRef s;
     wordHighlightIntervalRef := wordHighlightIntervalRef s;
     preloadingPageRef := preloadingPageRef s;
     isInitialMountRef := isInitialMountRef s; nodes := nodes s; timers := x;
     tasks := tasks s; calls := calls s; alerts := alerts s |}.

Definition set_tasks (x : list Task) (s : State) : State :=
  {| currentPage := currentPage s; voice := voice s;
     isPlaying := isPlaying s; isGenerating := isGenerating s;
     highlightedWordIndex := highlightedWordIndex s;
     audioCache := audioCache s; autoPlay := autoPlay s;
     audioContextRef := audioContextRef s; gainNodeRef := gainNodeRef s;
     audioSourceRef := audioSourceRef s;
     wordHighlightIntervalRef := wordHighlightIntervalRef s;
     preloadingPageRef := preloadingPageRef s;
     isInitialMountRef := isInitialMountRef s; nodes := nodes s;
     timers := timers s; tasks := x; calls := calls s; alerts := alerts s |}.

Definition set_calls (x : list SynthCall) (s : State) : State :=
  {| currentPage := currentPage s; voice := voice s;
     isPlaying := isPlaying s; isGenerating := isGenerating s;
     highlightedWordIndex := highlightedWordIndex s;
     audioCache := audioCache s; autoPlay := autoPlay s;
     audioContextRef := audioContextRef s; gainNodeRef := gainNodeRef s;
     audioSourceRef := audioSourceRef s;
     wordHighlightIntervalRef := wordHighlightIntervalRef s;
     preloadingPageRef := preloadingPageRef s;
     isInitialMountRef := isInitialMountRef s; nodes := nodes s;
     timers := timers s; tasks := tasks s; calls := x; alerts := alerts s |}.

Definition set_alerts (x : nat) (s : State) : State :=
  {| currentPage := currentPage s; voice := voice s;
     isPlaying := isPlaying s; isGenerating := isGenerating s;
     highlightedWordIndex := highlightedWordIndex s;
     audioCache := audioCache s; autoPlay := autoPlay s;
     audioContextRef := audioContextRef s; gainNodeRef := gainNodeRef s;
     audioSourceRef := audioSourceRef s;
     wordHighlightIntervalRef := wordHighlightIntervalRef s;
     preloadingPageRef := preloadingPageRef s;
     isInitialMountRef := isInitialMountRef s; nodes := nodes s;
     timers := timers s; tasks := tasks s; calls := calls s; alerts := x |}.

(** ** components/BookReader.tsx *)

Definition mkCall (foreground : bool) (page : Z) (text vn : jsstring) : SynthCall :=
  {| sc_text := text; sc_voiceName := vn; sc_page := page;
     sc_foreground := foreground |}.

(** [source.onended = null; source.stop(); source.disconnect()] *)
Definition stop_node (nd : SourceNode) : SourceNode :=
  {| sn_onended := None;
     sn_connected := false;
     sn_status := match sn_status nd with Playing => Stopped | st => st end |}.

(** The browser delivers the [ended] event to a node. *)
Definition end_node (nd : SourceNode) : SourceNode :=
  {| sn_onended := sn_onended nd;
     sn_connected := sn_connected nd;
     sn_status := Ended |}.

Definition cancel_timer (tm : Timer) : Timer :=
  {| tm_totalWords := tm_totalWords tm;
     tm_delay := tm_delay tm;
     tm_active := false |}.

(** [if (ref.current) clearInterval(ref.current)]; interval handles are
    non-zero, so a handle is always truthy. *)
Definition clearInterval (r : option nat) (ts : list Timer) : list Timer :=
  match r with
  | Some t => alter cancel_timer t ts
  | None => ts
  end.

Definition closure_of (s : State) : Closure :=
  {| cl_currentPage := currentPage s;
     cl_voice := voice s;
     cl_autoPlay := autoPlay s;
     cl_audioCache := audioCache s |}.

(** [if (audioSourceRef.current) { onended = null; stop(); disconnect() }] *)
Definition stop_source (r : option nat) (ns : list SourceNode) : list SourceNode :=
  match r with
  | Some n => alter stop_node n ns
  | None => ns
  end.

(** Both refs are [null] afterwards, whether or not they were before. *)
Definition stopPlayback (s : State) : State :=
  let s := set_audioSourceRef None
             (set_nodes (stop_source (audioSourceRef s) (nodes s)) s) in
  let s := set_wordHighlightIntervalRef None
             (set_timers (clearInterval (wordHighlightIntervalRef s) (timers s)) s) in
  set_highlightedWordIndex (-1) (set_isPlaying false s).

Section BookReader.

(** The [book] prop. *)
Variable book : Book.

(** [decode] of [utils/audio] (base64 text to bytes) is not among the
    sources at hand and is taken as given; [None] stands for a thrown
    exception. *)
Variable decode : jsstring -> option (list N).

Definition pageCount : Z := Z.of_nat (length (pageTexts book)).

(** [preloadPage(pageIndex)], as created by the render of closure [c],
    up to its [await]. *)
Definition preloadPage (c : Closure) (pageIndex : Z) (s : State) : State :=
  if bool_decide (pageCount <= pageIndex)
     || bool_decide (is_Some (cl_audioCache c !! pageIndex))
     || bool_decide (preloadingPageRef s = Some pageIndex)
  then s
  else
    match at_index (pageTexts book) pageIndex with
    | None => s
    | Some pageText =>
        if negb (truthy (trim pageText)) then s
        else
          let s := set_preloadingPageRef (Some pageIndex) s in
          match generateSpeech_start pageText (cl_voice c) with
          | CallService text vn =>
              set_tasks (tasks s ++ [PreloadAwaitSpeech pageIndex])
                (set_calls (calls s ++ [mkCall false pageIndex text vn]) s)
          | ReturnEmpty =>
              (* audioData is the empty string: nothing is cached *)
              set_preloadingPageRef None s
          end
    end.

(** preloadPage after its [await]. *)
Definition resume_preload (pageIndex : Z) (resp : option jsstring)
    (s : State) : State :=
  let s := match generateSpeech_finish resp with
           | Some audioData =>
               if truthy audioData
               then set_audioCache (<[pageIndex := audioData]> (audioCache s)) s
               else s
           | None => s (* console.error *)
           end in
  if bool_decide (preloadingPageRef s = Some pageIndex)
  then set_preloadingPageRef None s
  else s.

(** The [finally] block of playCurrentPage, and its [catch] block
    followed by [finally]. *)
Definition finally_play (s : State) : State := set_isGenerating false s.

Definition catch_play (s : State) : State :=
  finally_play (set_alerts (S (alerts s)) s).

(** playCurrentPage from [if (audioData && audioContextRef.current &&
    gainNodeRef.current)] up to [await decodeAudioData(...)]. *)
Definition play_audio (c : Closure) (audioData : option jsstring)
    (s : State) : State :=
  match audioData with
  | None => finally_play s
  | Some a =>
      if truthy a && audioContextRef s && gainNodeRef s then
        match at_index (pageTexts book) (cl_currentPage c) with
        | None => catch_play s (* pageText.match on undefined throws *)
        | Some pageText =>
            let totalWords := countWords pageText in
            if bool_decide (totalWords = 0)
            then finally_play (set_isGenerating false s)
            else match decode a with
                 | None => catch_play s
                 | Some _ =>
                     set_tasks (tasks s ++ [PlayAwaitDecode c a totalWords]) s
                 end
        end
      else finally_play s
  end.

(** [playCurrentPage()] up to its first [await]. *)
Definition playCurrentPage (s : State) : State :=
  if isGenerating s then s
  else
    let c := closure_of s in
    let s := stopPlayback s in
    let s := set_isGenerating true s in
    let s := set_highlightedWordIndex (-1) s in
    let audioData := cl_audioCache c !! cl_currentPage c in
    let pageText := at_index (pageTexts book) (cl_currentPage c) in
    match pageText with
    | Some text =>
        if negb (from_option truthy false audioData) && truthy (trim text)
        then match generateSpeech_start text (cl_voice c) with
             | CallService t vn =>
                 set_tasks (tasks s ++ [PlayAwaitSpeech c])
                   (set_calls
                      (calls s ++ [mkCall true (cl_currentPage c) t vn]) s)
             | ReturnEmpty => play_audio c (Some []) s
             end
        else play_audio c audioData s
    | None => play_audio c audioData s
    end.

(** playCurrentPage after [await generateSpeech(pageText, voice)]. *)
Definition resume_play_speech (c : Closure) (resp : option jsstring)
    (s : State) : State :=
  match generateSpeech_finish resp with
  | None => catch_play s
  | Some audioData =>
      let s := if truthy audioData
               then set_audioCache
                      (<[cl_currentPage c := audioData]> (audioCache s)) s
               else s in
      play_audio c (Some audioData) s
  end.

(** [source.onended], as created by the render of closure [c]. *)
Definition onended (c : Closure) (s : State) : State :=
  let s := set_isPlaying false s in
  let s := set_timers (clearInterval (wordHighlightIntervalRef s) (timers s)) s in
  if cl_autoPlay c && bool_decide (cl_currentPage c < pageCount - 1)
  then set_currentPage (currentPage s + 1) s
  else s.

(** The interval callback, closing over [totalWords]. *)
Definition onTick (totalWords : Z) (s : State) : State :=
  let prevIndex := highlightedWordIndex s in
  let nextIndex := prevIndex + 1 in
  if bool_decide (totalWords <= nextIndex)
  then set_timers (clearInterval (wordHighlightIntervalRef s) (timers s)) s
  else set_highlightedWordIndex nextIndex s.

(** playCurrentPage after [await decodeAudioData(...)]; [duration] is
    [audioBuffer.duration], in seconds. *)
Definition resume_play_decode (c : Closure) (totalWords : Z)
    (res : option Q) (s : State) : State :=
  match res with
  | None => catch_play s
  | Some duration =>
      let source := {| sn_onended := Some c; sn_connected := true;
                       sn_status := Playing |} in
      let s := set_audioSourceRef (Some (length (nodes s)))
                 (set_nodes (nodes s ++ [source]) s) in
      let s := set_isPlaying true s in
      let wordDuration := (duration * 1000 / inject_Z totalWords)%Q in
      let s := set_highlightedWordIndex 0 s in
      let interval := {| tm_totalWords := totalWords;
                         tm_delay := wordDuration; tm_active := true |} in
      let s := set_wordHighlightIntervalRef (Some (length (timers s)))
                 (set_timers (timers s ++ [interval]) s) in
      let s := preloadPage c (cl_currentPage c + 1) s in
      finally_play s
  end.

(** [useEffect(..., [voice, stopPlayback])] *)
Definition voiceEffect (s : State) : State :=
  set_audioCache ∅ (stopPlayback s).

(** [useEffect(..., [currentPage, autoPlay])] *)
Definition pageEffect (s : State) : State :=
  if isInitialMountRef s
  then preloadPage (closure_of s) 1 (set_isInitialMountRef false s)
  else
    let s := stopPlayback s in
    if autoPlay s then playCurrentPage s
    else preloadPage (closure_of s) (currentPage s + 1) s.

Definition handlePlayPause (s : State) : State :=
  if isPlaying s then stopPlayback s else playCurrentPage s.

Definition goToNextPage (s : State) : State :=
  if bool_decide (currentPage s < pageCount - 1)
  then set_currentPage (currentPage s + 1) s
  else s.

Definition goToPrevPage (s : State) : State :=
  if bool_decide (currentPage s > 0)
  then set_currentPage (currentPage s - 1) s
  else s.

(** ** Rendering and events *)

(** After a handler has turned the state of render [prev] into [s], React
    renders [s] and runs, in the order of their declaration, the effects
    whose dependencies differ between the two renders. *)
Definition commit (prev s : State) : State :=
  let s := if bool_decide (voice prev = voice s) then s else voiceEffect s in
  if bool_decide (currentPage prev = currentPage s)
     && bool_decide (autoPlay prev = autoPlay s)
  then s
  else pageEffect s.

(** The first render. *)
Definition initial : State :=
  {| currentPage := 0; voice := FEMALE; isPlaying := false;
     isGenerating := false; highlightedWordIndex := -1; audioCache := ∅;
     autoPlay := false; audioContextRef := false; gainNodeRef := false;
     audioSourceRef := None; wordHighlightIntervalRef := None;
     preloadingPageRef := None; isInitialMountRef := true;
     nodes := []; timers := []; tasks := []; calls := []; alerts := 0 |}.

(** The state once the effects of the first render have run: the audio
    context and gain node are created, then the voice effect and the page
    effect run. *)
Definition mount : State :=
  pageEffect
    (voiceEffect (set_gainNodeRef true (set_audioContextRef true initial))).

Inductive Event :=
| ClickPlayPause
| ClickNext
| ClickPrev
| ClickVoice (v : VoiceOption)
| ToggleAutoPlay
| SpeechSettled (i : nat) (resp : option jsstring)
    (* the request awaited by task [i] settles *)
| DecodeSettled (i : nat) (res : option Q)
    (* decodeAudioData awaited by task [i] settles *)
| SourceEnded (n : nat)
    (* the browser delivers [ended] to node [n] *)
| IntervalTick (t : nat).
    (* interval [t] fires *)

(** The handler of one event; [None] when the event cannot happen in
    [s]. *)
Definition handle (s : State) (e : Event) : option State :=
  match e with
  | ClickPlayPause => Some (handlePlayPause s)
  | ClickNext => Some (goToNextPage s)
  | ClickPrev => Some (goToPrevPage s)
  | ClickVoice v => Some (set_voice v s)
  | ToggleAutoPlay => Some (set_autoPlay (negb (autoPlay s)) s)
  | SpeechSettled i resp =>
      match tasks s !! i with
      | Some (PlayAwaitSpeech c) =>
          Some (resume_play_speech c resp (set_tasks (delete i (tasks s)) s))
      | Some (PreloadAwaitSpeech pageIndex) =>
          Some (resume_preload pageIndex resp (set_tasks (delete i (tasks s)) s))
      | _ => None
      end
  | DecodeSettled i res =>
      match tasks s !! i with
      | Some (PlayAwaitDecode c _ totalWords) =>
          Some (resume_play_decode c totalWords res
                  (set_tasks (delete i (tasks s)) s))
      | _ => None
      end
  | SourceEnded n =>
      match nodes s !! n with
      | Some nd =>
          match sn_status nd with
          | Ended => None
          | _ =>
              let s := set_nodes (alter end_node n (nodes s)) s in
              match sn_onended nd with
              | Some c => Some (onended c s)
              | None => Some s
              end
          end
      | None => None
      end
  | IntervalTick t =>
      match timers s !! t with
      | Some tm =>
          if tm_active tm then Some (onTick (tm_totalWords tm) s) else None
      | None => None
      end
  end.

Definition step (s : State) (e : Event) : option State :=
  commit s <$> handle s e.

Fixpoint run (s : State) (es : list Event) : option State :=
  match es with
  | [] => Some s
  | e :: es => match step s e with Some s' => run s' es | None => None end
  end.

Definition reachable (s : State) : Prop := ∃ es, run mount es = Some s.

End BookReader.

(** * Properties *)

(** ** White space, [trim] and the word count *)

Lemma trimStart_nil_iff (s : jsstring) :
  trimStart s = [] ↔ forallb isWhiteSpace s = true.
Proof.
  induction s as [|c r IH]; simpl; [done|].
  destruct (isWhiteSpace c); simpl; [exact IH|].
  split; discriminate.
Qed.

Lemma trimStart_all_blank (s : jsstring) :
  forallb isWhiteSpace s = true → trimStart s = [].
Proof. apply trimStart_nil_iff. Qed.

Lemma trimStart_head (s : jsstring) c r :
  trimStart s = c :: r → isWhiteSpace c = false.
Proof.
  induction s as [|d s IH]; simpl; [done|].
  destruct (isWhiteSpace d) eqn:Hd; [exact IH|].
  intros [= -> _]. exact Hd.
Qed.

(** A string trims to the empty string exactly when all its code units
    are white space. *)
Lemma trim_nil_iff (s : jsstring) :
  trim s = [] ↔ forallb isWhiteSpace s = true.
Proof.
  unfold trim, trimEnd. split.
  - intros H. apply trimStart_nil_iff.
    destruct (trimStart s) as [|c r] eqn:Hs; [done|].
    pose proof (trimStart_head _ _ _ Hs) as Hc.
    assert (Hrev : trimStart (rev (c :: r)) = []).
    { apply (f_equal (@rev N)) in H. by rewrite rev_involutive in H. }
    apply trimStart_nil_iff in Hrev.
    rewrite forallb_forall in Hrev.
    specialize (Hrev c). rewrite Hc in Hrev.
    exfalso. apply Bool.diff_false_true, Hrev, in_rev.
    rewrite rev_involutive. by left.
  - intros H. by rewrite (trimStart_all_blank s H).
Qed.

Lemma matchNonSpace_blank (s : jsstring) :
  forallb isWhiteSpace s = true → matchNonSpace [] s = [].
Proof.
  induction s as [|c r IH]; simpl; [done|].
  destruct (isWhiteSpace c); simpl; [exact IH|discriminate].
Qed.

Lemma matchNonSpace_pending (cur s : jsstring) :
  cur ≠ [] → matchNonSpace cur s ≠ [].
Proof.
  revert cur. induction s as [|c r IH]; intros cur Hcur; simpl.
  - by destruct cur.
  - destruct (isWhiteSpace c); [by destruct cur|by apply IH].
Qed.

Lemma matchNonSpace_nil_iff (s : jsstring) :
  matchNonSpace [] s = [] ↔ forallb isWhiteSpace s = true.
Proof.
  split; [|apply matchNonSpace_blank].
  induction s as [|c r IH]; simpl; [done|].
  destruct (isWhiteSpace c); simpl; [exact IH|].
  intros H. by apply matchNonSpace_pending in H.
Qed.

Lemma countWords_nonneg (s : jsstring) : 0 <= countWords s.
Proof. unfold countWords. lia. Qed.

(** A page has no word exactly when its trimmed text is empty. *)
Lemma countWords_zero_iff (s : jsstring) :
  countWords s = 0 ↔ trim s = [].
Proof.
  rewrite trim_nil_iff, <- matchNonSpace_nil_iff. unfold countWords.
  destruct (matchNonSpace [] s); simpl; split; (done || lia).
Qed.

Lemma truthy_true_iff (s : jsstring) : truthy s = true ↔ s ≠ [].
Proof. by destruct s. Qed.

(** ** Counting the playCurrentPage calls in flight *)

Definition is_play (t : Task) : bool :=
  match t with
  | PlayAwaitSpeech _ | PlayAwaitDecode _ _ _ => true
  | PreloadAwaitSpeech _ => false
  end.

Fixpoint play_count (l : list Task) : nat :=
  match l with
  | [] => 0
  | t :: r => (if is_play t then 1 else 0) + play_count r
  end.

Lemma play_count_app (l1 l2 : list Task) :
  play_count (l1 ++ l2) = (play_count l1 + play_count l2)%nat.
Proof. induction l1 as [|t r IH]; simpl; [done|]. rewrite IH. lia. Qed.

Lemma play_count_delete (l : list Task) i t :
  l !! i = Some t →
  play_count l = ((if is_play t then 1 else 0) + play_count (delete i l))%nat.
Proof.
  revert i. induction l as [|u r IH]; intros [|i] H; simplify_eq/=; [done|].
  rewrite (IH i H). lia.
Qed.

Lemma play_count_zero (l : list Task) i t :
  play_count l = 0%nat → l !! i = Some t → is_play t = false.
Proof.
  intros H0 Hi. rewrite (play_count_delete l i t Hi) in H0.
  destruct (is_play t); [simpl in H0; lia|done].
Qed.

(** ** The invariant of the reachable states *)

Record Inv (s : State) : Prop := {
  inv_source_bound :
    ∀ n, audioSourceRef s = Some n → (n < length (nodes s))%nat;
  inv_playing :
    ∀ n nd, nodes s !! n = Some nd → sn_status nd = Playing →
      audioSourceRef s = Some n;
  inv_active :
    ∀ t tm, timers s !! t = Some tm → tm_active tm = true →
      wordHighlightIntervalRef s = Some t
      ∧ 0 <= highlightedWordIndex s < tm_totalWords tm;
  inv_idle :
    audioSourceRef s = None →
      wordHighlightIntervalRef s = None ∧ isPlaying s = false
      ∧ highlightedWordIndex s = -1;
  inv_generating :
    isGenerating s = true → audioSourceRef s = None;
  inv_play_tasks :
    play_count (tasks s) = if isGenerating s then 1%nat else 0%nat;
  inv_cache :
    ∀ p a, audioCache s !! p = Some a → a ≠ [];
  inv_decode :
    ∀ i c a w, tasks s !! i = Some (PlayAwaitDecode c a w) → a ≠ [] ∧ 1 <= w
}.

(** Fields the invariant does not read can be set freely. *)
Ltac inv_frame :=
  let H := fresh in
  intros H; destruct H; constructor; simpl in *; assumption.

Lemma Inv_set_currentPage x s : Inv s → Inv (set_currentPage x s).
Proof. inv_frame. Qed.

Lemma Inv_set_voice x s : Inv s → Inv (set_voice x s).
Proof. inv_frame. Qed.

Lemma Inv_set_autoPlay x s : Inv s → Inv (set_autoPlay x s).
Proof. inv_frame. Qed.

Lemma Inv_set_isInitialMountRef x s : Inv s → Inv (set_isInitialMountRef x s).
Proof. inv_frame. Qed.

Lemma Inv_set_preloadingPageRef x s : Inv s → Inv (set_preloadingPageRef x s).
Proof. inv_frame. Qed.

Lemma Inv_set_alerts x s : Inv s → Inv (set_alerts x s).
Proof. inv_frame. Qed.

Lemma Inv_set_calls x s : Inv s → Inv (set_calls x s).
Proof. inv_frame. Qed.

Lemma Inv_set_audioContextRef x s : Inv s → Inv (set_audioContextRef x s).
Proof. inv_frame. Qed.

Lemma Inv_set_gainNodeRef x s : Inv s → Inv (set_gainNodeRef x s).
Proof. inv_frame. Qed.

Lemma Inv_clear_cache s : Inv s → Inv (set_audioCache ∅ s).
Proof.
  intros []; constructor; simpl in *; try assumption.
  intros p a. by rewrite lookup_empty.
Qed.

Lemma Inv_cache_insert m p a s :
  m = audioCache s → a ≠ [] → Inv s → Inv (set_audioCache (<[p := a]> m) s).
Proof.
  intros -> Ha []; constructor; simpl in *; try assumption.
  intros q b. rewrite lookup_insert. case_decide; [|by eauto].
  intros ?; by simplify_eq.
Qed.

Lemma Inv_add_preload l p s :
  l = tasks s → Inv s → Inv (set_tasks (l ++ [PreloadAwaitSpeech p]) s).
Proof.
  intros -> []; constructor; simpl in *; try assumption.
  - rewrite play_count_app. simpl. lia.
  - intros i c a w Hi. apply lookup_app_Some in Hi as [Hi|[_ Hi]]; [eauto|].
    by destruct (i - length (tasks s))%nat as [|[|?]].
Qed.

(** Stopping leaves no node playing and no interval scheduled. *)
Lemma stop_node_not_playing nd : sn_status (stop_node nd) ≠ Playing.
Proof. by destruct nd as [? ? []]. Qed.

Lemma stop_source_lookup r ns n nd :
  stop_source r ns !! n = Some nd →
  ∃ nd', ns !! n = Some nd' ∧
    (if decide (r = Some n) then nd = stop_node nd' else nd = nd').
Proof.
  destruct r as [m|]; simpl.
  - destruct (decide (m = n)) as [->|Hne].
    + rewrite list_lookup_alter_eq. destruct (ns !! n) as [nd'|]; [|done].
      intros [= <-]. exists nd'. split; [done|]. by case_decide.
    + rewrite list_lookup_alter_ne by done. intros H. exists nd.
      split; [done|]. case_decide; congruence.
  - intros H. by exists nd.
Qed.

Lemma clearInterval_lookup r ts t tm :
  clearInterval r ts !! t = Some tm →
  ∃ tm', ts !! t = Some tm' ∧
    (if decide (r = Some t) then tm = cancel_timer tm' else tm = tm').
Proof.
  destruct r as [m|]; simpl.
  - destruct (decide (m = t)) as [->|Hne].
    + rewrite list_lookup_alter_eq. destruct (ts !! t) as [tm'|]; [|done].
      intros [= <-]. exists tm'. split; [done|]. by case_decide.
    + rewrite list_lookup_alter_ne by done. intros H. exists tm.
      split; [done|]. case_decide; congruence.
  - intros H. by exists tm.
Qed.

Lemma length_stop_source r ns : length (stop_source r ns) = length ns.
Proof. destruct r; simpl; [apply length_alter|done]. Qed.

Lemma Inv_stopPlayback s : Inv s → Inv (stopPlayback s).
Proof.
  intros [Hb Hp Ha Hi Hg Ht Hc Hd]. constructor; simpl; try done.
  - intros n nd Hn Hst. exfalso.
    apply stop_source_lookup in Hn as (nd' & Hn & Hnd).
    case_decide; subst nd.
    + by apply stop_node_not_playing in Hst.
    + apply H. eauto.
  - intros t tm Htm Hact. exfalso.
    apply clearInterval_lookup in Htm as (tm' & Htm & Heq).
    case_decide; subst tm; [done|].
    apply H. by destruct (Ha _ _ Htm Hact).
Qed.

Section Invariant.

Variable book : Book.
Variable decode : jsstring -> option (list N).

Lemma Inv_preloadPage c p s : Inv s → Inv (preloadPage book c p s).
Proof.
  intros H. unfold preloadPage.
  repeat case_match; try done.
  - by do 2 apply Inv_set_preloadingPageRef.
  - apply Inv_add_preload; [done|].
    by apply Inv_set_calls, Inv_set_preloadingPageRef.
Qed.

Lemma Inv_resume_preload p resp s : Inv s → Inv (resume_preload p resp s).
Proof.
  intros H. unfold resume_preload.
  set (s' := match generateSpeech_finish resp with
             | Some audioData =>
                 if truthy audioData
                 then set_audioCache (<[p := audioData]> (audioCache s)) s
                 else s
             | None => s
             end).
  assert (Inv s') as H'.
  { subst s'. destruct (generateSpeech_finish resp) as [a|]; [|done].
    destruct (truthy a) eqn:Ha; [|done].
    apply Inv_cache_insert; [done|by apply truthy_true_iff|done]. }
  destruct (bool_decide _); [by apply Inv_set_preloadingPageRef|done].
Qed.

(** A state in the middle of a playCurrentPage call: the in-flight flag
    is set, and the call itself is not (or no longer) in the task list. *)
Record Mid (s : State) : Prop := {
  mid_rest : Inv (set_isGenerating false s);
  mid_generating : isGenerating s = true;
  mid_source : audioSourceRef s = None
}.

Lemma Inv_finally_play s : Mid s → Inv (finally_play s).
Proof. by intros []. Qed.

Lemma Inv_catch_play s : Mid s → Inv (catch_play s).
Proof. intros []. unfold catch_play, finally_play. by apply (Inv_set_alerts _ _ mid_rest0). Qed.

Lemma Inv_add_play l t s :
  l = tasks s →
  Mid s →
  (∀ c a w, t = PlayAwaitDecode c a w → a ≠ [] ∧ 1 <= w) →
  is_play t = true →
  Inv (set_tasks (l ++ [t]) s).
Proof.
  intros -> [[Hb Hp Ha Hi Hg Ht Hc Hd] Hgen Hsrc] Hdec Hplay.
  constructor; simpl in *; try done.
  - rewrite play_count_app, Ht, Hgen. simpl. by rewrite Hplay.
  - intros i c a w Hi'.
    apply lookup_app_Some in Hi' as [Hi'|[_ Hi']]; [eauto|].
    destruct (i - length (tasks s))%nat as [|[|?]]; simplify_eq/=. eauto.
Qed.

Lemma Inv_play_audio c ad s : Mid s → Inv (play_audio book decode c ad s).
Proof.
  intros H. unfold play_audio.
  destruct ad as [a|]; [|by apply Inv_finally_play].
  destruct (truthy a) eqn:Ha; simpl; [|by apply Inv_finally_play].
  destruct (audioContextRef s && gainNodeRef s); [|by apply Inv_finally_play].
  destruct (at_index _ _) as [pageText|]; [|by apply Inv_catch_play].
  case_bool_decide as Hw.
  - destruct H. by unfold finally_play.
  - destruct (decode a); [|by apply Inv_catch_play].
    apply Inv_add_play; [done|done| |done].
    intros ? ? ? [= <- <- <-]. split; [by apply truthy_true_iff|].
    pose proof (countWords_nonneg pageText). lia.
Qed.

Lemma Mid_begin s :
  Inv s → isGenerating s = false →
  Mid (set_highlightedWordIndex (-1) (set_isGenerating true (stopPlayback s))).
Proof.
  intros H Hgen. destruct (Inv_stopPlayback s H). simpl in *.
  constructor; [constructor|..]; simpl; try done.
  by rewrite Hgen in inv_play_tasks0.
Qed.

Lemma Mid_set_calls x s : Mid s → Mid (set_calls x s).
Proof.
  intros [[] ? ?]. constructor; [constructor|..]; simpl in *; assumption.
Qed.

Lemma Inv_playCurrentPage s : Inv s → Inv (playCurrentPage book decode s).
Proof.
  intros H. unfold playCurrentPage.
  destruct (isGenerating s) eqn:Hgen; [done|].
  pose proof (Mid_begin s H Hgen) as Hmid.
  destruct (at_index _ _) as [text|]; [|by apply Inv_play_audio].
  destruct (negb _ && truthy (trim text)); [|by apply Inv_play_audio].
  destruct (generateSpeech_start _ _); [by apply Inv_play_audio|].
  apply Inv_add_play; [done| |done|done].
  by apply Mid_set_calls.
Qed.

Lemma lookup_delete_Some {A} (l : list A) i j x :
  delete i l !! j = Some x → ∃ k, l !! k = Some x.
Proof.
  rewrite list_lookup_delete. case_decide; eauto.
Qed.

Lemma Mid_settled s i t :
  Inv s → tasks s !! i = Some t → is_play t = true →
  Mid (set_tasks (delete i (tasks s)) s).
Proof.
  intros [Hb Hp Ha Hi Hg Ht Hc Hd] Hi' Hplay.
  rewrite (play_count_delete _ _ _ Hi'), Hplay in Ht.
  destruct (isGenerating s) eqn:Hgen; [|simpl in Ht; lia].
  simpl in Ht.
  constructor; [constructor|..]; simpl; try done; auto with lia.
  intros j c a w Hj. apply lookup_delete_Some in Hj as [k Hk]. eauto.
Qed.

Lemma Mid_cache_insert m p a s :
  m = audioCache s → a ≠ [] → Mid s →
  Mid (set_audioCache (<[p := a]> m) s).
Proof.
  intros -> Ha [[] ? ?].
  constructor; [constructor|..]; simpl in *; try assumption.
  intros q b. rewrite lookup_insert. case_decide; [|by eauto].
  intros ?; by simplify_eq.
Qed.

Lemma Inv_resume_play_speech c resp s i :
  Inv s → tasks s !! i = Some (PlayAwaitSpeech c) →
  Inv (resume_play_speech book decode c resp
         (set_tasks (delete i (tasks s)) s)).
Proof.
  intros H Hi. pose proof (Mid_settled s i _ H Hi eq_refl) as Hmid.
  unfold resume_play_speech.
  destruct (generateSpeech_finish resp) as [a|]; [|by apply Inv_catch_play].
  apply Inv_play_audio.
  destruct (truthy a) eqn:Ha; [|done].
  apply Mid_cache_insert; [done|by apply truthy_true_iff|done].
Qed.

Lemma preloadPage_set_isGenerating c p b s :
  set_isGenerating b (preloadPage book c p s)
  = preloadPage book c p (set_isGenerating b s).
Proof.
  unfold preloadPage. simpl.
  destruct (_ || _); [done|].
  destruct (at_index _ _); [|done].
  destruct (negb _); [done|].
  by destruct (generateSpeech_start _ _).
Qed.

Lemma Inv_resume_play_decode c a w res s i :
  Inv s → tasks s !! i = Some (PlayAwaitDecode c a w) →
  Inv (resume_play_decode book c w res (set_tasks (delete i (tasks s)) s)).
Proof.
  intros H Hi. pose proof (Mid_settled s i _ H Hi eq_refl) as Hmid.
  destruct (inv_decode s H _ _ _ _ Hi) as [_ Hw].
  unfold resume_play_decode.
  destruct res as [duration|]; [|by apply Inv_catch_play].
  unfold finally_play. rewrite preloadPage_set_isGenerating.
  apply Inv_preloadPage.
  destruct Hmid as [[Hb Hp Ha Hid Hg Ht Hc Hd] Hgen Hsrc]. simpl in *.
  destruct (Hid Hsrc) as (Hint & _ & _).
  constructor; simpl; try done.
  - intros n [= <-]. rewrite length_app. simpl. lia.
  - intros n nd Hn Hst.
    apply lookup_app_Some in Hn as [Hn|[Hle Hn]].
    + specialize (Hp _ _ Hn Hst). congruence.
    + destruct (n - length (nodes s))%nat as [|[|?]] eqn:E; [|done..].
      f_equal. lia.
  - intros t tm Ht' Hact.
    apply lookup_app_Some in Ht' as [Ht'|[Hle Ht']].
    + destruct (Ha _ _ Ht' Hact). congruence.
    + destruct (t - length (timers s))%nat as [|[|?]] eqn:E; [|done..].
      simplify_eq/=. split; [f_equal; lia|lia].
Qed.

Lemma Inv_end_node n s : Inv s → Inv (set_nodes (alter end_node n (nodes s)) s).
Proof.
  intros [Hb Hp Ha Hi Hg Ht Hc Hd]. constructor; simpl; try done.
  - intros m Hm. rewrite length_alter. auto.
  - intros m nd Hm Hst. destruct (decide (n = m)) as [->|Hne].
    + rewrite list_lookup_alter_eq in Hm.
      destruct (nodes s !! m); simplify_eq/=.
    + rewrite list_lookup_alter_ne in Hm by done. eauto.
Qed.

Lemma Inv_clearInterval s :
  Inv s →
  Inv (set_timers (clearInterval (wordHighlightIntervalRef s) (timers s)) s).
Proof.
  intros [Hb Hp Ha Hi Hg Ht Hc Hd]. constructor; simpl; try done.
  intros t tm Htm Hact.
  apply clearInterval_lookup in Htm as (tm' & Htm & Heq).
  case_decide; subst tm; [done|]. eauto.
Qed.

Lemma Inv_set_isPlaying_false s : Inv s → Inv (set_isPlaying false s).
Proof.
  intros [Hb Hp Ha Hi Hg Ht Hc Hd]. constructor; simpl; try done.
  intros Hsrc. destruct (Hi Hsrc) as (? & ? & ?). done.
Qed.

Lemma Inv_onended c s : Inv s → Inv (onended book c s).
Proof.
  intros H. unfold onended.
  pose proof (Inv_clearInterval _ (Inv_set_isPlaying_false s H)) as H'.
  destruct (_ && _); [by apply Inv_set_currentPage|done].
Qed.

Lemma Inv_onTick s t tm :
  Inv s → timers s !! t = Some tm → tm_active tm = true →
  Inv (onTick (tm_totalWords tm) s).
Proof.
  intros H Ht Hact. unfold onTick.
  case_bool_decide as Hw; [by apply Inv_clearInterval|].
  destruct H as [Hb Hp Ha Hi Hg Hpt Hc Hd].
  destruct (Ha _ _ Ht Hact) as [Hr Hrange].
  constructor; simpl; try done.
  - intros u tm' Hu Hact'. destruct (Ha _ _ Hu Hact') as [Hr' _].
    assert (u = t) as -> by congruence. simplify_eq. split; [done|lia].
  - intros Hsrc. destruct (Hi Hsrc) as (? & _). congruence.
Qed.

Lemma Inv_voiceEffect s : Inv s → Inv (voiceEffect s).
Proof. intros H. by apply Inv_clear_cache, Inv_stopPlayback. Qed.

Lemma Inv_pageEffect s : Inv s → Inv (pageEffect book decode s).
Proof.
  intros H. unfold pageEffect.
  destruct (isInitialMountRef s).
  - by apply Inv_preloadPage, Inv_set_isInitialMountRef.
  - destruct (autoPlay _).
    + by apply Inv_playCurrentPage, Inv_stopPlayback.
    + by apply Inv_preloadPage, Inv_stopPlayback.
Qed.

Lemma Inv_commit prev s : Inv s → Inv (commit book decode prev s).
Proof.
  intros H. unfold commit.
  set (s' := if bool_decide (voice prev = voice s) then s else voiceEffect s).
  assert (Inv s') as H'.
  { subst s'. destruct (bool_decide _); [done|by apply Inv_voiceEffect]. }
  destruct (_ && _); [done|by apply Inv_pageEffect].
Qed.

Lemma Inv_handle s e s' : Inv s → handle book decode s e = Some s' → Inv s'.
Proof.
  intros H. destruct e as [| | |v| |i resp|i res|n|t]; simpl.
  - intros [= <-]. unfold handlePlayPause.
    destruct (isPlaying s);
      [by apply Inv_stopPlayback|by apply Inv_playCurrentPage].
  - intros [= <-]. unfold goToNextPage.
    destruct (bool_decide _); [by apply Inv_set_currentPage|done].
  - intros [= <-]. unfold goToPrevPage.
    destruct (bool_decide _); [by apply Inv_set_currentPage|done].
  - intros [= <-]. by apply Inv_set_voice.
  - intros [= <-]. by apply Inv_set_autoPlay.
  - destruct (tasks s !! i) as [[c|c a w|p]|] eqn:Hi; intros [= <-].
    + by apply Inv_resume_play_speech.
    + apply Inv_resume_preload.
      destruct H as [Hb Hp Ha Hid Hg Ht Hc Hd].
      rewrite (play_count_delete _ _ _ Hi) in Ht.
      constructor; simpl; try done.
      intros j c a w Hj. apply lookup_delete_Some in Hj as [k Hk]. eauto.
  - destruct (tasks s !! i) as [[c|c a w|p]|] eqn:Hi; intros [= <-].
    by eapply Inv_resume_play_decode.
  - destruct (nodes s !! n) as [nd|] eqn:Hn; [|done].
    pose proof (Inv_end_node n s H) as H'.
    destruct (sn_status nd), (sn_onended nd); intros [= <-];
      (done || by apply Inv_onended).
  - destruct (timers s !! t) as [tm|] eqn:Ht; [|done].
    destruct (tm_active tm) eqn:Hact; intros [= <-].
    by eapply Inv_onTick.
Qed.

Lemma Inv_step s e s' : Inv s → step book decode s e = Some s' → Inv s'.
Proof.
  unfold step. intros H Hs.
  destruct (handle book decode s e) as [s1|] eqn:Hh; simplify_eq/=.
  eapply Inv_commit, Inv_handle; eauto.
Qed.

Lemma Inv_run es : ∀ s s', Inv s → run book decode s es = Some s' → Inv s'.
Proof.
  induction es as [|e es IH]; simpl; intros s s' H Hr; [by simplify_eq|].
  destruct (step book decode s e) as [s1|] eqn:Hs; [|done].
  eapply IH; [|done]. by eapply Inv_step.
Qed.

Lemma Inv_initial : Inv initial.
Proof. constructor; simpl; done. Qed.

Lemma Inv_mount : Inv (mount book decode).
Proof.
  unfold mount.
  apply Inv_pageEffect, Inv_voiceEffect, Inv_set_gainNodeRef,
    Inv_set_audioContextRef, Inv_initial.
Qed.

(** Every reachable state satisfies the invariant. *)
Lemma reachable_Inv s : reachable book decode s → Inv s.
Proof. intros [es Hes]. eapply Inv_run; [apply Inv_mount|done]. Qed.

Lemma reachable_run s es s' :
  reachable book decode s → run book decode s es = Some s' →
  reachable book decode s'.
Proof.
  intros [es0 H0] Hr. exists (es0 ++ es).
  revert H0. generalize (mount book decode).
  induction es0 as [|e es0 IH]; simpl; intros s0 H0; [by simplify_eq|].
  destruct (step book decode s0 e); [by apply IH|done].
Qed.

End Invariant.

(** ** Live audio sources and scheduled intervals *)

Definition is_playing (nd : SourceNode) : bool :=
  match sn_status nd with Playing => true | _ => false end.

(** The number of audio source nodes that are playing. *)
Fixpoint count_playing (ns : list SourceNode) : nat :=
  match ns with
  | [] => 0
  | nd :: r => (if is_playing nd then 1 else 0) + count_playing r
  end.

Definition live_sources (s : State) : nat := count_playing (nodes s).

(** The number of intervals still scheduled. *)
Definition live_intervals (s : State) : nat :=
  length (List.filter tm_active (timers s)).

Lemma count_playing_zero (ns : list SourceNode) :
  (∀ n nd, ns !! n = Some nd → sn_status nd ≠ Playing) →
  count_playing ns = 0%nat.
Proof.
  induction ns as [|nd r IH]; intros H; simpl; [done|].
  rewrite IH by (intros n; apply (H (S n))).
  specialize (H 0%nat nd eq_refl). unfold is_playing.
  by destruct (sn_status nd).
Qed.

Lemma count_playing_le_1 (ns : list SourceNode) r :
  (∀ n nd, ns !! n = Some nd → sn_status nd = Playing → r = Some n) →
  (count_playing ns <= 1)%nat.
Proof.
  revert r. induction ns as [|nd l IH]; intros r H; simpl; [lia|].
  destruct (is_playing nd) eqn:Hp.
  - rewrite count_playing_zero; [lia|].
    intros n nd' Hn Hst.
    assert (sn_status nd = Playing) as Hst0.
    { unfold is_playing in Hp. by destruct (sn_status nd). }
    pose proof (H 0%nat nd eq_refl Hst0) as H0.
    pose proof (H (S n) nd' Hn Hst) as H1. congruence.
  - simpl. apply (IH (pred <$> r)).
    intros n nd' Hn Hst. by rewrite (H (S n) nd' Hn Hst).
Qed.

Lemma live_intervals_zero (s : State) :
  (∀ t tm, timers s !! t = Some tm → tm_active tm = false) →
  live_intervals s = 0%nat.
Proof.
  unfold live_intervals. induction (timers s) as [|tm r IH]; intros H; [done|].
  simpl. rewrite (H 0%nat tm eq_refl). apply IH. intros t. apply (H (S t)).
Qed.

Lemma stopPlayback_source_stopped s n :
  audioSourceRef s = Some n → (n < length (nodes s))%nat →
  ∃ nd, nodes (stopPlayback s) !! n = Some nd
        ∧ sn_onended nd = None ∧ sn_connected nd = false
        ∧ sn_status nd ≠ Playing.
Proof.
  intros Hr Hlt. simpl. rewrite Hr. simpl.
  destruct (lookup_lt_is_Some_2 _ _ Hlt) as [nd Hnd].
  exists (stop_node nd). rewrite list_lookup_alter_eq, Hnd.
  repeat split. apply stop_node_not_playing.
Qed.

Lemma Inv_no_playing s :
  Inv s → audioSourceRef s = None →
  (∀ n nd, nodes s !! n = Some nd → sn_status nd ≠ Playing)
  ∧ (∀ t tm, timers s !! t = Some tm → tm_active tm = false).
Proof.
  intros H Hsrc. split.
  - intros n nd Hn Hst. pose proof (inv_playing s H _ _ Hn Hst). congruence.
  - intros t tm Ht. destruct (tm_active tm) eqn:Hact; [|done].
    destruct (inv_active s H _ _ Ht Hact) as [Hr _].
    destruct (inv_idle s H Hsrc) as [Hi _]. congruence.
Qed.

Section Playback.

Variable book : Book.
Variable decode : jsstring -> option (list N).

(** The part of the state playCurrentPage leaves as [stopPlayback] made
    it. *)
Lemma play_audio_frame c ad s :
  let s' := play_audio book decode c ad s in
  nodes s' = nodes s ∧ timers s' = timers s
  ∧ audioSourceRef s' = audioSourceRef s
  ∧ wordHighlightIntervalRef s' = wordHighlightIntervalRef s
  ∧ isPlaying s' = isPlaying s ∧ calls s' = calls s
  ∧ highlightedWordIndex s' = highlightedWordIndex s.
Proof.
  unfold play_audio. repeat case_match; simpl; done.
Qed.

Lemma playCurrentPage_frame s :
  isGenerating s = false →
  let s' := playCurrentPage book decode s in
  nodes s' = nodes (stopPlayback s) ∧ timers s' = timers (stopPlayback s)
  ∧ audioSourceRef s' = None ∧ wordHighlightIntervalRef s' = None
  ∧ isPlaying s' = false ∧ highlightedWordIndex s' = -1.
Proof.
  intros Hgen. unfold playCurrentPage. rewrite Hgen.
  repeat case_match;
    try (edestruct play_audio_frame as (-> & -> & -> & -> & -> & _ & ->));
    simpl; done.
Qed.

(** C1.  In every reachable state at most one audio source node is
    playing.  Moreover a call of playCurrentPage that is not rejected
    tears the previous session down before anything else: when its
    synchronous part returns (a synthesis request or a decode may then be
    pending, nothing has been played), the node the session held is
    stopped and disconnected with its [onended] handler removed, no node
    is playing, no interval is scheduled, and both refs are cleared. *)
Theorem single_playback_session (s : State) :
  reachable book decode s →
  (live_sources s <= 1)%nat
  ∧ (isGenerating s = false →
     let s' := playCurrentPage book decode s in
     live_sources s' = 0%nat
     ∧ live_intervals s' = 0%nat
     ∧ audioSourceRef s' = None
     ∧ wordHighlightIntervalRef s' = None
     ∧ (∀ n, audioSourceRef s = Some n →
          ∃ nd, nodes s' !! n = Some nd
                ∧ sn_status nd ≠ Playing
                ∧ sn_connected nd = false
                ∧ sn_onended nd = None)).
Proof.
  intros Hreach. pose proof (reachable_Inv _ _ _ Hreach) as H. split.
  - eapply count_playing_le_1, inv_playing, H.
  - intros Hgen s'.
    destruct (playCurrentPage_frame s Hgen) as (Hn & Ht & Hs & Hi & _).
    fold s' in Hn, Ht, Hs, Hi.
    pose proof (Inv_stopPlayback s H) as Hstop.
    destruct (Inv_no_playing _ Hstop eq_refl) as [Hnp Hna].
    repeat split; try done.
    + unfold live_sources. rewrite Hn. by apply count_playing_zero.
    + apply live_intervals_zero. by rewrite Ht.
    + intros n Hr. rewrite Hn.
      destruct (stopPlayback_source_stopped s n Hr) as (nd & ? & ? & ? & ?);
        [by apply (inv_source_bound s H)|]. by exists nd.
Qed.

(** *** Effects run only when their dependencies change *)

Lemma commit_same prev s :
  voice prev = voice s → currentPage prev = currentPage s →
  autoPlay prev = autoPlay s →
  commit book decode prev s = s.
Proof.
  intros Hv Hp Ha. unfold commit.
  rewrite (bool_decide_eq_true_2 _ Hv). simpl.
  by rewrite (bool_decide_eq_true_2 _ Hp), (bool_decide_eq_true_2 _ Ha).
Qed.

(** The render dependencies are left alone by everything but the
    handlers that set them. *)
Definition same_deps (s s' : State) : Prop :=
  voice s' = voice s ∧ currentPage s' = currentPage s
  ∧ autoPlay s' = autoPlay s.

Lemma same_deps_preloadPage c p s : same_deps s (preloadPage book c p s).
Proof. unfold preloadPage. repeat case_match; by repeat split. Qed.

(** A click on the button of the other voice: the state is set, and of
    the two effects only the voice effect runs. *)
Lemma voice_click_step s v :
  v ≠ voice s →
  step book decode s (ClickVoice v) = Some (voiceEffect (set_voice v s)).
Proof.
  intros Hv. unfold step, handle, commit. simpl.
  rewrite (bool_decide_eq_false_2 (voice s = v)) by (intros ?; by apply Hv).
  simpl. by rewrite !bool_decide_eq_true_2.
Qed.

(** *** A removed [onended] handler is never put back *)

Definition detached (n : nat) (ns : list SourceNode) : Prop :=
  ∃ nd, ns !! n = Some nd ∧ sn_onended nd = None.

Lemma detached_stop_source n r ns :
  detached n ns → detached n (stop_source r ns).
Proof.
  intros (nd & Hn & Hd). destruct r as [m|]; simpl; [|by exists nd].
  destruct (decide (m = n)) as [->|Hne].
  - exists (stop_node nd). by rewrite list_lookup_alter_eq, Hn.
  - exists nd. by rewrite list_lookup_alter_ne.
Qed.

Lemma detached_end_node n m ns :
  detached n ns → detached n (alter end_node m ns).
Proof.
  intros (nd & Hn & Hd). destruct (decide (m = n)) as [->|Hne].
  - exists (end_node nd). by rewrite list_lookup_alter_eq, Hn.
  - exists nd. by rewrite list_lookup_alter_ne.
Qed.

Lemma detached_app n ns l : detached n ns → detached n (ns ++ l).
Proof.
  intros (nd & Hn & Hd). exists nd. split; [|done].
  by apply lookup_app_l_Some.
Qed.

Lemma nodes_preloadPage c p s : nodes (preloadPage book c p s) = nodes s.
Proof. unfold preloadPage. by repeat case_match. Qed.

Lemma nodes_resume_preload p resp s : nodes (resume_preload p resp s) = nodes s.
Proof. unfold resume_preload. by repeat case_match. Qed.

Lemma detached_playCurrentPage n s :
  detached n (nodes s) → detached n (nodes (playCurrentPage book decode s)).
Proof.
  intros H. destruct (isGenerating s) eqn:Hgen.
  - unfold playCurrentPage. by rewrite Hgen.
  - destruct (playCurrentPage_frame s Hgen) as (-> & _).
    by apply detached_stop_source.
Qed.

Lemma detached_commit n prev s :
  detached n (nodes s) → detached n (nodes (commit book decode prev s)).
Proof.
  intros H. unfold commit.
  set (s' := if bool_decide (voice prev = voice s) then s else voiceEffect s).
  assert (detached n (nodes s')) as H'.
  { subst s'. destruct (bool_decide _); [done|].
    by apply detached_stop_source. }
  destruct (_ && _); [done|]. unfold pageEffect.
  destruct (isInitialMountRef s'); [by rewrite nodes_preloadPage|].
  destruct (autoPlay _).
  - by apply detached_playCurrentPage, detached_stop_source.
  - rewrite nodes_preloadPage. by apply detached_stop_source.
Qed.

Lemma detached_handle n s e s' :
  detached n (nodes s) → handle book decode s e = Some s' →
  detached n (nodes s').
Proof.
  intros H. destruct e as [| | |v| |i resp|i res|m|t]; simpl.
  - intros [= <-]. unfold handlePlayPause. destruct (isPlaying s).
    + by apply detached_stop_source.
    + by apply detached_playCurrentPage.
  - intros [= <-]. unfold goToNextPage. by destruct (bool_decide _).
  - intros [= <-]. unfold goToPrevPage. by destruct (bool_decide _).
  - by intros [= <-].
  - by intros [= <-].
  - destruct (tasks s !! i) as [[c|c a w|p]|]; intros [= <-].
    + unfold resume_play_speech.
      destruct (generateSpeech_finish resp) as [a|]; [|done].
      edestruct play_audio_frame as (-> & _). by destruct (truthy a).
    + by rewrite nodes_resume_preload.
  - destruct (tasks s !! i) as [[c|c a w|p]|]; intros [= <-].
    unfold resume_play_decode. destruct res; [|done]. simpl.
    rewrite nodes_preloadPage. simpl. by apply detached_app.
  - destruct (nodes s !! m) as [nd|]; [|done].
    destruct (sn_status nd), (sn_onended nd); intros [= <-];
      try (unfold onended; destruct (_ && _)); simpl;
      by apply detached_end_node.
  - destruct (timers s !! t) as [tm|]; [|done].
    destruct (tm_active tm); intros [= <-].
    unfold onTick. by destruct (bool_decide _).
Qed.

Lemma detached_run n es : ∀ s s',
  detached n (nodes s) → run book decode s es = Some s' →
  detached n (nodes s').
Proof.
  induction es as [|e es IH]; simpl; intros s s' H Hr; [by simplify_eq|].
  unfold step in Hr.
  destruct (handle book decode s e) as [s1|] eqn:Hh; [|done]. simpl in Hr.
  eapply IH; [|done]. eapply detached_commit, detached_handle; eauto.
Qed.

Lemma stopPlayback_idempotent s : stopPlayback (stopPlayback s) = stopPlayback s.
Proof. reflexivity. Qed.

(** C6.  [stopPlayback] is idempotent, and it changes nothing when no
    session is held.  Once it has run, the [ended] event of the node it
    stopped finds no handler, whatever happens in between: delivering the
    event only marks the node as ended, and the page, the playing flag
    and everything else stay as they are. *)
Theorem stop_detaches_completion :
  (∀ s, stopPlayback (stopPlayback s) = stopPlayback s)
  ∧ (∀ s, reachable book decode s → audioSourceRef s = None →
       stopPlayback s = s)
  ∧ (∀ s n s1 es s2 s3,
       reachable book decode s → audioSourceRef s = Some n →
       nodes s1 = nodes (stopPlayback s) →
       run book decode s1 es = Some s2 →
       step book decode s2 (SourceEnded n) = Some s3 →
       s3 = set_nodes (alter end_node n (nodes s2)) s2).
Proof.
  split; [exact stopPlayback_idempotent|split].
  - intros s Hreach Hsrc. pose proof (reachable_Inv _ _ _ Hreach) as H.
    destruct (inv_idle s H Hsrc) as (Hi & Hp & Hh).
    destruct s; simpl in *; subst. reflexivity.
  - intros s n s1 es s2 s3 Hreach Hsrc Hn Hrun Hstep.
    pose proof (reachable_Inv _ _ _ Hreach) as H.
    assert (detached n (nodes s2)) as (nd & Hnd & Hd).
    { eapply detached_run; [|done]. rewrite Hn.
      destruct (stopPlayback_source_stopped s n Hsrc) as (nd & ? & ? & _);
        [by apply (inv_source_bound s H)|]. by exists nd. }
    unfold step, handle in Hstep. rewrite Hnd, Hd in Hstep.
    destruct (sn_status nd); simplify_eq/=; by rewrite commit_same.
Qed.

(** *** Pages without text *)

Lemma generateSpeech_start_blank text v :
  trim text = [] → generateSpeech_start text v = ReturnEmpty.
Proof. intros H. unfold generateSpeech_start. by rewrite H. Qed.

Lemma generateSpeech_start_text text v :
  trim text ≠ [] →
  generateSpeech_start text v = CallService text (voiceName v).
Proof.
  intros H. unfold generateSpeech_start.
  by rewrite (proj2 (truthy_true_iff _) H).
Qed.

Lemma playCurrentPage_blank s text :
  isGenerating s = false →
  at_index (pageTexts book) (currentPage s) = Some text →
  trim text = [] →
  playCurrentPage book decode s = stopPlayback s.
Proof.
  intros Hgen Htext Hblank.
  pose proof (proj2 (countWords_zero_iff text) Hblank) as Hw.
  unfold playCurrentPage, play_audio. rewrite Hgen. simpl.
  rewrite Htext, Hblank, Hw. simpl. rewrite andb_false_r.
  destruct s; simpl in *; subst.
  by repeat case_match.
Qed.

(** C7.  On a page whose text is empty or white space only,
    [generateSpeech] returns the empty string without a request, and
    playCurrentPage does not even call it: the call does what
    [stopPlayback] does and nothing more.  No request is sent, no task is
    left pending (so nothing is decoded), and no source node is created.
    In no reachable state does a pending decode hold the empty
    payload. *)
Theorem blank_page_play_is_noop :
  (∀ text v, trim text = [] → generateSpeech_start text v = ReturnEmpty)
  ∧ (∀ s text,
       isGenerating s = false →
       at_index (pageTexts book) (currentPage s) = Some text →
       trim text = [] →
       let s' := handlePlayPause book decode s in
       s' = stopPlayback s
       ∧ calls s' = calls s
       ∧ tasks s' = tasks s
       ∧ length (nodes s') = length (nodes s)
       ∧ audioSourceRef s' = None
       ∧ isPlaying s' = false)
  ∧ (∀ s i c a w,
       reachable book decode s →
       tasks s !! i = Some (PlayAwaitDecode c a w) → a ≠ []).
Proof.
  split; [exact generateSpeech_start_blank|split].
  - intros s text Hgen Htext Hblank s'.
    assert (s' = stopPlayback s) as ->.
    { subst s'. unfold handlePlayPause.
      destruct (isPlaying s); [done|by eapply playCurrentPage_blank]. }
    repeat split. simpl. apply length_stop_source.
  - intros s i c a w Hreach Hi.
    by destruct (inv_decode s (reachable_Inv _ _ _ Hreach) _ _ _ _ Hi).
Qed.

(** *** A second press while a page is being generated *)

Lemma playCurrentPage_starts_fetch s text :
  isGenerating s = false →
  at_index (pageTexts book) (currentPage s) = Some text →
  trim text ≠ [] →
  from_option truthy false (audioCache s !! currentPage s) = false →
  playCurrentPage book decode s
  = set_tasks (tasks s ++ [PlayAwaitSpeech (closure_of s)])
      (set_calls (calls s ++ [mkCall true (currentPage s) text
                                (voiceName (voice s))])
         (set_highlightedWordIndex (-1)
            (set_isGenerating true (stopPlayback s)))).
Proof.
  intros Hgen Htext Hnb Hmiss.
  unfold playCurrentPage. rewrite Hgen. simpl.
  rewrite Htext, Hmiss, (proj2 (truthy_true_iff _) Hnb). simpl.
  by rewrite generateSpeech_start_text.
Qed.

Lemma handlePlayPause_rejected x :
  isPlaying x = false → isGenerating x = true →
  handlePlayPause book decode x = x.
Proof.
  intros Hp Hg. unfold handlePlayPause, playCurrentPage. by rewrite Hp, Hg.
Qed.

(** C8.  A first press on a page that has text and is not cached sends
    one request and sets the in-flight flag.  While the flag is set a
    further press changes nothing at all: it is rejected, so no second
    request is sent and no second session can start; whatever happens
    next, at most one source node is playing. *)
Theorem second_press_is_rejected :
  (∀ s text,
     reachable book decode s → isPlaying s = false →
     isGenerating s = false →
     at_index (pageTexts book) (currentPage s) = Some text →
     trim text ≠ [] →
     from_option truthy false (audioCache s !! currentPage s) = false →
     let s1 := handlePlayPause book decode s in
     isGenerating s1 = true
     ∧ tasks s1 = tasks s ++ [PlayAwaitSpeech (closure_of s)]
     ∧ handlePlayPause book decode s1 = s1)
  ∧ (∀ s, reachable book decode s → isGenerating s = true →
       handlePlayPause book decode s = s
       ∧ step book decode s ClickPlayPause = Some s
       ∧ ∀ es s', run book decode s (ClickPlayPause :: es) = Some s' →
           (live_sources s' <= 1)%nat).
Proof.
  assert (∀ s, reachable book decode s → isGenerating s = true →
            handlePlayPause book decode s = s) as Hrej.
  { intros s Hreach Hgen. pose proof (reachable_Inv _ _ _ Hreach) as H.
    destruct (inv_idle s H (inv_generating s H Hgen)) as (_ & Hp & _).
    by apply handlePlayPause_rejected. }
  split.
  - intros s text Hreach Hp Hgen Htext Hnb Hmiss s1.
    assert (s1 = playCurrentPage book decode s) as Hs1.
    { subst s1. unfold handlePlayPause. by rewrite Hp. }
    rewrite (playCurrentPage_starts_fetch s text) in Hs1 by done.
    clearbody s1. subst s1.
    split; [reflexivity|]. split; [reflexivity|].
    apply handlePlayPause_rejected; reflexivity.
  - intros s Hreach Hgen. split; [by apply Hrej|].
    assert (step book decode s ClickPlayPause = Some s) as Hstep.
    { unfold step, handle. rewrite (Hrej s Hreach Hgen).
      cbn [fmap option_fmap option_map]. f_equal.
      by apply commit_same. }
    split; [exact Hstep|]. intros es s' Hrun. cbn [run] in Hrun.
    rewrite Hstep in Hrun.
    pose proof (reachable_Inv _ _ _ (reachable_run _ _ _ _ _ Hreach Hrun)) as H'.
    eapply count_playing_le_1, inv_playing, H'.
Qed.

(** *** The audio cache *)

Lemma audioCache_play_audio c ad s :
  audioCache (play_audio book decode c ad s) = audioCache s.
Proof. unfold play_audio. by repeat case_match. Qed.

(** C10.  No reachable state has an empty payload in the audio cache.
    Both continuations insert exactly when [generateSpeech] returned a
    non-empty payload: playCurrentPage then writes the entry of the page
    it was started on, preloadPage that of the page it was called for,
    and otherwise either leaves the cache as it is. *)
Theorem cache_payloads_nonempty :
  (∀ s p a, reachable book decode s → audioCache s !! p = Some a → a ≠ [])
  ∧ (∀ s c resp,
       audioCache (resume_play_speech book decode c resp s)
       = match resp with
         | Some a => if truthy a then <[cl_currentPage c := a]> (audioCache s)
                     else audioCache s
         | None => audioCache s
         end)
  ∧ (∀ s p resp,
       audioCache (resume_preload p resp s)
       = match resp with
         | Some a => if truthy a then <[p := a]> (audioCache s)
                     else audioCache s
         | None => audioCache s
         end).
Proof.
  split; [|split].
  - intros s p a Hreach. apply (inv_cache s (reachable_Inv _ _ _ Hreach)).
  - intros s c [a|]; [|done]. unfold resume_play_speech, generateSpeech_finish.
    destruct (truthy a) eqn:Ha; [|done].
    by rewrite audioCache_play_audio, Ha.
  - intros s p [a|]; unfold resume_preload; simpl.
    + destruct (truthy a) eqn:Ha; rewrite ?Ha; by destruct (bool_decide _).
    + by destruct (bool_decide _).
Qed.

(** *** The word-highlight interval *)

(** A pending decode carries the word count of the page playCurrentPage
    was started on. *)
Definition decode_words (ts : list Task) : Prop :=
  ∀ i c a w, ts !! i = Some (PlayAwaitDecode c a w) →
    ∃ text, at_index (pageTexts book) (cl_currentPage c) = Some text
            ∧ w = countWords text.

Lemma decode_words_app ts t :
  decode_words ts →
  (∀ c a w, t = PlayAwaitDecode c a w →
     ∃ text, at_index (pageTexts book) (cl_currentPage c) = Some text
             ∧ w = countWords text) →
  decode_words (ts ++ [t]).
Proof.
  intros H Ht i c a w Hi.
  apply lookup_app_Some in Hi as [Hi|[_ Hi]]; [by eapply H|].
  destruct (i - length ts)%nat as [|[|?]]; simplify_eq/=. by eapply Ht.
Qed.

Lemma decode_words_delete ts i : decode_words ts → decode_words (delete i ts).
Proof.
  intros H j c a w Hj. apply lookup_delete_Some in Hj as [k Hk].
  by eapply H.
Qed.

Lemma decode_words_preloadPage c p s :
  decode_words (tasks s) → decode_words (tasks (preloadPage book c p s)).
Proof.
  intros H. unfold preloadPage. repeat case_match; simpl; try done.
  by apply decode_words_app.
Qed.

Lemma tasks_resume_preload p resp s : tasks (resume_preload p resp s) = tasks s.
Proof. unfold resume_preload. by repeat case_match. Qed.

Lemma decode_words_play_audio c ad s :
  decode_words (tasks s) → decode_words (tasks (play_audio book decode c ad s)).
Proof.
  intros H. unfold play_audio. repeat case_match; simpl; try done.
  apply decode_words_app; [done|]. intros ? ? ? [= <- <- <-]. eauto.
Qed.

Lemma decode_words_playCurrentPage s :
  decode_words (tasks s) → decode_words (tasks (playCurrentPage book decode s)).
Proof.
  intros H. unfold playCurrentPage.
  repeat case_match; try done; try by apply decode_words_play_audio.
  simpl. by apply decode_words_app.
Qed.

Lemma decode_words_commit prev s :
  decode_words (tasks s) → decode_words (tasks (commit book decode prev s)).
Proof.
  intros H. unfold commit.
  set (s' := if bool_decide (voice prev = voice s) then s else voiceEffect s).
  assert (decode_words (tasks s')) as H'.
  { subst s'. by destruct (bool_decide _). }
  destruct (_ && _); [done|]. unfold pageEffect.
  destruct (isInitialMountRef s'); [by apply decode_words_preloadPage|].
  destruct (autoPlay _).
  - by apply decode_words_playCurrentPage.
  - by apply decode_words_preloadPage.
Qed.

Lemma decode_words_handle s e s' :
  decode_words (tasks s) → handle book decode s e = Some s' →
  decode_words (tasks s').
Proof.
  intros H. destruct e as [| | |v| |i resp|i res|m|t]; simpl.
  - intros [= <-]. unfold handlePlayPause. destruct (isPlaying s); [done|].
    by apply decode_words_playCurrentPage.
  - intros [= <-]. unfold goToNextPage. by destruct (bool_decide _).
  - intros [= <-]. unfold goToPrevPage. by destruct (bool_decide _).
  - by intros [= <-].
  - by intros [= <-].
  - destruct (tasks s !! i) as [[c|c a w|p]|]; intros [= <-].
    + unfold resume_play_speech.
      destruct (generateSpeech_finish resp) as [a|];
        [|by apply decode_words_delete].
      apply decode_words_play_audio.
      destruct (truthy a); by apply decode_words_delete.
    + rewrite tasks_resume_preload. by apply decode_words_delete.
  - destruct (tasks s !! i) as [[c|c a w|p]|]; intros [= <-].
    unfold resume_play_decode. destruct res; [|by apply decode_words_delete].
    simpl. apply decode_words_preloadPage. by apply decode_words_delete.
  - destruct (nodes s !! m) as [nd|]; [|done].
    destruct (sn_status nd), (sn_onended nd); intros [= <-];
      try (unfold onended; destruct (_ && _)); done.
  - destruct (timers s !! t) as [tm|]; [|done].
    destruct (tm_active tm); intros [= <-].
    unfold onTick. by destruct (bool_decide _).
Qed.

Lemma decode_words_reachable s :
  reachable book decode s → decode_words (tasks s).
Proof.
  intros [es Hes]. revert Hes.
  assert (decode_words (tasks (mount book decode))) as H0.
  { unfold mount, pageEffect. simpl. apply decode_words_preloadPage.
    simpl. intros i ? ? ? Hi. by destruct i. }
  revert H0. generalize (mount book decode).
  induction es as [|e es IH]; simpl; intros s0 H0 Hr; [by simplify_eq|].
  unfold step in Hr.
  destruct (handle book decode s0 e) as [s1|] eqn:Hh; [|done]. simpl in Hr.
  eapply IH; [|done]. eapply decode_words_commit, decode_words_handle; eauto.
Qed.

(** Interval [t], created for [W] words, is the one scheduled. *)
Definition ticking (t : nat) (W : Z) (s : State) : Prop :=
  wordHighlightIntervalRef s = Some t
  ∧ ∃ tm, timers s !! t = Some tm ∧ tm_active tm = true
          ∧ tm_totalWords tm = W.

Lemma tick_advances t W s :
  ticking t W s → highlightedWordIndex s + 1 < W →
  step book decode s (IntervalTick t)
  = Some (set_highlightedWordIndex (highlightedWordIndex s + 1) s).
Proof.
  intros (Hr & tm & Ht & Hact & HW) Hlt.
  unfold step, handle, onTick. rewrite Ht, Hact, HW.
  rewrite bool_decide_eq_false_2 by lia. simpl. by rewrite commit_same.
Qed.

Lemma tick_stops t W s :
  ticking t W s → W <= highlightedWordIndex s + 1 →
  step book decode s (IntervalTick t)
  = Some (set_timers (alter cancel_timer t (timers s)) s).
Proof.
  intros (Hr & tm & Ht & Hact & HW) Hle.
  unfold step, handle, onTick. rewrite Ht, Hact, HW.
  rewrite bool_decide_eq_true_2 by lia. simpl.
  by rewrite commit_same, Hr.
Qed.

Lemma tick_cancelled t s tm :
  timers s !! t = Some tm → tm_active tm = false →
  step book decode s (IntervalTick t) = None.
Proof. intros Ht Hact. unfold step, handle. by rewrite Ht, Hact. Qed.

Lemma ticks_advance t W (k : nat) : ∀ s,
  ticking t W s → highlightedWordIndex s + Z.of_nat k < W →
  run book decode s (replicate k (IntervalTick t))
  = Some (set_highlightedWordIndex (highlightedWordIndex s + Z.of_nat k) s).
Proof.
  induction k as [|k IH]; intros s Htick Hlt.
  - simpl. rewrite Z.add_0_r. by destruct s.
  - cbn [replicate run]. rewrite (tick_advances t W s) by (done || lia).
    rewrite IH; [|done|simpl; lia]. simpl. f_equal.
    replace (Z.of_nat (S k)) with (1 + Z.of_nat k) by lia.
    by rewrite Z.add_assoc.
Qed.

Lemma preloadPage_frame c p s :
  let s' := preloadPage book c p s in
  timers s' = timers s
  ∧ wordHighlightIntervalRef s' = wordHighlightIntervalRef s
  ∧ highlightedWordIndex s' = highlightedWordIndex s
  ∧ audioSourceRef s' = audioSourceRef s
  ∧ isPlaying s' = isPlaying s.
Proof. unfold preloadPage. by repeat case_match. Qed.

(** The state in which playCurrentPage has started a page of [W] words
    whose audio lasts [D] seconds. *)
Lemma step_decode_settled s i c a W D :
  tasks s !! i = Some (PlayAwaitDecode c a W) →
  ∃ s0, step book decode s (DecodeSettled i (Some D)) = Some s0
    ∧ timers s0 = timers s ++ [{| tm_totalWords := W;
                                 tm_delay := (D * 1000 / inject_Z W)%Q;
                                 tm_active := true |}]
    ∧ wordHighlightIntervalRef s0 = Some (length (timers s))
    ∧ highlightedWordIndex s0 = 0
    ∧ isPlaying s0 = true.
Proof.
  intros Hi. eexists. split.
  - unfold step, handle. rewrite Hi. simpl. rewrite commit_same; [done|..];
      unfold finally_play; simpl;
      by destruct (same_deps_preloadPage c (cl_currentPage c + 1)
        (set_wordHighlightIntervalRef (Some (length (timers s)))
           (set_timers (timers s ++ [{| tm_totalWords := W;
               tm_delay := (D * 1000 / inject_Z W)%Q; tm_active := true |}])
              (set_highlightedWordIndex 0 (set_isPlaying true
                 (set_audioSourceRef (Some (length (nodes s)))
                    (set_nodes (nodes s ++ [{| sn_onended := Some c;
                        sn_connected := true; sn_status := Playing |}])
                       (set_tasks (delete i (tasks s)) s))))))))
        as (? & ? & ?).
  - unfold finally_play. simpl.
    edestruct preloadPage_frame as (-> & -> & -> & _ & ->). done.
Qed.

(** C2 (amended).  When playCurrentPage starts a page of [W] words whose
    audio lasts [D] seconds, [W] is at least 1, the highlight is put on
    word 0 and an interval of [D * 1000 / W] milliseconds is scheduled.
    Each of its first [W - 1] ticks moves the highlight one word on, up
    to word [W - 1].  The interval is still scheduled then: its next
    tick leaves the highlight on word [W - 1] and cancels the interval,
    and after that no tick fires.  As long as an interval is scheduled,
    the index stays between 0 and its word count minus one. *)
Theorem word_timer_schedule (s : State) i c a W D :
  reachable book decode s →
  tasks s !! i = Some (PlayAwaitDecode c a W) →
  ∃ s0 t text,
    step book decode s (DecodeSettled i (Some D)) = Some s0
    ∧ at_index (pageTexts book) (cl_currentPage c) = Some text
    ∧ W = countWords text
    ∧ 1 <= W
    ∧ wordHighlightIntervalRef s0 = Some t
    ∧ timers s0 !! t = Some {| tm_totalWords := W;
                               tm_delay := (D * 1000 / inject_Z W)%Q;
                               tm_active := true |}
    ∧ highlightedWordIndex s0 = 0
    ∧ (∀ k : nat, Z.of_nat k < W →
         ∃ sk, run book decode s0 (replicate k (IntervalTick t)) = Some sk
               ∧ highlightedWordIndex sk = Z.of_nat k
               ∧ ticking t W sk)
    ∧ (∃ sW s',
         run book decode s0 (replicate (Z.to_nat (W - 1)) (IntervalTick t))
         = Some sW
         ∧ highlightedWordIndex sW = W - 1
         ∧ step book decode sW (IntervalTick t) = Some s'
         ∧ highlightedWordIndex s' = W - 1
         ∧ live_intervals s' = 0%nat
         ∧ step book decode s' (IntervalTick t) = None)
    ∧ (∀ es s' u tm,
         run book decode s0 es = Some s' →
         timers s' !! u = Some tm → tm_active tm = true →
         0 <= highlightedWordIndex s' <= tm_totalWords tm - 1).
Proof.
  intros Hreach Hi.
  pose proof (reachable_Inv _ _ _ Hreach) as H.
  destruct (inv_decode s H _ _ _ _ Hi) as [_ HW].
  destruct (decode_words_reachable s Hreach _ _ _ _ Hi) as (text & Htext & ->).
  destruct (step_decode_settled s i c a (countWords text) D Hi)
    as (s0 & Hstep & Htm & Hr & Hh & _).
  set (W := countWords text) in *. set (t := length (timers s)) in *.
  assert (reachable book decode s0) as Hreach0.
  { eapply (reachable_run _ _ s [DecodeSettled i (Some D)]); [done|].
    cbn [run]. by rewrite Hstep. }
  assert (timers s0 !! t = Some {| tm_totalWords := W;
            tm_delay := (D * 1000 / inject_Z W)%Q; tm_active := true |})
    as Hlook.
  { rewrite Htm. subst t. by rewrite lookup_app_r, Nat.sub_diag. }
  assert (ticking t W s0) as Htick0.
  { split; [done|]. eexists. by split. }
  assert (∀ k : nat, Z.of_nat k < W →
            run book decode s0 (replicate k (IntervalTick t))
            = Some (set_highlightedWordIndex (Z.of_nat k) s0)) as Hrun.
  { intros k Hk. rewrite (ticks_advance t W k s0 Htick0) by lia.
    by rewrite Hh. }
  exists s0, t, text. split_and!; try done.
  - intros k Hk. eexists. split; [by apply Hrun|]. split; [done|].
    split; [done|]. eexists. by split.
  - set (sW := set_highlightedWordIndex (W - 1) s0).
    set (s' := set_timers (alter cancel_timer t (timers sW)) sW).
    assert (ticking t W sW) as HtickW.
    { split; [done|]. eexists. by split. }
    assert (step book decode sW (IntervalTick t) = Some s') as HstepW.
    { apply (tick_stops t W sW HtickW). simpl. lia. }
    assert (run book decode s0 (replicate (Z.to_nat (W - 1)) (IntervalTick t))
            = Some sW) as HrunW.
    { rewrite Hrun by lia. subst sW. do 2 f_equal. lia. }
    assert (∀ u tm, timers s' !! u = Some tm → tm_active tm = false) as Hoff.
    { assert (reachable book decode s') as Hreach'.
      { eapply (reachable_run _ _ sW [IntervalTick t]).
        - by eapply reachable_run.
        - cbn [run]. by rewrite HstepW. }
      pose proof (reachable_Inv _ _ _ Hreach') as H'.
      intros u tm Hu. destruct (tm_active tm) eqn:Hact; [|done].
      destruct (inv_active s' H' _ _ Hu Hact) as [Hru _].
      simpl in Hru. assert (u = t) as -> by congruence.
      simpl in Hu. rewrite list_lookup_alter_eq, Hlook in Hu.
      by simplify_eq/=. }
    exists sW, s'. split_and!; try done.
    + by apply live_intervals_zero.
    + destruct (lookup_lt_is_Some_2 (timers s') t) as [tm Htm'].
      { simpl. rewrite length_alter. by eapply lookup_lt_Some. }
      by eapply tick_cancelled, Hoff.
  - intros es s' u tm Hes Hu Hact.
    pose proof (reachable_Inv _ _ _ (reachable_run _ _ _ _ _ Hreach0 Hes)) as H'.
    destruct (inv_active s' H' _ _ Hu Hact) as [_ ?]. lia.
Qed.

(** *** Playing a page again *)

(** The foreground requests sent for page [P]. *)
Definition is_fg (P : Z) (c : SynthCall) : bool :=
  sc_foreground c && bool_decide (sc_page c = P).

Definition fg_calls (P : Z) (l : list SynthCall) : nat :=
  length (List.filter (is_fg P) l).

Lemma fg_calls_app P l1 l2 :
  fg_calls P (l1 ++ l2) = (fg_calls P l1 + fg_calls P l2)%nat.
Proof. unfold fg_calls. by rewrite List.filter_app, length_app. Qed.






Definition pending (P : Z) (x : State) : Prop :=
  ∃ i c, tasks x !! i = Some (PlayAwaitSpeech c) ∧ cl_currentPage c = P.

(** [x'] has the cache of [x], its tasks and possibly more, and no
    further foreground request for [P]. *)
Definition ext (P : Z) (x x' : State) : Prop :=
  audioCache x' = audioCache x
  ∧ (∃ l, tasks x' = tasks x ++ l)
  ∧ fg_calls P (calls x') = fg_calls P (calls x)
  ∧ voice x' = voice x.

Ltac ext_same :=
  repeat split; simpl; try done; exists []; by rewrite app_nil_r.




Lemma ext_preloadPage P c p x : ext P x (preloadPage book c p x).
Proof.
  unfold preloadPage. repeat case_match; try by ext_same.
  repeat split; simpl; [by eexists|].
  by rewrite fg_calls_app, Nat.add_0_r.
Qed.




Lemma pending_generating P x : Inv x → pending P x → isGenerating x = true.
Proof.
  intros H (i & c & Hi & _).
  pose proof (inv_play_tasks x H) as Ht.
  rewrite (play_count_delete _ _ _ Hi) in Ht. simpl in Ht.
  destruct (isGenerating x); [done|lia].
Qed.















End Playback.

(** * Concrete runs *)

(** A decoder that accepts every payload. *)
Definition demo_decode (a : jsstring) : option (list N) := Some a.

Definition demo_audio : jsstring := js "UklGRg==".

(** Three pages, the middle one empty. *)
Definition book3 : Book :=
  {| id := js "1"; title := js "Demo"; coverImage := [];
     pageTexts := [js "Hello world"; js ""; js "Third page here"] |}.

(** Two pages. *)
Definition book2 : Book :=
  {| id := js "2"; title := js "Demo"; coverImage := [];
     pageTexts := [js "a b"; js "c d"] |}.

(** The state a run from the mounted component ends in. *)
Definition after (book : Book) (es : list Event) : State :=
  default (mount book demo_decode)
    (run book demo_decode (mount book demo_decode) es).

Lemma after_reachable book es :
  is_Some (run book demo_decode (mount book demo_decode) es) →
  reachable book demo_decode (after book es).
Proof. intros [s Hs]. exists es. unfold after. by rewrite Hs. Qed.

(** Page 0 of [book3]: play pressed, the request pending. *)
Definition demo_fetching : State := after book3 [ClickPlayPause].

(** The payload has arrived and is being decoded. *)
Definition demo_decoding : State :=
  after book3 [ClickPlayPause; SpeechSettled 0 (Some demo_audio)].

(** The page is playing, the highlight on word 0. *)
Definition demo_playing : State :=
  after book3 [ClickPlayPause; SpeechSettled 0 (Some demo_audio);
               DecodeSettled 0 (Some 1%Q)].

(** One tick later the highlight is on word 1, the last one. *)
Definition demo_last_word : State :=
  after book3 [ClickPlayPause; SpeechSettled 0 (Some demo_audio);
               DecodeSettled 0 (Some 1%Q); IntervalTick 0].

(** Playback paused by a second press. *)
Definition demo_paused : State :=
  after book3 [ClickPlayPause; SpeechSettled 0 (Some demo_audio);
               DecodeSettled 0 (Some 1%Q); ClickPlayPause].

Lemma demo_fetching_reachable : reachable book3 demo_decode demo_fetching.
Proof. apply after_reachable. vm_compute. eauto. Defined.

Lemma demo_decoding_reachable : reachable book3 demo_decode demo_decoding.
Proof. apply after_reachable. vm_compute. eauto. Defined.

Lemma demo_playing_reachable : reachable book3 demo_decode demo_playing.
Proof. apply after_reachable. vm_compute. eauto. Defined.

Lemma demo_last_word_reachable : reachable book3 demo_decode demo_last_word.
Proof. apply after_reachable. vm_compute. eauto. Defined.

Lemma demo_paused_reachable : reachable book3 demo_decode demo_paused.
Proof. apply after_reachable. vm_compute. eauto. Defined.

Lemma single_playback_session_witness :
  reachable book3 demo_decode demo_playing
  ∧ (live_sources demo_playing <= 1)%nat
  ∧ live_sources (playCurrentPage book3 demo_decode demo_playing) = 0%nat.
Proof.
  assert (isGenerating demo_playing = false) as Hg by (vm_compute; reflexivity).
  destruct (single_playback_session book3 demo_decode demo_playing
              demo_playing_reachable) as [Hle Hplay].
  destruct (Hplay Hg) as [Hnone _].
  exact (conj demo_playing_reachable (conj Hle Hnone)).
Defined.

(** ** The word-highlight interval on a two-word page *)

(** The reading of C2 that the code does not meet: once the highlight is
    on the last word of an interval, that interval does not fire. *)
Definition no_tick_on_last_word (book : Book)
    (decode : jsstring → option (list N)) (s : State) : Prop :=
  ∀ t tm, timers s !! t = Some tm →
    highlightedWordIndex s = tm_totalWords tm - 1 →
    step book decode s (IntervalTick t) = None.

(** C2 (as stated).  "Hello world" has two words.  After one tick the
    highlight is on word 1, the last one, and the interval is still
    scheduled: it fires once more. *)
Lemma tick_fires_on_last_word :
  reachable book3 demo_decode demo_last_word
  ∧ countWords (js "Hello world") = 2
  ∧ highlightedWordIndex demo_last_word = 2 - 1
  ∧ ¬ no_tick_on_last_word book3 demo_decode demo_last_word.
Proof.
  split; [exact demo_last_word_reachable|]. split; [done|]. split; [done|].
  intros H.
  specialize (H 0%nat {| tm_totalWords := 2; tm_delay := (1 * 1000 / inject_Z 2)%Q;
                         tm_active := true |} eq_refl eq_refl).
  vm_compute in H. discriminate H.
Qed.

Lemma word_timer_schedule_witness :
  reachable book3 demo_decode demo_decoding
  ∧ tasks demo_decoding !! 0%nat
    = Some (PlayAwaitDecode
              {| cl_currentPage := 0; cl_voice := FEMALE; cl_autoPlay := false;
                 cl_audioCache := ∅ |} demo_audio 2)
  ∧ ∃ s0 t,
      step book3 demo_decode demo_decoding (DecodeSettled 0 (Some 1%Q)) = Some s0
      ∧ timers s0 !! t = Some {| tm_totalWords := 2;
                                 tm_delay := (1 * 1000 / inject_Z 2)%Q;
                                 tm_active := true |}.
Proof.
  assert (tasks demo_decoding !! 0%nat
          = Some (PlayAwaitDecode
                    {| cl_currentPage := 0; cl_voice := FEMALE;
                       cl_autoPlay := false; cl_audioCache := ∅ |}
                    demo_audio 2)) as Hi by (vm_compute; reflexivity).
  destruct (word_timer_schedule book3 demo_decode demo_decoding 0%nat
              _ demo_audio 2 1%Q demo_decoding_reachable Hi)
    as (s0 & t & text & Hstep & _ & _ & _ & _ & Htm & _).
  split; [exact demo_decoding_reachable|]. split; [exact Hi|].
  exists s0, t. split; [exact Hstep|exact Htm].
Defined.

(** ** Auto-play across an empty page *)

Definition autoplay_run : list Event :=
  [ToggleAutoPlay; SpeechSettled 0 (Some demo_audio);
   DecodeSettled 0 (Some 1%Q); SourceEnded 0].

(** Events that need no user: a promise settles, a node ends, an interval
    fires. *)
Definition autonomous (e : Event) : bool :=
  match e with
  | SpeechSettled _ _ | DecodeSettled _ _ | SourceEnded _ | IntervalTick _ => true
  | _ => false
  end.

(** C3 (code).  With auto-play switched on at page 0 of
    ["Hello world"; ""; "Third page here"], one request is sent for
    "Hello world"; when its audio ends the reader moves to page 1, sends
    nothing for the empty page, and stays there: nothing is pending,
    playing or scheduled, so no event can occur until the user acts, and
    no request for "Third page here" is ever sent. *)
Theorem autoplay_stalls_on_empty_page :
  let s := after book3 autoplay_run in
  is_Some (run book3 demo_decode (mount book3 demo_decode) autoplay_run)
  ∧ autoPlay s = true
  ∧ currentPage s = 1
  ∧ map sc_text (calls s) = [js "Hello world"]
  ∧ isPlaying s = false
  ∧ isGenerating s = false
  ∧ tasks s = []
  ∧ live_sources s = 0%nat
  ∧ live_intervals s = 0%nat
  ∧ ∀ e, autonomous e = true → step book3 demo_decode s e = None.
Proof.
  split_and!; try (vm_compute; eauto; fail).
  intros [| | | | |i resp|i res|n|t] He; try discriminate He.
  - reflexivity.
  - reflexivity.
  - by destruct n as [|[|?]].
  - by destruct t as [|[|?]].
Qed.

(** ** Auto-advance with a stale page number *)

Definition overrun : list Event :=
  [ToggleAutoPlay; ClickNext; SpeechSettled 1 (Some demo_audio);
   DecodeSettled 1 (Some 1%Q); SourceEnded 0].

(** C9 (code).  In a book of two pages: auto-play is switched on at page
    0, and while the request for page 0 is pending the user moves to page
    1.  The audio of page 0 is then played; its [onended] handler tests the
    page number of the render that started it (0 < 1) and increments the
    current one, which becomes 2, past the last page. *)
Theorem auto_advance_leaves_range :
  let s := after book2 overrun in
  is_Some (run book2 demo_decode (mount book2 demo_decode) overrun)
  ∧ pageCount book2 = 2
  ∧ currentPage s = 2
  ∧ at_index (pageTexts book2) (currentPage s) = None.
Proof. split_and!; vm_compute; eauto. Qed.

(** The two buttons, for their part, stay in range. *)
Lemma goTo_in_range book s :
  0 <= currentPage s < pageCount book →
  0 <= currentPage (goToNextPage book s) < pageCount book
  ∧ 0 <= currentPage (goToPrevPage s) < pageCount book.
Proof.
  intros H. unfold goToNextPage, goToPrevPage.
  split; case_bool_decide; simpl; lia.
Qed.

(** ** The theorems at concrete states *)





Lemma stop_detaches_completion_witness :
  reachable book3 demo_decode demo_playing
  ∧ audioSourceRef demo_playing = Some 0%nat
  ∧ ∀ s3, step book3 demo_decode (stopPlayback demo_playing) (SourceEnded 0)
          = Some s3 →
      currentPage s3 = 0 ∧ isPlaying s3 = false.
Proof.
  assert (audioSourceRef demo_playing = Some 0%nat) as Hsrc
    by (vm_compute; reflexivity).
  split; [exact demo_playing_reachable|]. split; [exact Hsrc|].
  intros s3 Hstep.
  destruct (stop_detaches_completion book3 demo_decode) as (_ & _ & H).
  pose proof (H demo_playing 0%nat (stopPlayback demo_playing) []
                (stopPlayback demo_playing) s3
                demo_playing_reachable Hsrc eq_refl eq_refl Hstep) as ->.
  split; vm_compute; reflexivity.
Defined.

(** Page 1 of [book3], the empty one. *)
Definition demo_empty_page : State := after book3 [ClickNext].

Lemma blank_page_play_is_noop_witness :
  isGenerating demo_empty_page = false
  ∧ at_index (pageTexts book3) (currentPage demo_empty_page) = Some (js "")
  ∧ trim (js "") = []
  ∧ handlePlayPause book3 demo_decode demo_empty_page
    = stopPlayback demo_empty_page
  ∧ calls (handlePlayPause book3 demo_decode demo_empty_page)
    = calls demo_empty_page.
Proof.
  assert (isGenerating demo_empty_page = false) as Hg
    by (vm_compute; reflexivity).
  assert (at_index (pageTexts book3) (currentPage demo_empty_page)
          = Some (js "")) as Ht by (vm_compute; reflexivity).
  assert (trim (js "") = []) as Hb by (vm_compute; reflexivity).
  destruct (blank_page_play_is_noop book3 demo_decode) as (_ & H & _).
  destruct (H demo_empty_page (js "") Hg Ht Hb) as (Hs & Hc & _).
  exact (conj Hg (conj Ht (conj Hb (conj Hs Hc)))).
Defined.

Lemma second_press_is_rejected_witness :
  reachable book3 demo_decode demo_fetching
  ∧ isGenerating demo_fetching = true
  ∧ handlePlayPause book3 demo_decode demo_fetching = demo_fetching
  ∧ step book3 demo_decode demo_fetching ClickPlayPause = Some demo_fetching.
Proof.
  assert (isGenerating demo_fetching = true) as Hg by (vm_compute; reflexivity).
  destruct (second_press_is_rejected book3 demo_decode) as [_ H].
  destruct (H demo_fetching demo_fetching_reachable Hg) as (Hh & Hs & _).
  exact (conj demo_fetching_reachable (conj Hg (conj Hh Hs))).
Defined.

Lemma cache_payloads_nonempty_witness :
  reachable book3 demo_decode demo_playing
  ∧ audioCache demo_playing !! 0 = Some demo_audio
  ∧ demo_audio ≠ [].
Proof.
  assert (audioCache demo_playing !! 0 = Some demo_audio) as Hc
    by (vm_compute; reflexivity).
  destruct (cache_payloads_nonempty book3 demo_decode) as [H _].
  exact (conj demo_playing_reachable
           (conj Hc (H demo_playing 0 demo_audio demo_playing_reachable Hc))).
Defined.

(** * The rest of the reader *)

(** ** renderPageContent *)

(** [s.split(sep)] for a separator of one code unit; [cur] is the piece
    being read, reversed. *)
Fixpoint splitOn (sep : N) (cur : jsstring) (s : jsstring) : list jsstring :=
  match s with
  | [] => [rev cur]
  | c :: r =>
      if (c =? sep)%N then rev cur :: splitOn sep [] r
      else splitOn sep (c :: cur) r
  end.

(** [s.split(/\s+/)]: the pieces between the maximal runs of white space,
    with an empty piece where the string starts or ends with such a run.
    [skipping] says that a run is being skipped. *)
Fixpoint splitSpace (cur : jsstring) (skipping : bool) (s : jsstring)
    : list jsstring :=
  match s with
  | [] => [rev cur]
  | c :: r =>
      if isWhiteSpace c
      then if skipping then splitSpace [] true r
           else rev cur :: splitSpace [] true r
      else splitSpace (c :: cur) false r
  end.

(** One [<span>]: the word, its running index, and whether it carries the
    highlight class. *)
Record Span := {
  sp_word : jsstring;
  sp_index : Z;
  sp_highlighted : bool
}.

(** What renderPageContent returns: the notice "This page is empty.", or
    one list of spans per [<p>]. *)
Inductive Rendered :=
| EmptyNotice
| Paragraphs (ps : list (list Span)).

(** The inner [map] over the words of a paragraph; [wordCounter] is
    threaded through. *)
Fixpoint renderWords (highlightedWordIndex : Z) (wordCounter : Z)
    (ws : list jsstring) : list Span * Z :=
  match ws with
  | [] => ([], wordCounter)
  | word :: r =>
      let currentWordIndex := wordCounter in
      let '(spans, n) := renderWords highlightedWordIndex (wordCounter + 1) r in
      ({| sp_word := word; sp_index := currentWordIndex;
          sp_highlighted :=
            bool_decide (currentWordIndex = highlightedWordIndex) |} :: spans,
       n)
  end.

(** The outer [map] over the paragraphs. *)
Fixpoint renderParagraphs (highlightedWordIndex : Z) (wordCounter : Z)
    (paragraphs : list jsstring) : list (list Span) :=
  match paragraphs with
  | [] => []
  | paragraph :: r =>
      let '(spans, n) :=
        renderWords highlightedWordIndex wordCounter
          (List.filter truthy (splitSpace [] false paragraph)) in
      spans :: renderParagraphs highlightedWordIndex n r
  end.

Definition renderPageContent (book : Book) (s : State) : Rendered :=
  let pageText := default [] (at_index (pageTexts book) (currentPage s)) in
  if negb (truthy (trim pageText)) then EmptyNotice
  else
    let paragraphs :=
      List.filter (λ p, truthy (trim p)) (splitOn 10 [] pageText) in
    Paragraphs (renderParagraphs (highlightedWordIndex s) 0 paragraphs).

(** All spans of a rendering, in document order. *)
Definition spans (r : Rendered) : list Span :=
  match r with
  | EmptyNotice => []
  | Paragraphs ps => concat ps
  end.

Lemma splitSpace_words (cur : jsstring) (skipping : bool) (s : jsstring) :
  (skipping = true → cur = []) →
  List.filter truthy (splitSpace cur skipping s) = matchNonSpace cur s.
Proof.
  revert cur skipping. induction s as [|c r IH]; intros cur skipping Hsk; simpl.
  - destruct cur as [|x cur]; [done|].
    destruct (rev (x :: cur)) eqn:E; [|done].
    apply (f_equal (@rev N)) in E. by rewrite rev_involutive in E.
  - destruct (isWhiteSpace c).
    + destruct skipping.
      * rewrite (Hsk eq_refl). by apply IH.
      * simpl. rewrite (IH [] true) by done.
        destruct cur as [|x cur]; [done|].
        destruct (rev (x :: cur)) eqn:E; [|done].
        apply (f_equal (@rev N)) in E. by rewrite rev_involutive in E.
    + by apply IH.
Qed.

Lemma matchNonSpace_app_ws (cur a b : jsstring) c :
  isWhiteSpace c = true →
  matchNonSpace cur (a ++ c :: b) = matchNonSpace cur a ++ matchNonSpace [] b.
Proof.
  intros Hc. revert cur. induction a as [|x a IH]; intros cur; simpl.
  - rewrite Hc. by destruct cur.
  - destruct (isWhiteSpace x); [|by apply IH].
    destruct cur; by rewrite IH.
Qed.

Lemma splitOn_words (cur s : jsstring) :
  concat (map (matchNonSpace []) (splitOn 10 cur s))
  = matchNonSpace [] (rev cur ++ s).
Proof.
  revert cur. induction s as [|c r IH]; intros cur; simpl.
  - by rewrite !app_nil_r.
  - destruct (c =? 10)%N eqn:Hc.
    + apply N.eqb_eq in Hc as ->. simpl. rewrite IH. simpl.
      by rewrite matchNonSpace_app_ws.
    + rewrite IH. simpl. by rewrite <- app_assoc.
Qed.

Lemma blank_paragraphs_have_no_words (l : list jsstring) :
  concat (map (matchNonSpace []) (List.filter (λ p, truthy (trim p)) l))
  = concat (map (matchNonSpace []) l).
Proof.
  induction l as [|p l IH]; simpl; [done|].
  destruct (truthy (trim p)) eqn:Hp; simpl; rewrite IH; [done|].
  destruct (trim p) eqn:Ht; [|done].
  by rewrite (matchNonSpace_blank p (proj1 (trim_nil_iff p) Ht)).
Qed.

Lemma map_seq_offset (k : Z) (a n : nat) :
  map (λ i, k + Z.of_nat i) (seq a n)
  = map (λ i, k + Z.of_nat a + Z.of_nat i) (seq 0 n).
Proof.
  revert k a. induction n as [|n IH]; intros k a; [done|].
  cbn [seq map]. f_equal; [lia|].
  rewrite (IH k (S a)), (IH (k + Z.of_nat a) 1%nat).
  apply map_ext. intros i. lia.
Qed.

Lemma renderWords_spec hl (ws : list jsstring) : ∀ k,
  map sp_word (renderWords hl k ws).1 = ws
  ∧ map sp_index (renderWords hl k ws).1
    = map (λ i, k + Z.of_nat i) (seq 0 (length ws))
  ∧ (renderWords hl k ws).2 = k + Z.of_nat (length ws)
  ∧ Forall (λ sp, sp_highlighted sp = bool_decide (sp_index sp = hl))
      (renderWords hl k ws).1.
Proof.
  induction ws as [|w r IH]; intros k.
  - simpl. split_and!; [done|done|lia|done].
  - cbn [renderWords length seq map].
    destruct (IH (k + 1)) as (Hw & Hi & Hn & Hh).
    destruct (renderWords hl (k + 1) r) as [sps n]. cbn [fst snd map] in *.
    split_and!.
    + by rewrite Hw.
    + rewrite Hi, (map_seq_offset k 1). f_equal. simpl. lia.
    + lia.
    + by constructor.
Qed.

Lemma renderParagraphs_spec hl (ps : list jsstring) : ∀ k,
  let words := concat (map (matchNonSpace []) ps) in
  let out := concat (renderParagraphs hl k ps) in
  map sp_word out = words
  ∧ map sp_index out = map (λ i, k + Z.of_nat i) (seq 0 (length words))
  ∧ Forall (λ sp, sp_highlighted sp = bool_decide (sp_index sp = hl)) out.
Proof.
  induction ps as [|p r IH]; intros k; [done|].
  cbn [renderParagraphs map concat].
  rewrite (splitSpace_words [] false p) by done.
  destruct (renderWords_spec hl (matchNonSpace [] p) k) as (Hw & Hi & Hn & Hh).
  destruct (renderWords hl k (matchNonSpace [] p)) as [sps n].
  cbn [fst snd concat] in *.
  destruct (IH n) as (Hw' & Hi' & Hh'). cbv zeta. split_and!.
  - by rewrite map_app, Hw, Hw'.
  - rewrite map_app, Hi, Hi', Hn, length_app, seq_app, map_app. f_equal.
    rewrite (map_seq_offset k (0 + length (matchNonSpace [] p))).
    apply map_ext. intros i. lia.
  - by apply Forall_app.
Qed.

Lemma renderPageContent_words (book : Book) (s : State) :
  map sp_word (spans (renderPageContent book s))
  = matchNonSpace [] (default [] (at_index (pageTexts book) (currentPage s))).
Proof.
  set (pageText := default [] (at_index (pageTexts book) (currentPage s))).
  unfold renderPageContent. fold pageText.
  destruct (truthy (trim pageText)) eqn:Ht; simpl.
  - destruct (renderParagraphs_spec (highlightedWordIndex s)
                (List.filter (λ p, truthy (trim p)) (splitOn 10 [] pageText))
                0) as (Hw & _).
    rewrite Hw, blank_paragraphs_have_no_words. apply splitOn_words.
  - destruct (trim pageText) eqn:E; [|done].
    by rewrite (matchNonSpace_blank _ (proj1 (trim_nil_iff _) E)).
Qed.

(** X1.  The words renderPageContent shows, read across its paragraphs,
    are exactly the matches of [/\S+/g] that playCurrentPage counts: the
    interval's word count is the number of spans on the page. *)
Theorem rendered_words_are_counted_words (book : Book) (s : State) :
  let pageText := default [] (at_index (pageTexts book) (currentPage s)) in
  map sp_word (spans (renderPageContent book s)) = matchNonSpace [] pageText
  ∧ Z.of_nat (length (spans (renderPageContent book s))) = countWords pageText.
Proof.
  intros pageText. pose proof (renderPageContent_words book s) as H.
  fold pageText in H.
  split; [exact H|]. unfold countWords. by rewrite <- H, length_map.
Qed.

(** X2.  The notice "This page is empty." is shown exactly when the page
    has no word (its text is missing, empty or white space only); any other
    page shows at least one span. *)
Theorem empty_notice_iff_no_word (book : Book) (s : State) :
  let pageText := default [] (at_index (pageTexts book) (currentPage s)) in
  (renderPageContent book s = EmptyNotice ↔ countWords pageText = 0)
  ∧ (renderPageContent book s ≠ EmptyNotice →
     spans (renderPageContent book s) ≠ []).
Proof.
  intros pageText.
  assert (renderPageContent book s = EmptyNotice ↔ countWords pageText = 0)
    as Hiff.
  { rewrite countWords_zero_iff. unfold renderPageContent. fold pageText.
    destruct (trim pageText) eqn:E; simpl; split; done. }
  split; [exact Hiff|]. intros Hne Hnil. apply Hne, Hiff.
  pose proof (renderPageContent_words book s) as Hw. fold pageText in Hw.
  unfold countWords. by rewrite <- Hw, Hnil.
Qed.

Lemma highlighted_count hl (out : list Span) : ∀ a,
  map sp_index out = map (λ i, a + Z.of_nat i) (seq 0 (length out)) →
  Forall (λ sp, sp_highlighted sp = bool_decide (sp_index sp = hl)) out →
  length (List.filter sp_highlighted out)
  = if bool_decide (a <= hl < a + Z.of_nat (length out)) then 1%nat else 0%nat.
Proof.
  induction out as [|sp r IH]; intros a Hi Hh.
  - simpl. by rewrite bool_decide_eq_false_2 by lia.
  - cbn [length seq map] in Hi. injection Hi as Ha Hi.
    rewrite (map_seq_offset a 1) in Hi.
    apply Forall_cons in Hh as [Hsp Hh].
    specialize (IH (a + Z.of_nat 1) Hi Hh).
    cbn [List.filter]. rewrite Hsp, Ha.
    destruct (bool_decide (a + Z.of_nat 0 = hl)) eqn:E; cbn [length]; rewrite IH;
      [apply bool_decide_eq_true in E|apply bool_decide_eq_false in E];
      repeat case_bool_decide; simpl in *; lia.
Qed.

(** X3.  The spans are numbered 0, 1, 2, ... across the paragraphs, and a
    span is highlighted exactly when its number is the highlighted word
    index: one span is highlighted when the index is below the word count,
    none when it is -1 or past the last word. *)
Theorem span_indices_are_continuous (book : Book) (s : State) :
  let out := spans (renderPageContent book s) in
  map sp_index out = map Z.of_nat (seq 0 (length out))
  ∧ (∀ sp, sp ∈ out →
       sp_highlighted sp = bool_decide (sp_index sp = highlightedWordIndex s))
  ∧ length (List.filter sp_highlighted out)
    = if bool_decide (0 <= highlightedWordIndex s < Z.of_nat (length out))
      then 1%nat else 0%nat.
Proof.
  intros out.
  assert (map sp_index out = map (λ i, 0 + Z.of_nat i) (seq 0 (length out))
          ∧ Forall (λ sp, sp_highlighted sp
                          = bool_decide (sp_index sp = highlightedWordIndex s))
              out) as [Hi Hh].
  { subst out. unfold renderPageContent.
    destruct (negb _); [done|]. cbn [spans].
    match goal with |- context [renderParagraphs ?hl 0 ?ps] =>
      destruct (renderParagraphs_spec hl ps 0) as (Hw & Hi & Hh) end.
    split; [|exact Hh]. rewrite Hi. do 2 f_equal.
    by rewrite <- Hw, length_map. }
  split_and!.
  - rewrite Hi. by apply map_ext.
  - intros sp Hsp. by apply (proj1 (Forall_forall _ _) Hh).
  - by rewrite (highlighted_count _ out 0 Hi Hh).
Qed.

(** ** The font-size buttons *)

(** [setFontSize(s => Math.max(s - 1, 12))] *)
Definition fontSizeDecrease (s : Z) : Z := Z.max (s - 1) 12.

(** [setFontSize(s => Math.min(s + 1, 36))] *)
Definition fontSizeIncrease (s : Z) : Z := Z.min (s + 1) 36.

(** [useState(18)] *)
Definition initialFontSize : Z := 18.

Inductive FontClick := FontSmaller | FontLarger.

Definition fontClick (s : Z) (c : FontClick) : Z :=
  match c with
  | FontSmaller => fontSizeDecrease s
  | FontLarger => fontSizeIncrease s
  end.

Definition fontSizeAfter (cs : list FontClick) : Z :=
  fold_left fontClick cs initialFontSize.

Lemma fontClick_in_range s c : 12 <= s <= 36 → 12 <= fontClick s c <= 36.
Proof. destruct c; unfold fontClick, fontSizeDecrease, fontSizeIncrease; lia. Qed.

Lemma fold_fontClick_in_range cs : ∀ s,
  12 <= s <= 36 → 12 <= fold_left fontClick cs s <= 36.
Proof.
  induction cs as [|c cs IH]; intros s Hs; [done|].
  simpl. by apply IH, fontClick_in_range.
Qed.

(** X4.  Whatever the sequence of clicks on the two font buttons, the font
    size stays between 12 and 36; [k] clicks on the larger button from the
    start give [18 + k] capped at 36, [k] clicks on the smaller one
    [18 - k] floored at 12. *)
Theorem fontSize_stays_in_range :
  (∀ cs, 12 <= fontSizeAfter cs <= 36)
  ∧ (∀ k : nat, fontSizeAfter (replicate k FontLarger)
                = Z.min (18 + Z.of_nat k) 36)
  ∧ (∀ k : nat, fontSizeAfter (replicate k FontSmaller)
                = Z.max (18 - Z.of_nat k) 12).
Proof.
  split_and!.
  - intros cs. apply fold_fontClick_in_range. unfold initialFontSize. lia.
  - intros k. unfold fontSizeAfter, initialFontSize.
    assert (∀ s, 12 <= s <= 36 →
              fold_left fontClick (replicate k FontLarger) s
              = Z.min (s + Z.of_nat k) 36) as H.
    { induction k as [|k IH]; intros s Hs; [simpl; lia|].
      cbn [replicate fold_left fontClick]. rewrite IH.
      - unfold fontSizeIncrease. lia.
      - unfold fontSizeIncrease. lia. }
    apply H. lia.
  - intros k. unfold fontSizeAfter, initialFontSize.
    assert (∀ s, 12 <= s <= 36 →
              fold_left fontClick (replicate k FontSmaller) s
              = Z.max (s - Z.of_nat k) 12) as H.
    { induction k as [|k IH]; intros s Hs; [simpl; lia|].
      cbn [replicate fold_left fontClick]. rewrite IH.
      - unfold fontSizeDecrease. lia.
      - unfold fontSizeDecrease. lia. }
    apply H. lia.
Qed.

(** ** generateSpeech as a whole *)

Inductive SpeechResult :=
| Returned (audioData : jsstring)
| Threw.

(** The result of [generateSpeech(text, voice)] and the requests it sent,
    when the service answers [resp] (see [generateSpeech_finish]). *)
Definition generateSpeech (text : jsstring) (v : VoiceOption)
    (resp : option jsstring) : SpeechResult * list (jsstring * jsstring) :=
  match generateSpeech_start text v with
  | ReturnEmpty => (Returned [], [])
  | CallService t vn =>
      (match generateSpeech_finish resp with
       | Some audioData => Returned audioData
       | None => Threw
       end, [(t, vn)])
  end.

(** X5.  [generateSpeech] returns the empty string exactly when the text
    is empty or white space only, and then without a request.  For any
    other text it sends one request, with the whole text and the name of
    the chosen voice ('Puck' for male, 'Kore' for female), and either
    returns the non-empty payload of the answer or throws: an answer
    without data, or with empty data, makes it throw. *)
Theorem generateSpeech_empty_iff_blank (text : jsstring) (v : VoiceOption)
    (resp : option jsstring) :
  ((generateSpeech text v resp).1 = Returned [] ↔ trim text = [])
  ∧ (trim text = [] → (generateSpeech text v resp).2 = [])
  ∧ (trim text ≠ [] →
     (generateSpeech text v resp).2 = [(text, voiceName v)]
     ∧ (generateSpeech text v resp).1
       = match resp with
         | Some (c :: a) => Returned (c :: a)
         | _ => Threw
         end)
  ∧ voiceName MALE ≠ voiceName FEMALE.
Proof.
  unfold generateSpeech, generateSpeech_start.
  destruct (trim text) as [|c t] eqn:Ht; simpl.
  - split_and!; try done.
  - split_and!; try done.
    + split; [|done]. by destruct resp as [[|? ?]|].
    + intros _. split; [done|]. by destruct resp as [[|? ?]|].
Qed.

(** ** utils/pdf.ts: waiting for pdf.js *)

Inductive PollStatus := Polling | LibResolved | TimedOut.

Record Poll := {
  elapsedTime : Z;
  pollStatus : PollStatus
}.

(** One run of the interval callback of [ensurePdfJs]; [available] tells
    whether [window.pdfjsLib] is set at that moment.  Once the interval is
    cleared the callback no longer runs. *)
Definition pollTick (p : Poll) (available : bool) : Poll :=
  match pollStatus p with
  | Polling =>
      if available
      then {| elapsedTime := elapsedTime p; pollStatus := LibResolved |}
      else
        let elapsed := elapsedTime p + 100 in
        if bool_decide (elapsed >= 5000)
        then {| elapsedTime := elapsed; pollStatus := TimedOut |}
        else {| elapsedTime := elapsed; pollStatus := Polling |}
  | _ => p
  end.

(** [ensurePdfJs()] after the interval has fired once per element of
    [obs]. *)
Definition ensurePdfJs (obs : list bool) : Poll :=
  fold_left pollTick obs {| elapsedTime := 0; pollStatus := Polling |}.

Lemma pollTick_settled p obs :
  pollStatus p ≠ Polling → fold_left pollTick obs p = p.
Proof.
  intros Hp. induction obs as [|b obs IH]; [done|].
  simpl. unfold pollTick at 2. by destruct (pollStatus p).
Qed.

Lemma poll_from (obs : list bool) : ∀ (m : nat),
  (m < 50)%nat →
  let p := fold_left pollTick obs
             {| elapsedTime := 100 * Z.of_nat m; pollStatus := Polling |} in
  (pollStatus p = LibResolved ↔
     ∃ k, (m + k < 50)%nat ∧ obs !! k = Some true
          ∧ ∀ j, (j < k)%nat → obs !! j = Some false)
  ∧ (pollStatus p = TimedOut ↔
       (50 - m <= length obs)%nat
       ∧ ∀ j, (m + j < 50)%nat → obs !! j = Some false)
  ∧ elapsedTime p <= 5000.
Proof.
  induction obs as [|b obs IH]; intros m Hm p.
  - subst p. cbn [fold_left pollStatus elapsedTime]. split_and!; [|split|lia].
    + split; [done|]. by intros (k & _ & ? & _).
    + done.
    + intros [? _]. simpl in *. lia.
  - subst p. cbn [fold_left]. destruct b.
    + change (pollTick {| elapsedTime := 100 * Z.of_nat m;
                          pollStatus := Polling |} true)
        with {| elapsedTime := 100 * Z.of_nat m; pollStatus := LibResolved |}.
      rewrite pollTick_settled by done. cbn [pollStatus elapsedTime].
      split_and!; [split|split|lia].
      * intros _. exists 0%nat. split_and!; [lia|done|]. intros j ?. lia.
      * done.
      * done.
      * intros [_ H]. specialize (H 0%nat). simpl in H.
        assert (Some true = Some false) by (apply H; lia). done.
    + change (pollTick {| elapsedTime := 100 * Z.of_nat m;
                          pollStatus := Polling |} false)
        with (if bool_decide (100 * Z.of_nat m + 100 >= 5000)
              then {| elapsedTime := 100 * Z.of_nat m + 100;
                      pollStatus := TimedOut |}
              else {| elapsedTime := 100 * Z.of_nat m + 100;
                      pollStatus := Polling |}).
      case_bool_decide as He.
      * assert (m = 49%nat) as -> by lia.
        rewrite pollTick_settled by done. cbn [pollStatus elapsedTime].
        split_and!; [split|split|lia].
        -- done.
        -- intros (k & Hk & Hobs & Hlt). destruct k as [|k]; [done|lia].
        -- intros _. split; [simpl; lia|]. intros j Hj.
           by assert (j = 0%nat) as -> by lia.
        -- done.
      * replace (100 * Z.of_nat m + 100) with (100 * Z.of_nat (S m)) by lia.
        destruct (IH (S m)) as (Hres & Hout & Hle); [lia|].
        split_and!; [| |exact Hle].
        -- rewrite Hres. split.
           ++ intros (k & Hk & Hobs & Hlt). exists (S k).
              split_and!; [lia|done|]. intros [|j] ?; [done|].
              apply Hlt. lia.
           ++ intros (k & Hk & Hobs & Hlt). destruct k as [|k]; [done|].
              exists k. split_and!; [lia|done|]. intros j ?.
              apply (Hlt (S j)). lia.
        -- rewrite Hout. split.
           ++ intros [Hlen Hall]. split; [simpl; lia|].
              intros [|j] ?; [done|]. apply Hall. lia.
           ++ intros [Hlen Hall]. split; [simpl in Hlen; lia|].
              intros j ?. apply (Hall (S j)). lia.
Qed.

(** X6.  [ensurePdfJs] polls at most 50 times.  It resolves exactly when
    the library is there at one of the first 50 checks, at the first such
    check; it rejects exactly when the first 50 checks all miss, that is
    after 5000 ms of polling; and the elapsed time it counts never exceeds
    5000. *)
Theorem ensurePdfJs_bounded_polling (obs : list bool) :
  (pollStatus (ensurePdfJs obs) = LibResolved ↔
     ∃ k, (k < 50)%nat ∧ obs !! k = Some true
          ∧ ∀ j, (j < k)%nat → obs !! j = Some false)
  ∧ (pollStatus (ensurePdfJs obs) = TimedOut ↔
       (50 <= length obs)%nat ∧ ∀ j, (j < 50)%nat → obs !! j = Some false)
  ∧ elapsedTime (ensurePdfJs obs) <= 5000
  ∧ (∀ more, pollStatus (ensurePdfJs obs) ≠ Polling →
       ensurePdfJs (obs ++ more) = ensurePdfJs obs).
Proof.
  destruct (poll_from obs 0%nat) as (Hres & Hout & Hle); [lia|].
  change (fold_left pollTick obs
            {| elapsedTime := 100 * Z.of_nat 0; pollStatus := Polling |})
    with (ensurePdfJs obs) in *.
  split_and!.
  - exact Hres.
  - rewrite Hout. by rewrite Nat.sub_0_r.
  - exact Hle.
  - intros more Hs. unfold ensurePdfJs in *. rewrite fold_left_app.
    by apply pollTick_settled.
Qed.

(** ** More invariants of the reachable states *)

Section Requests.

Variable book : Book.
Variable decode : jsstring -> option (list N).

(** Page [p] exists and has at least one code unit that is not white
    space. *)
Definition speakable (p : Z) : Prop :=
  ∃ text, at_index (pageTexts book) p = Some text ∧ trim text ≠ [].

(** A request carries the whole text of a speakable page and one of the
    two voice names. *)
Definition call_ok (c : SynthCall) : Prop :=
  ∃ text, at_index (pageTexts book) (sc_page c) = Some text
          ∧ trim text ≠ []
          ∧ sc_text c = text
          ∧ (sc_voiceName c = js "Puck" ∨ sc_voiceName c = js "Kore").

Definition task_page (t : Task) : Z :=
  match t with
  | PlayAwaitSpeech c | PlayAwaitDecode c _ _ => cl_currentPage c
  | PreloadAwaitSpeech p => p
  end.

Definition preloading (p : Z) (ts : list Task) : Prop :=
  ∃ i, ts !! i = Some (PreloadAwaitSpeech p).

Record Inv2 (s : State) : Prop := {
  inv2_mounted : isInitialMountRef s = false;
  inv2_page : 0 <= currentPage s;
  inv2_guard : ∀ p, preloadingPageRef s = Some p → preloading p (tasks s);
  inv2_calls : Forall call_ok (calls s);
  inv2_tasks : ∀ i t, tasks s !! i = Some t → speakable (task_page t);
  inv2_cache : ∀ p a, audioCache s !! p = Some a → speakable p
}.

Lemma voiceName_cases v : voiceName v = js "Puck" ∨ voiceName v = js "Kore".
Proof. destruct v; [by left|by right]. Qed.

Lemma preloading_app p ts l : preloading p ts → preloading p (ts ++ l).
Proof. intros [i Hi]. exists i. by apply lookup_app_l_Some. Qed.

Lemma preloading_delete p ts i t :
  ts !! i = Some t → t ≠ PreloadAwaitSpeech p →
  preloading p ts → preloading p (delete i ts).
Proof.
  intros Hi Ht [j Hj]. unfold preloading.
  destruct (decide (j < i)%nat) as [Hlt|Hge].
  - exists j. by rewrite list_lookup_delete_lt.
  - assert (j ≠ i) as Hne by (intros ->; congruence).
    exists (pred j). rewrite list_lookup_delete_ge by lia.
    by replace (S (pred j)) with j by lia.
Qed.

Lemma tasks_delete_ok (ts : list Task) i :
  (∀ j t, ts !! j = Some t → speakable (task_page t)) →
  ∀ j t, delete i ts !! j = Some t → speakable (task_page t).
Proof.
  intros H j t Hj. rewrite list_lookup_delete in Hj.
  case_decide; by eapply H.
Qed.

Lemma tasks_app_ok (ts : list Task) t0 :
  (∀ j t, ts !! j = Some t → speakable (task_page t)) →
  speakable (task_page t0) →
  ∀ j t, (ts ++ [t0]) !! j = Some t → speakable (task_page t).
Proof.
  intros H H0 j t Hj. apply lookup_app_Some in Hj as [Hj|[_ Hj]]; [by eapply H|].
  destruct (j - length ts)%nat as [|[|?]]; by simplify_eq/=.
Qed.

Ltac inv2_frame :=
  let H := fresh in
  intros H; destruct H; constructor; simpl in *; assumption.

Lemma Inv2_stopPlayback s : Inv2 s → Inv2 (stopPlayback s).
Proof. inv2_frame. Qed.

Lemma Inv2_set_isGenerating b s : Inv2 s → Inv2 (set_isGenerating b s).
Proof. inv2_frame. Qed.

Lemma Inv2_set_highlightedWordIndex x s :
  Inv2 s → Inv2 (set_highlightedWordIndex x s).
Proof. inv2_frame. Qed.

Lemma Inv2_set_alerts x s : Inv2 s → Inv2 (set_alerts x s).
Proof. inv2_frame. Qed.

Lemma Inv2_set_autoPlay x s : Inv2 s → Inv2 (set_autoPlay x s).
Proof. inv2_frame. Qed.

Lemma Inv2_set_voice x s : Inv2 s → Inv2 (set_voice x s).
Proof. inv2_frame. Qed.

Lemma Inv2_set_currentPage x s : 0 <= x → Inv2 s → Inv2 (set_currentPage x s).
Proof. intros Hx []. constructor; simpl in *; assumption. Qed.

Lemma Inv2_preloadPage c p s : Inv2 s → Inv2 (preloadPage book c p s).
Proof.
  intros H. unfold preloadPage.
  destruct (_ || _); [done|].
  destruct (at_index (pageTexts book) p) as [pageText|] eqn:Hp; [|done].
  destruct (truthy (trim pageText)) eqn:Ht; simpl; [|done].
  unfold generateSpeech_start. rewrite Ht. simpl.
  assert (speakable p) as Hsp.
  { exists pageText. split; [done|]. by apply truthy_true_iff. }
  destruct H as [Hm Hpg Hg Hc Hts Hca]. constructor; simpl; try done.
  - intros q Hq. simplify_eq. exists (length (tasks s)).
    by rewrite lookup_app_r, Nat.sub_diag.
  - apply Forall_app. split; [done|]. constructor; [|done].
    exists pageText. split_and!; try done; [by apply truthy_true_iff|].
    apply voiceName_cases.
  - by apply tasks_app_ok.
Qed.

Lemma Inv2_play_audio c ad s :
  Inv2 s → Inv2 (play_audio book decode c ad s).
Proof.
  intros H. unfold play_audio, catch_play, finally_play.
  destruct ad as [a|]; [|by apply Inv2_set_isGenerating].
  destruct (_ && _); [|by apply Inv2_set_isGenerating].
  destruct (at_index _ _) as [pageText|] eqn:Hp;
    [|by apply Inv2_set_isGenerating, Inv2_set_alerts].
  case_bool_decide as Hw; [by do 2 apply Inv2_set_isGenerating|].
  destruct (decode a); [|by apply Inv2_set_isGenerating, Inv2_set_alerts].
  destruct H as [Hm Hpg Hg Hc Hts Hca]. constructor; simpl; try done.
  - intros q Hq. by apply preloading_app, Hg.
  - apply tasks_app_ok; [done|]. exists pageText. split; [done|].
    intros Hb. by apply Hw, countWords_zero_iff.
Qed.

Lemma Inv2_playCurrentPage s : Inv2 s → Inv2 (playCurrentPage book decode s).
Proof.
  intros H. unfold playCurrentPage.
  destruct (isGenerating s); [done|]. cbv zeta.
  assert (Inv2 (set_highlightedWordIndex (-1)
                  (set_isGenerating true (stopPlayback s)))) as H1.
  { by apply Inv2_set_highlightedWordIndex, Inv2_set_isGenerating,
      Inv2_stopPlayback. }
  destruct (at_index _ _) as [text|] eqn:Hp; [|by apply Inv2_play_audio].
  destruct (negb _ && truthy (trim text)) eqn:Hmiss;
    [|by apply Inv2_play_audio].
  apply andb_true_iff in Hmiss as [_ Ht].
  unfold generateSpeech_start. rewrite Ht. cbn [negb].
  destruct H1 as [Hm Hpg Hg Hc Hts Hca]. constructor; simpl in *; try done.
  - intros q Hq. by apply preloading_app, Hg.
  - apply Forall_app. split; [done|]. constructor; [|done].
    exists text. split_and!; try done; [by apply truthy_true_iff|].
    apply voiceName_cases.
  - apply tasks_app_ok; [done|]. exists text. split; [done|].
    by apply truthy_true_iff.
Qed.

Lemma Inv2_cache_insert m p a s :
  m = audioCache s → speakable p → Inv2 s →
  Inv2 (set_audioCache (<[p := a]> m) s).
Proof.
  intros -> Hp []. constructor; simpl in *; try assumption.
  intros q b. rewrite lookup_insert. case_decide; [|by eauto].
  intros _. by subst.
Qed.

(** A playCurrentPage task has been taken off the list. *)
Lemma Inv2_play_settled s i t :
  Inv2 s → tasks s !! i = Some t → is_play t = true →
  Inv2 (set_tasks (delete i (tasks s)) s).
Proof.
  intros [Hm Hpg Hg Hc Hts Hca] Hi Hplay. constructor; simpl; try done.
  - intros p Hp. apply (preloading_delete p _ i t Hi); [|by apply Hg].
    intros ->. done.
  - by apply tasks_delete_ok.
Qed.

Lemma Inv2_resume_preload s i p resp :
  Inv2 s → tasks s !! i = Some (PreloadAwaitSpeech p) →
  Inv2 (resume_preload p resp (set_tasks (delete i (tasks s)) s)).
Proof.
  intros [Hm Hpg Hg Hc Hts Hca] Hi.
  pose proof (Hts _ _ Hi) as Hsp. simpl in Hsp.
  unfold resume_preload.
  set (s1 := match generateSpeech_finish resp with
             | Some audioData =>
                 if truthy audioData
                 then set_audioCache
                        (<[p := audioData]>
                           (audioCache (set_tasks (delete i (tasks s)) s)))
                        (set_tasks (delete i (tasks s)) s)
                 else set_tasks (delete i (tasks s)) s
             | None => set_tasks (delete i (tasks s)) s
             end).
  assert (preloadingPageRef s1 = preloadingPageRef s
          ∧ tasks s1 = delete i (tasks s)
          ∧ isInitialMountRef s1 = false ∧ 0 <= currentPage s1
          ∧ Forall call_ok (calls s1)
          ∧ (∀ q a, audioCache s1 !! q = Some a → speakable q))
    as (Hr1 & Ht1 & Hm1 & Hp1 & Hc1 & Hca1).
  { subst s1. destruct (generateSpeech_finish resp) as [a|]; [|done].
    destruct (truthy a); [|done]. simpl. split_and!; try done.
    intros q b. rewrite lookup_insert. case_decide; [|by eauto].
    intros _. by subst. }
  assert (∀ j t, tasks s1 !! j = Some t → speakable (task_page t)) as Hts1.
  { rewrite Ht1. by apply tasks_delete_ok. }
  case_bool_decide as Href.
  - constructor; simpl; done.
  - constructor; try done.
    intros q Hq. rewrite Ht1. rewrite Hr1 in Hq, Href.
    apply (preloading_delete q _ i _ Hi); [congruence|by apply Hg].
Qed.

Lemma Inv2_resume_play_speech s i c resp :
  Inv2 s → tasks s !! i = Some (PlayAwaitSpeech c) →
  Inv2 (resume_play_speech book decode c resp
          (set_tasks (delete i (tasks s)) s)).
Proof.
  intros H Hi. pose proof (inv2_tasks s H _ _ Hi) as Hsp. simpl in Hsp.
  pose proof (Inv2_play_settled s i _ H Hi eq_refl) as H1.
  unfold resume_play_speech, catch_play, finally_play.
  destruct (generateSpeech_finish resp) as [a|];
    [|by apply Inv2_set_isGenerating, Inv2_set_alerts].
  apply Inv2_play_audio. destruct (truthy a); [|done].
  by apply Inv2_cache_insert.
Qed.

Lemma Inv2_resume_play_decode s i c a w res :
  Inv2 s → tasks s !! i = Some (PlayAwaitDecode c a w) →
  Inv2 (resume_play_decode book c w res (set_tasks (delete i (tasks s)) s)).
Proof.
  intros H Hi.
  pose proof (Inv2_play_settled s i _ H Hi eq_refl) as H1.
  unfold resume_play_decode, catch_play, finally_play.
  destruct res as [duration|];
    [|by apply Inv2_set_isGenerating, Inv2_set_alerts].
  apply Inv2_set_isGenerating, Inv2_preloadPage.
  destruct H1. constructor; simpl in *; assumption.
Qed.

Lemma Inv2_onended c s : Inv2 s → Inv2 (onended book c s).
Proof.
  intros H. unfold onended.
  assert (Inv2 (set_timers
                  (clearInterval
                     (wordHighlightIntervalRef (set_isPlaying false s))
                     (timers (set_isPlaying false s)))
                  (set_isPlaying false s))) as H1.
  { destruct H. constructor; simpl in *; assumption. }
  destruct (_ && _); [|done].
  apply Inv2_set_currentPage; [|done]. simpl.
  pose proof (inv2_page s H). lia.
Qed.

Lemma Inv2_onTick w s : Inv2 s → Inv2 (onTick w s).
Proof.
  intros H. unfold onTick.
  destruct (bool_decide _); destruct H; constructor; simpl in *; assumption.
Qed.

Lemma Inv2_voiceEffect s : Inv2 s → Inv2 (voiceEffect s).
Proof.
  intros []. constructor; simpl in *; try assumption.
  intros p a. by rewrite lookup_empty.
Qed.

Lemma Inv2_pageEffect s : Inv2 s → Inv2 (pageEffect book decode s).
Proof.
  intros H. unfold pageEffect. rewrite (inv2_mounted s H).
  destruct (autoPlay _).
  - by apply Inv2_playCurrentPage, Inv2_stopPlayback.
  - by apply Inv2_preloadPage, Inv2_stopPlayback.
Qed.

Lemma Inv2_commit prev s : Inv2 s → Inv2 (commit book decode prev s).
Proof.
  intros H. unfold commit.
  set (s' := if bool_decide (voice prev = voice s) then s else voiceEffect s).
  assert (Inv2 s') as H'.
  { subst s'. destruct (bool_decide _); [done|by apply Inv2_voiceEffect]. }
  destruct (_ && _); [done|by apply Inv2_pageEffect].
Qed.

Lemma Inv2_handle s e s' :
  Inv2 s → handle book decode s e = Some s' → Inv2 s'.
Proof.
  intros H. destruct e as [| | |v| |i resp|i res|n|t]; simpl.
  - intros [= <-]. unfold handlePlayPause.
    destruct (isPlaying s);
      [by apply Inv2_stopPlayback|by apply Inv2_playCurrentPage].
  - intros [= <-]. unfold goToNextPage.
    destruct (bool_decide _); [|done].
    apply Inv2_set_currentPage; [|done]. pose proof (inv2_page s H). lia.
  - intros [= <-]. unfold goToPrevPage.
    case_bool_decide; [|done]. apply Inv2_set_currentPage; [lia|done].
  - intros [= <-]. by apply Inv2_set_voice.
  - intros [= <-]. by apply Inv2_set_autoPlay.
  - destruct (tasks s !! i) as [[c|c a w|p]|] eqn:Hi; intros [= <-].
    + by apply Inv2_resume_play_speech.
    + by apply Inv2_resume_preload.
  - destruct (tasks s !! i) as [[c|c a w|p]|] eqn:Hi; intros [= <-].
    by eapply Inv2_resume_play_decode.
  - destruct (nodes s !! n) as [nd|] eqn:Hn; [|done].
    assert (Inv2 (set_nodes (alter end_node n (nodes s)) s)) as H'.
    { destruct H. constructor; simpl in *; assumption. }
    destruct (sn_status nd), (sn_onended nd); intros [= <-];
      (done || by apply Inv2_onended).
  - destruct (timers s !! t) as [tm|] eqn:Ht; [|done].
    destruct (tm_active tm); intros [= <-]. by apply Inv2_onTick.
Qed.

Lemma Inv2_run es : ∀ s s',
  Inv2 s → run book decode s es = Some s' → Inv2 s'.
Proof.
  induction es as [|e es IH]; simpl; intros s s' H Hr; [by simplify_eq|].
  unfold step in Hr.
  destruct (handle book decode s e) as [h|] eqn:Hh; [|done]. simpl in Hr.
  eapply IH; [|done]. eapply Inv2_commit, Inv2_handle; eauto.
Qed.

Lemma Inv2_mount : Inv2 (mount book decode).
Proof.
  unfold mount, pageEffect. cbn [isInitialMountRef voiceEffect set_audioCache
    stopPlayback set_highlightedWordIndex set_isPlaying
    set_wordHighlightIntervalRef set_timers set_audioSourceRef set_nodes
    set_gainNodeRef set_audioContextRef initial].
  apply Inv2_preloadPage. constructor; simpl; done.
Qed.

Lemma reachable_Inv2 s : reachable book decode s → Inv2 s.
Proof. intros [es Hes]. eapply Inv2_run; [apply Inv2_mount|done]. Qed.

End Requests.

Section Navigation.

Variable book : Book.
Variable decode : jsstring -> option (list N).

(** Nothing is held, playing, scheduled or highlighted. *)
Definition stopped (s : State) : Prop :=
  audioSourceRef s = None ∧ wordHighlightIntervalRef s = None
  ∧ live_sources s = 0%nat ∧ live_intervals s = 0%nat
  ∧ isPlaying s = false ∧ highlightedWordIndex s = -1.

Lemma Inv_stopped s : Inv s → audioSourceRef s = None → stopped s.
Proof.
  intros H Hsrc. destruct (inv_idle s H Hsrc) as (Hi & Hp & Hh).
  destruct (Inv_no_playing s H Hsrc) as [Hn Ht].
  split_and!; try done.
  - by apply count_playing_zero.
  - by apply live_intervals_zero.
Qed.

Lemma deps_play_audio c ad s :
  same_deps s (play_audio book decode c ad s).
Proof. unfold play_audio. repeat case_match; by repeat split. Qed.

Lemma deps_playCurrentPage s : same_deps s (playCurrentPage book decode s).
Proof.
  unfold playCurrentPage. destruct (isGenerating s); [done|]. cbv zeta.
  repeat case_match;
    try (edestruct deps_play_audio as (Hv & Hp & Ha);
         repeat split; [rewrite Hv|rewrite Hp|rewrite Ha]);
    by repeat split.
Qed.

Lemma deps_pageEffect s : same_deps s (pageEffect book decode s).
Proof.
  unfold pageEffect. destruct (isInitialMountRef s).
  - destruct (same_deps_preloadPage book (closure_of (set_isInitialMountRef false s))
                1 (set_isInitialMountRef false s)) as (? & ? & ?).
    by repeat split.
  - destruct (autoPlay (stopPlayback s)).
    + destruct (deps_playCurrentPage (stopPlayback s)) as (? & ? & ?).
      by repeat split.
    + destruct (same_deps_preloadPage book (closure_of (stopPlayback s))
                  (currentPage (stopPlayback s) + 1) (stopPlayback s))
        as (? & ? & ?).
      by repeat split.
Qed.

Lemma deps_commit prev s : same_deps s (commit book decode prev s).
Proof.
  unfold commit.
  set (s' := if bool_decide (voice prev = voice s) then s else voiceEffect s).
  assert (same_deps s s') as (Hv & Hp & Ha).
  { subst s'. by destruct (bool_decide _). }
  destruct (_ && _); [done|].
  destruct (deps_pageEffect s') as (? & ? & ?). repeat split; congruence.
Qed.

Lemma pageEffect_stops s :
  isInitialMountRef s = false →
  audioSourceRef (pageEffect book decode s) = None.
Proof.
  intros Hm. unfold pageEffect. rewrite Hm. destruct (autoPlay _).
  - destruct (isGenerating (stopPlayback s)) eqn:Hgen.
    + unfold playCurrentPage. by rewrite Hgen.
    + by destruct (playCurrentPage_frame book decode _ Hgen) as (_ & _ & ? & _).
  - by destruct (preloadPage_frame book (closure_of (stopPlayback s))
                   (currentPage (stopPlayback s) + 1) (stopPlayback s))
      as (_ & _ & _ & -> & _).
Qed.

Lemma commit_runs_pageEffect prev h :
  voice prev = voice h →
  currentPage prev ≠ currentPage h ∨ autoPlay prev ≠ autoPlay h →
  commit book decode prev h = pageEffect book decode h.
Proof.
  intros Hv Hch. unfold commit. rewrite (bool_decide_eq_true_2 _ Hv).
  destruct (bool_decide (currentPage prev = currentPage h)) eqn:E1;
    destruct (bool_decide (autoPlay prev = autoPlay h)) eqn:E2; try done.
  apply bool_decide_eq_true in E1, E2. by destruct Hch.
Qed.

Lemma commit_stops prev h :
  isInitialMountRef h = false →
  currentPage prev ≠ currentPage h ∨ autoPlay prev ≠ autoPlay h →
  audioSourceRef (commit book decode prev h) = None.
Proof.
  intros Hm Hch. unfold commit.
  set (x := if bool_decide (voice prev = voice h) then h else voiceEffect h).
  assert (isInitialMountRef x = false) as Hmx.
  { subst x. by destruct (bool_decide _). }
  assert (currentPage x = currentPage h ∧ autoPlay x = autoPlay h) as [Hpx Hax].
  { subst x. by destruct (bool_decide _). }
  rewrite Hpx, Hax.
  destruct (bool_decide (currentPage prev = currentPage h)) eqn:E1;
    destruct (bool_decide (autoPlay prev = autoPlay h)) eqn:E2; simpl;
    try by apply pageEffect_stops.
  apply bool_decide_eq_true in E1, E2. destruct Hch; congruence.
Qed.

(** X7.  Whenever an event changes the current page or the auto-play
    flag (a click on Next or Prev, the auto-play switch, or the advance at
    the end of a page), playback is stopped before anything else happens:
    in the state that results no source node is held or playing, no
    interval is scheduled and no word is highlighted. *)
Theorem page_change_stops_playback (s : State) (e : Event) (s' : State) :
  reachable book decode s →
  step book decode s e = Some s' →
  currentPage s' ≠ currentPage s ∨ autoPlay s' ≠ autoPlay s →
  stopped s'.
Proof.
  intros Hreach Hstep Hch.
  assert (reachable book decode s') as Hreach'.
  { eapply (reachable_run _ _ s [e]); [done|]. cbn [run]. by rewrite Hstep. }
  apply Inv_stopped; [by apply (reachable_Inv book decode)|].
  unfold step in Hstep.
  destruct (handle book decode s e) as [h|] eqn:Hh; simplify_eq/=.
  pose proof (Inv2_handle book decode s e h
                (reachable_Inv2 _ _ _ Hreach) Hh) as H2.
  destruct (deps_commit s h) as (Hv & Hp & Ha).
  rewrite Hp, Ha in Hch.
  apply commit_stops; [apply (inv2_mounted _ _ H2)|].
  destruct Hch; [left|right]; congruence.
Qed.

Lemma preloadPage_quiet c p x :
  let x' := preloadPage book c p x in
  isGenerating x' = isGenerating x
  ∧ alerts x' = alerts x
  ∧ ∀ P, fg_calls P (calls x') = fg_calls P (calls x).
Proof.
  split_and!.
  - unfold preloadPage. by repeat case_match.
  - unfold preloadPage. by repeat case_match.
  - intros P. by destruct (ext_preloadPage book P c p x) as (_ & _ & ? & _).
Qed.

(** X8.  The auto-play switch always stops the current playback, in both
    directions.  Switched off, it starts no playCurrentPage call: the
    in-flight flag and the foreground requests are as before, and no
    alert is raised. *)
Theorem autoplay_toggle_stops_playback (s : State) :
  reachable book decode s →
  ∃ s', step book decode s ToggleAutoPlay = Some s'
    ∧ autoPlay s' = negb (autoPlay s)
    ∧ currentPage s' = currentPage s
    ∧ stopped s'
    ∧ (autoPlay s = true →
       isGenerating s' = isGenerating s
       ∧ alerts s' = alerts s
       ∧ ∀ P, fg_calls P (calls s') = fg_calls P (calls s)).
Proof.
  intros Hreach.
  destruct (step book decode s ToggleAutoPlay) as [s'|] eqn:Hstep; [|done].
  exists s'. split; [done|].
  assert (autoPlay s' = negb (autoPlay s) ∧ currentPage s' = currentPage s)
    as [Ha Hp].
  { unfold step in Hstep. simpl in Hstep. simplify_eq.
    by destruct (deps_commit s (set_autoPlay (negb (autoPlay s)) s))
      as (_ & -> & ->). }
  split; [done|]. split; [done|]. split.
  - assert (reachable book decode s') as Hreach'.
    { eapply (reachable_run _ _ s [ToggleAutoPlay]); [done|].
      cbn [run]. by rewrite Hstep. }
    apply Inv_stopped; [by apply (reachable_Inv book decode)|].
    unfold step in Hstep. simpl in Hstep. simplify_eq.
    apply commit_stops.
    + apply (inv2_mounted _ _ (reachable_Inv2 _ _ _ Hreach)).
    + right. simpl. by destruct (autoPlay s).
  - intros Hon. unfold step in Hstep. simpl in Hstep. simplify_eq.
    rewrite commit_runs_pageEffect;
      [|done|right; simpl; by destruct (autoPlay s)].
    set (h := set_autoPlay (negb (autoPlay s)) s).
    assert (pageEffect book decode h
            = preloadPage book (closure_of (stopPlayback h))
                (currentPage (stopPlayback h) + 1) (stopPlayback h)) as ->.
    { unfold pageEffect.
      change (isInitialMountRef h) with (isInitialMountRef s).
      rewrite (inv2_mounted _ _ (reachable_Inv2 _ _ _ Hreach)).
      change (autoPlay (stopPlayback h)) with (negb (autoPlay s)).
      by rewrite Hon. }
    destruct (preloadPage_quiet (closure_of (stopPlayback h))
                (currentPage (stopPlayback h) + 1) (stopPlayback h))
      as (-> & -> & Hfg).
    split; [done|]. split; [done|]. exact Hfg.
Qed.

End Navigation.

Section PagesAndRequests.

Variable book : Book.
Variable decode : jsstring -> option (list N).

(** X9.  The page number is never negative.  On a page of the book the
    Next and Prev buttons stay within the book; Next on the last page and
    Prev on the first change nothing, and no effect runs. *)
Theorem page_buttons_stay_in_range (s : State) :
  reachable book decode s →
  0 <= currentPage s
  ∧ (currentPage s < pageCount book →
     0 <= currentPage (goToNextPage book s) < pageCount book
     ∧ 0 <= currentPage (goToPrevPage s) < pageCount book)
  ∧ (pageCount book - 1 <= currentPage s →
     step book decode s ClickNext = Some s)
  ∧ (currentPage s = 0 → step book decode s ClickPrev = Some s).
Proof.
  intros Hreach.
  pose proof (inv2_page _ _ (reachable_Inv2 _ _ _ Hreach)) as Hp.
  split_and!.
  - exact Hp.
  - intros Hlt. by apply goTo_in_range.
  - intros Hlast. unfold step, handle, goToNextPage.
    rewrite bool_decide_eq_false_2 by lia.
    cbn [fmap option_fmap option_map]. f_equal. by apply commit_same.
  - intros H0. unfold step, handle, goToPrevPage.
    rewrite bool_decide_eq_false_2 by lia.
    cbn [fmap option_fmap option_map]. f_equal. by apply commit_same.
Qed.

(** X10.  Every request sent to the speech service, by playCurrentPage or
    by preloadPage, carries the whole text of an existing page that has at
    least one code unit other than white space, with the voice name 'Puck'
    or 'Kore': the service is never called with blank text or for a page
    outside the book. *)
Theorem requests_are_for_speakable_pages (s : State) :
  reachable book decode s →
  ∀ c, c ∈ calls s →
    ∃ text, at_index (pageTexts book) (sc_page c) = Some text
            ∧ trim text ≠ []
            ∧ sc_text c = text
            ∧ 0 <= sc_page c < pageCount book
            ∧ (sc_voiceName c = js "Puck" ∨ sc_voiceName c = js "Kore").
Proof.
  intros Hreach c Hc.
  pose proof (inv2_calls _ _ (reachable_Inv2 _ _ _ Hreach)) as Hall.
  destruct (proj1 (Forall_forall _ _) Hall c Hc) as (text & Ht & Hnb & Htx & Hv).
  exists text. split_and!; try done.
  - unfold at_index in Ht. by case_decide.
  - unfold at_index in Ht. case_decide; [|done].
    apply lookup_lt_Some in Ht. unfold pageCount. lia.
Qed.

(** X11.  Every entry of the audio cache, and every call awaiting a
    request or a decode, belongs to a page of the book that has text. *)
Theorem cache_and_tasks_are_for_speakable_pages (s : State) :
  reachable book decode s →
  (∀ p a, audioCache s !! p = Some a →
     0 <= p < pageCount book ∧ speakable book p)
  ∧ (∀ i t, tasks s !! i = Some t →
       0 <= task_page t < pageCount book ∧ speakable book (task_page t)).
Proof.
  intros Hreach. pose proof (reachable_Inv2 _ _ _ Hreach) as H.
  assert (∀ p, speakable book p → 0 <= p < pageCount book) as Hrange.
  { intros p (text & Ht & _). unfold at_index in Ht. case_decide; [|done].
    apply lookup_lt_Some in Ht. unfold pageCount. lia. }
  split.
  - intros p a Hp. pose proof (inv2_cache _ _ H _ _ Hp). auto.
  - intros i t Hi. pose proof (inv2_tasks _ _ H _ _ Hi). auto.
Qed.

(** X12.  The preload guard is never left set without a request: when
    [preloadingPageRef] holds page [p], a preloadPage call for [p] is
    awaiting its answer.  While it holds [p], preloadPage for [p] does
    nothing; and when no preload for [p] is pending, preloadPage for a
    page with text that its closure's cache lacks sends exactly one
    background request for it. *)
Theorem preload_guard_has_pending_request (s : State) (c : Closure) (p : Z) :
  reachable book decode s →
  (preloadingPageRef s = Some p →
     (∃ i, tasks s !! i = Some (PreloadAwaitSpeech p))
     ∧ preloadPage book c p s = s)
  ∧ ((∀ i, tasks s !! i ≠ Some (PreloadAwaitSpeech p)) →
     ∀ text, at_index (pageTexts book) p = Some text → trim text ≠ [] →
       cl_audioCache c !! p = None →
       calls (preloadPage book c p s)
       = calls s ++ [mkCall false p text (voiceName (cl_voice c))]
       ∧ tasks (preloadPage book c p s)
         = tasks s ++ [PreloadAwaitSpeech p]
       ∧ preloadingPageRef (preloadPage book c p s) = Some p).
Proof.
  intros Hreach. pose proof (reachable_Inv2 _ _ _ Hreach) as H. split.
  - intros Hr. split; [by apply (inv2_guard _ _ H)|].
    unfold preloadPage. rewrite (bool_decide_eq_true_2 _ Hr).
    by rewrite !orb_true_r.
  - intros Hnone text Ht Hnb Hmiss.
    assert (preloadingPageRef s ≠ Some p) as Hr.
    { intros Hr. destruct (inv2_guard _ _ H p Hr) as [i Hi]. by eapply Hnone. }
    assert (p < pageCount book) as Hlt.
    { unfold at_index in Ht. case_decide; [|done].
      apply lookup_lt_Some in Ht. unfold pageCount. lia. }
    unfold preloadPage.
    rewrite (bool_decide_eq_false_2 (pageCount book <= p)) by lia.
    rewrite (bool_decide_eq_false_2 (is_Some _))
      by (rewrite Hmiss; by intros [? ?]).
    rewrite (bool_decide_eq_false_2 _ Hr). cbn [orb].
    rewrite Ht, (proj2 (truthy_true_iff _) Hnb). cbn [negb].
    rewrite generateSpeech_start_text by done. done.
Qed.

(** X13.  A synthesis request of playCurrentPage that fails, by rejection
    or by an answer without data, raises one alert and ends the call: the
    in-flight flag is cleared, nothing is cached, nothing is played or
    decoded, and no further request is sent. *)
Theorem failed_synthesis_alerts_and_stops (s : State) i c resp :
  reachable book decode s →
  tasks s !! i = Some (PlayAwaitSpeech c) →
  generateSpeech_finish resp = None →
  ∃ s', step book decode s (SpeechSettled i resp) = Some s'
    ∧ alerts s' = S (alerts s)
    ∧ isGenerating s' = false
    ∧ audioCache s' = audioCache s
    ∧ tasks s' = delete i (tasks s)
    ∧ calls s' = calls s
    ∧ nodes s' = nodes s
    ∧ stopped s'.
Proof.
  intros Hreach Hi Hfail.
  assert (step book decode s (SpeechSettled i resp)
          = Some (catch_play (set_tasks (delete i (tasks s)) s))) as Hstep.
  { unfold step, handle. rewrite Hi. unfold resume_play_speech.
    rewrite Hfail. cbn [fmap option_fmap option_map]. f_equal.
    by apply commit_same. }
  eexists. split; [exact Hstep|]. split_and!; try done.
  assert (reachable book decode
            (catch_play (set_tasks (delete i (tasks s)) s))) as Hreach'.
  { eapply (reachable_run _ _ s [SpeechSettled i resp]); [done|].
    cbn [run]. by rewrite Hstep. }
  apply Inv_stopped; [by apply (reachable_Inv book decode)|]. simpl.
  pose proof (reachable_Inv _ _ _ Hreach) as H.
  apply (inv_generating s H). eapply pending_generating; [done|].
  by exists i, c.
Qed.

(** X14.  When decoding fails, one alert is raised and the call ends
    without a source node or an interval; the payload that could not be
    decoded stays in the cache as it was. *)
Theorem failed_decode_alerts_and_stops (s : State) i c a w :
  reachable book decode s →
  tasks s !! i = Some (PlayAwaitDecode c a w) →
  ∃ s', step book decode s (DecodeSettled i None) = Some s'
    ∧ alerts s' = S (alerts s)
    ∧ isGenerating s' = false
    ∧ audioCache s' = audioCache s
    ∧ tasks s' = delete i (tasks s)
    ∧ calls s' = calls s
    ∧ nodes s' = nodes s
    ∧ timers s' = timers s
    ∧ stopped s'.
Proof.
  intros Hreach Hi.
  assert (step book decode s (DecodeSettled i None)
          = Some (catch_play (set_tasks (delete i (tasks s)) s))) as Hstep.
  { unfold step, handle. rewrite Hi. unfold resume_play_decode.
    cbn [fmap option_fmap option_map]. f_equal. by apply commit_same. }
  eexists. split; [exact Hstep|]. split_and!; try done.
  assert (reachable book decode
            (catch_play (set_tasks (delete i (tasks s)) s))) as Hreach'.
  { eapply (reachable_run _ _ s [DecodeSettled i None]); [done|].
    cbn [run]. by rewrite Hstep. }
  apply Inv_stopped; [by apply (reachable_Inv book decode)|]. simpl.
  pose proof (reachable_Inv _ _ _ Hreach) as H.
  apply (inv_generating s H).
  pose proof (inv_play_tasks s H) as Ht.
  rewrite (play_count_delete _ _ _ Hi) in Ht. simpl in Ht.
  destruct (isGenerating s); [done|lia].
Qed.

(** X15.  A preload that settles never disturbs the reader: whatever the
    answer, the page, the playing and in-flight flags, the highlight, the
    source nodes, the intervals and the alerts stay as they are.  A
    payload is cached under the preloaded page and nothing else in the
    cache changes; a failure leaves the cache as it was. *)
Theorem preload_settles_silently (s : State) i p resp :
  tasks s !! i = Some (PreloadAwaitSpeech p) →
  ∃ s', step book decode s (SpeechSettled i resp) = Some s'
    ∧ currentPage s' = currentPage s
    ∧ isPlaying s' = isPlaying s
    ∧ isGenerating s' = isGenerating s
    ∧ highlightedWordIndex s' = highlightedWordIndex s
    ∧ nodes s' = nodes s
    ∧ timers s' = timers s
    ∧ alerts s' = alerts s
    ∧ calls s' = calls s
    ∧ tasks s' = delete i (tasks s)
    ∧ audioCache s'
      = match generateSpeech_finish resp with
        | Some a => <[p := a]> (audioCache s)
        | None => audioCache s
        end.
Proof.
  intros Hi.
  assert (step book decode s (SpeechSettled i resp)
          = Some (resume_preload p resp (set_tasks (delete i (tasks s)) s)))
    as Hstep.
  { unfold step, handle. rewrite Hi.
    cbn [fmap option_fmap option_map]. f_equal. apply commit_same;
      unfold resume_preload; by repeat case_match. }
  eexists. split; [exact Hstep|].
  unfold resume_preload, generateSpeech_finish.
  destruct resp as [[|x a]|]; simpl;
    destruct (bool_decide _); simpl; by split_and!.
Qed.

(** X16.  Mounting the reader plays nothing: the first page is shown,
    stopped and with auto-play off, and the only request that may have
    been sent is the background one for the second page, sent when that
    page exists and has text. *)
Theorem mount_only_preloads_second_page :
  let s := mount book decode in
  currentPage s = 0 ∧ autoPlay s = false ∧ voice s = FEMALE
  ∧ isPlaying s = false ∧ isGenerating s = false
  ∧ highlightedWordIndex s = -1
  ∧ nodes s = [] ∧ timers s = [] ∧ audioCache s = ∅
  ∧ calls s = match at_index (pageTexts book) 1 with
              | Some text =>
                  if truthy (trim text)
                  then [mkCall false 1 text (js "Kore")]
                  else []
              | None => []
              end
  ∧ tasks s = map (λ _, PreloadAwaitSpeech 1) (calls s).
Proof.
  cbv zeta. unfold mount, pageEffect, preloadPage, generateSpeech_start.
  simpl.
  destruct (bool_decide (is_Some _)) eqn:E.
  { apply bool_decide_eq_true in E as [? E]. by rewrite lookup_empty in E. }
  rewrite !orb_false_r.
  destruct (bool_decide (pageCount book <= 1)) eqn:Hn.
  - apply bool_decide_eq_true in Hn.
    assert (at_index (pageTexts book) 1 = None) as ->.
    { unfold at_index. rewrite decide_True by lia.
      apply lookup_ge_None. unfold pageCount in Hn. lia. }
    by split_and!.
  - destruct (at_index (pageTexts book) 1) as [text|] eqn:Ht; [|by split_and!].
    destruct (truthy (trim text)) eqn:Hnb; simpl; by split_and!.
Qed.

End PagesAndRequests.

(** ** The playing flag and the source nodes *)

Record Inv3 (s : State) : Prop := {
  inv3_flag :
    isPlaying s = true →
    ∃ n nd, audioSourceRef s = Some n ∧ nodes s !! n = Some nd
            ∧ sn_status nd = Playing;
  inv3_playing :
    ∀ n nd, nodes s !! n = Some nd → sn_status nd = Playing →
      isPlaying s = true ∧ sn_onended nd ≠ None;
  inv3_stopped :
    ∀ n nd, nodes s !! n = Some nd → sn_status nd = Stopped →
      sn_onended nd = None
}.

Lemma Inv3_frame s s' :
  nodes s' = nodes s → isPlaying s' = isPlaying s →
  audioSourceRef s' = audioSourceRef s → Inv3 s → Inv3 s'.
Proof.
  intros Hn Hp Hr [Hf Hpl Hst]. constructor; rewrite ?Hn, ?Hp, ?Hr; done.
Qed.

Lemma Inv3_stopPlayback s : Inv s → Inv3 s → Inv3 (stopPlayback s).
Proof.
  intros H [Hf Hpl Hst].
  destruct (Inv_no_playing _ (Inv_stopPlayback s H) eq_refl) as [Hnp _].
  constructor.
  - done.
  - intros n nd Hn Hs. by apply Hnp in Hn.
  - intros n nd Hn Hs. simpl in Hn.
    apply stop_source_lookup in Hn as (nd' & Hn & Hnd).
    case_decide; subst nd; [done|]. by eapply Hst.
Qed.

Section PlayingFlag.

Variable book : Book.
Variable decode : jsstring -> option (list N).

Lemma Inv3_preloadPage c p s : Inv3 s → Inv3 (preloadPage book c p s).
Proof.
  apply Inv3_frame; [apply nodes_preloadPage|..];
    by destruct (preloadPage_frame book c p s) as (_ & _ & _ & ? & ?).
Qed.

Lemma Inv3_play_audio c ad s : Inv3 s → Inv3 (play_audio book decode c ad s).
Proof.
  destruct (play_audio_frame book decode c ad s) as (? & _ & ? & _ & ? & _).
  by apply Inv3_frame.
Qed.

Lemma Inv3_playCurrentPage s :
  Inv s → Inv3 s → Inv3 (playCurrentPage book decode s).
Proof.
  intros H H3. destruct (isGenerating s) eqn:Hgen.
  - unfold playCurrentPage. by rewrite Hgen.
  - destruct (playCurrentPage_frame book decode s Hgen)
      as (Hn & _ & Hr & _ & Hp & _).
    apply (Inv3_frame (stopPlayback s)); [done..|by apply Inv3_stopPlayback].
Qed.

Lemma Inv3_pageEffect s : Inv s → Inv3 s → Inv3 (pageEffect book decode s).
Proof.
  intros H H3. unfold pageEffect. destruct (isInitialMountRef s).
  - apply Inv3_preloadPage. by apply (Inv3_frame s).
  - destruct (autoPlay _).
    + apply Inv3_playCurrentPage;
        [by apply Inv_stopPlayback|by apply Inv3_stopPlayback].
    + by apply Inv3_preloadPage, Inv3_stopPlayback.
Qed.

Lemma Inv3_commit prev s : Inv s → Inv3 s → Inv3 (commit book decode prev s).
Proof.
  intros H H3. unfold commit.
  set (s' := if bool_decide (voice prev = voice s) then s else voiceEffect s).
  assert (Inv s' ∧ Inv3 s') as [H' H3'].
  { subst s'. destruct (bool_decide _); [done|]. split.
    - by apply Inv_voiceEffect.
    - apply (Inv3_frame (stopPlayback s)); [done..|by apply Inv3_stopPlayback]. }
  destruct (_ && _); [done|by apply Inv3_pageEffect].
Qed.

Lemma Inv3_handle s e s' :
  Inv s → Inv3 s → handle book decode s e = Some s' → Inv3 s'.
Proof.
  intros H H3. destruct e as [| | |v| |i resp|i res|n|t]; simpl.
  - intros [= <-]. unfold handlePlayPause.
    destruct (isPlaying s);
      [by apply Inv3_stopPlayback|by apply Inv3_playCurrentPage].
  - intros [= <-]. unfold goToNextPage.
    destruct (bool_decide _); [by apply (Inv3_frame s)|done].
  - intros [= <-]. unfold goToPrevPage.
    destruct (bool_decide _); [by apply (Inv3_frame s)|done].
  - intros [= <-]. by apply (Inv3_frame s).
  - intros [= <-]. by apply (Inv3_frame s).
  - destruct (tasks s !! i) as [[c|c a w|p]|] eqn:Hi; intros [= <-].
    + unfold resume_play_speech.
      destruct (generateSpeech_finish resp) as [a|]; [|by apply (Inv3_frame s)].
      apply Inv3_play_audio. destruct (truthy a); by apply (Inv3_frame s).
    + apply (Inv3_frame s); [..|done];
        unfold resume_preload; by repeat case_match.
  - destruct (tasks s !! i) as [[c|c a w|p]|] eqn:Hi; intros [= <-].
    unfold resume_play_decode. destruct res; [|by apply (Inv3_frame s)].
    unfold finally_play. rewrite preloadPage_set_isGenerating.
    apply Inv3_preloadPage.
    destruct (Mid_settled s i _ H Hi eq_refl) as [Hrest _ Hsrc].
    simpl in Hsrc.
    destruct (Inv_no_playing _ Hrest Hsrc) as [Hnp _]. simpl in Hnp.
    destruct H3 as [Hf Hpl Hst]. constructor; simpl.
    + intros _. exists (length (nodes s)). eexists. split; [done|].
      by rewrite lookup_app_r, Nat.sub_diag.
    + intros n nd Hn Hs.
      apply lookup_app_Some in Hn as [Hn|[_ Hn]]; [by apply Hnp in Hn|].
      destruct (n - length (nodes s))%nat as [|[|?]]; by simplify_eq/=.
    + intros n nd Hn Hs.
      apply lookup_app_Some in Hn as [Hn|[_ Hn]]; [by eapply Hst|].
      destruct (n - length (nodes s))%nat as [|[|?]]; by simplify_eq/=.
  - destruct (nodes s !! n) as [nd|] eqn:Hn; [|done].
    destruct H3 as [Hf Hpl Hst].
    assert (∀ m nd', alter end_node n (nodes s) !! m = Some nd' →
              sn_status nd' = Stopped →
              sn_onended nd' = None) as Hst'.
    { intros m nd' Hm Hs. destruct (decide (n = m)) as [->|Hne].
      - rewrite list_lookup_alter_eq, Hn in Hm. by simplify_eq/=.
      - rewrite list_lookup_alter_ne in Hm by done. by eapply Hst. }
    assert (∀ m nd', alter end_node n (nodes s) !! m = Some nd' →
              sn_status nd' = Playing →
              nodes s !! m = Some nd' ∧ m ≠ n) as Hpl'.
    { intros m nd' Hm Hs. destruct (decide (n = m)) as [->|Hne].
      - rewrite list_lookup_alter_eq, Hn in Hm. by simplify_eq/=.
      - by rewrite list_lookup_alter_ne in Hm. }
    destruct (sn_status nd) eqn:Hs.
    + (* the node was playing: it is the one held, and its handler runs *)
      destruct (Hpl _ _ Hn Hs) as [Hp Hh].
      pose proof (inv_playing s H _ _ Hn Hs) as Hr.
      destruct (sn_onended nd) as [c|]; [|done]. intros [= <-].
      assert (∀ m nd', alter end_node n (nodes s) !! m = Some nd' →
                sn_status nd' ≠ Playing) as Hnone.
      { intros m nd' Hm Hs'. destruct (Hpl' _ _ Hm Hs') as [Hm' Hne].
        pose proof (inv_playing s H _ _ Hm' Hs'). congruence. }
      unfold onended. destruct (_ && _);
        (constructor; simpl; [done| |done]);
        intros m nd' Hm Hs'; by apply Hnone in Hm.
    + (* stopped before: no handler *)
      rewrite (Hst _ _ Hn Hs). intros [= <-]. constructor; simpl; [|  |done].
      * intros Hp. destruct (Hf Hp) as (m & nd' & Hr & Hm & Hs').
        exists m, nd'. split; [done|]. split; [|done].
        rewrite list_lookup_alter_ne; [done|]. intros ->. congruence.
      * intros m nd' Hm Hs'. destruct (Hpl' _ _ Hm Hs') as [Hm' _].
        by eapply Hpl.
    + done.
  - destruct (timers s !! t) as [tm|] eqn:Ht; [|done].
    destruct (tm_active tm); intros [= <-].
    unfold onTick. destruct (bool_decide _); by apply (Inv3_frame s).
Qed.

Lemma Inv3_run es : ∀ s s',
  Inv s → Inv3 s → run book decode s es = Some s' → Inv3 s'.
Proof.
  induction es as [|e es IH]; cbn [run]; intros s s' H H3 Hr;
    [by simplify_eq|].
  destruct (step book decode s e) as [s1|] eqn:Hs; [|done].
  pose proof (Inv_step _ _ _ _ _ H Hs) as H1.
  eapply IH; [done| |done]. unfold step in Hs.
  destruct (handle book decode s e) as [h|] eqn:Hh; [|done].
  cbn [fmap option_fmap option_map] in Hs. injection Hs as <-.
  apply Inv3_commit;
    [exact (Inv_handle book decode s e h H Hh)|exact (Inv3_handle s e h H H3 Hh)].
Qed.

Lemma Inv3_mount : Inv3 (mount book decode).
Proof.
  unfold mount. apply Inv3_pageEffect.
  - apply Inv_voiceEffect, Inv_set_gainNodeRef, Inv_set_audioContextRef,
      Inv_initial.
  - constructor; simpl; done.
Qed.

(** X17.  The playing flag tells the truth: it is set exactly when a
    source node is playing, and that node is the one the component holds.
    The playing and in-flight flags are never set together, and the
    in-flight flag is set exactly while one playCurrentPage call awaits a
    request or a decode; then nothing is held, playing or highlighted. *)
Theorem flags_reflect_playback (s : State) :
  reachable book decode s →
  (isPlaying s = true ↔ live_sources s = 1%nat)
  ∧ (isPlaying s = true →
     ∃ n nd, audioSourceRef s = Some n ∧ nodes s !! n = Some nd
             ∧ sn_status nd = Playing)
  ∧ (isPlaying s = true → isGenerating s = false)
  ∧ (isGenerating s = true ↔ play_count (tasks s) = 1%nat)
  ∧ (isGenerating s = true → stopped s).
Proof.
  intros Hreach. pose proof (reachable_Inv _ _ _ Hreach) as H.
  assert (Inv3 s) as [Hf Hpl Hst].
  { destruct Hreach as [es Hes].
    eapply Inv3_run; [apply Inv_mount|apply Inv3_mount|done]. }
  pose proof (count_playing_le_1 _ _ (inv_playing s H)) as Hle.
  split_and!.
  - split.
    + intros Hp. destruct (Hf Hp) as (n & nd & _ & Hn & Hs).
      destruct (decide (count_playing (nodes s) = 0%nat)) as [H0|H0];
        [|unfold live_sources; lia].
      exfalso. clear -Hn Hs H0. revert n Hn.
      induction (nodes s) as [|x l IH]; intros [|n] Hn; simplify_eq/=.
      * unfold is_playing in H0. by rewrite Hs in H0.
      * apply (IH ltac:(lia) n Hn).
    + intros H1. destruct (isPlaying s) eqn:Hp; [done|]. exfalso.
      assert (count_playing (nodes s) = 0%nat); [|unfold live_sources in H1; lia].
      apply count_playing_zero. intros n nd Hn Hs.
      destruct (Hpl _ _ Hn Hs). congruence.
  - exact Hf.
  - intros Hp. destruct (isGenerating s) eqn:Hg; [|done].
    destruct (inv_idle s H (inv_generating s H Hg)) as (_ & ? & _).
    congruence.
  - rewrite (inv_play_tasks s H). by destruct (isGenerating s).
  - intros Hg. apply Inv_stopped; [done|]. by apply inv_generating.
Qed.

End PlayingFlag.

(** ** After a change of voice *)

(** An event that brings a result to a pending call: a request answered
    with a payload, or a decode that succeeded. *)
Definition delivers (e : Event) : bool :=
  match e with
  | SpeechSettled _ resp => from_option truthy false resp
  | DecodeSettled _ res => bool_decide (is_Some res)
  | _ => false
  end.

(** Events that need no user and bring no result: a request or a decode
    that fails, the [ended] event of a node, an interval that fires. *)
Definition passive (e : Event) : bool := autonomous e && negb (delivers e).

(** The reader is as the change to voice [v] in state [s] left it: on the
    page of [s], stopped, with an empty cache and no further request. *)
Definition rests (v : VoiceOption) (s x : State) : Prop :=
  voice x = v ∧ currentPage x = currentPage s
  ∧ (∀ p, audioCache x !! p = None)
  ∧ calls x = calls s
  ∧ stopped x.

Lemma generateSpeech_finish_failed resp :
  from_option truthy false resp = false → generateSpeech_finish resp = None.
Proof. destruct resp as [b|]; [|done]. simpl. by intros ->. Qed.

Lemma length_delete_le {A} (l : list A) i :
  (length (delete i l) <= length l)%nat.
Proof.
  revert i. induction l as [|a l IH]; intros [|i]; simpl; try lia.
  specialize (IH i). lia.
Qed.

Section VoiceChange.

Variable book : Book.
Variable decode : jsstring -> option (list N).

Lemma Inv3_step s e s' :
  Inv s → Inv3 s → step book decode s e = Some s' → Inv3 s'.
Proof.
  intros H H3 Hs. unfold step in Hs.
  destruct (handle book decode s e) as [h|] eqn:Hh; [|done].
  cbn [fmap option_fmap option_map] in Hs. injection Hs as <-.
  apply Inv3_commit;
    [exact (Inv_handle book decode s e h H Hh)
    |exact (Inv3_handle book decode s e h H H3 Hh)].
Qed.

Lemma reachable_Inv3 s : reachable book decode s → Inv3 s.
Proof.
  intros [es Hes]. eapply Inv3_run; [apply Inv_mount|apply Inv3_mount|done].
Qed.

(** With nothing held, a passive event changes neither the page, the
    voice, the cache nor the requests, and starts nothing. *)
Lemma passive_step x e x' :
  Inv x → Inv3 x → audioSourceRef x = None → passive e = true →
  step book decode x e = Some x' →
  audioSourceRef x' = None ∧ voice x' = voice x
  ∧ currentPage x' = currentPage x ∧ audioCache x' = audioCache x
  ∧ calls x' = calls x ∧ (length (tasks x') <= length (tasks x))%nat.
Proof.
  intros H H3 Hsrc Hpas Hstep. unfold step in Hstep.
  destruct (handle book decode x e) as [h|] eqn:Hh; [|done].
  cbn [fmap option_fmap option_map] in Hstep. injection Hstep as <-.
  destruct (Inv_no_playing x H Hsrc) as [Hnp Hna].
  assert (audioSourceRef h = None ∧ same_deps x h
          ∧ audioCache h = audioCache x ∧ calls h = calls x
          ∧ (length (tasks h) <= length (tasks x))%nat)
    as (Hs & (Hv & Hp & Ha) & Hc & Hcl & Hl).
  { destruct e as [| | |v| |i resp|i res|n|t]; try discriminate Hpas.
    - apply negb_true_iff, generateSpeech_finish_failed in Hpas.
      simpl in Hh.
      destruct (tasks x !! i) as [[c|c b w|p]|] eqn:Hi; simplify_eq.
      + unfold resume_play_speech. rewrite Hpas. simpl.
        split_and!; try done. apply length_delete_le.
      + unfold resume_preload. rewrite Hpas.
        destruct (bool_decide _); simpl; (split_and!; try done);
          apply length_delete_le.
    - destruct res as [d|]; [discriminate Hpas|]. simpl in Hh.
      destruct (tasks x !! i) as [[c|c b w|p]|] eqn:Hi; simplify_eq.
      simpl. split_and!; try done. apply length_delete_le.
    - simpl in Hh. destruct (nodes x !! n) as [nd|] eqn:Hn; [|done].
      destruct (sn_status nd) eqn:Hst.
      + exfalso. by apply (Hnp n nd Hn).
      + rewrite (inv3_stopped x H3 n nd Hn Hst) in Hh. simplify_eq.
        simpl. by split_and!.
      + done.
    - simpl in Hh. destruct (timers x !! t) as [tm|] eqn:Ht; [|done].
      by rewrite (Hna t tm Ht) in Hh. }
  rewrite commit_same by done. by split_and!.
Qed.

(** With no call pending, the events that can happen without the user are
    passive. *)
Lemma idle_passive x e :
  tasks x = [] → autonomous e = true → is_Some (step book decode x e) →
  passive e = true.
Proof.
  intros Ht Ha [x' Hs]. unfold step in Hs.
  destruct e as [| | |v| |i resp|i res|n|t]; try done;
    simpl in Hs; by rewrite Ht in Hs.
Qed.

Lemma passive_run es : ∀ x x',
  Inv x → Inv3 x → audioSourceRef x = None →
  forallb passive es = true
  ∨ (tasks x = [] ∧ forallb autonomous es = true) →
  run book decode x es = Some x' →
  Inv x' ∧ audioSourceRef x' = None ∧ voice x' = voice x
  ∧ currentPage x' = currentPage x ∧ audioCache x' = audioCache x
  ∧ calls x' = calls x.
Proof.
  induction es as [|e es IH]; intros x x' H H3 Hsrc Hes Hr.
  - simpl in Hr. simplify_eq. by split_and!.
  - cbn [run] in Hr.
    destruct (step book decode x e) as [x1|] eqn:Hs; [|done].
    assert (passive e = true) as Hpas.
    { destruct Hes as [Hes|[Ht Hes]]; simpl in Hes;
        apply andb_true_iff in Hes as [He _]; [done|].
      apply (idle_passive x e Ht He). by rewrite Hs. }
    destruct (passive_step x e x1 H H3 Hsrc Hpas Hs)
      as (Hs1 & Hv1 & Hp1 & Hc1 & Hcl1 & Hl1).
    destruct (IH x1 x' (Inv_step _ _ _ _ _ H Hs) (Inv3_step _ _ _ H H3 Hs) Hs1)
      as (H' & Hs' & Hv' & Hp' & Hc' & Hcl'); [|done|].
    { destruct Hes as [Hes|[Ht Hes]]; simpl in Hes;
        apply andb_true_iff in Hes as [_ Hes]; [by left|right].
      split; [|done]. rewrite Ht in Hl1. simpl in Hl1.
      destruct (tasks x1); [done|simpl in Hl1; lia]. }
    split_and!; congruence.
Qed.

(** C5 (amended).  Choosing the other voice stops the playback (no node
    is playing, no interval is scheduled, nothing is highlighted) and
    empties the audio cache, so that every page misses; it stays on the
    current page and starts nothing of its own: no task and no synthesis
    request is added.  The reader then rests in that condition (same page,
    stopped, every page a miss, no request sent) for as long as the user
    does nothing and no pending request or decode brings a result; with no
    call pending at the change, for as long as the user does nothing. *)
Theorem voice_change_clears_cache (s : State) (v : VoiceOption) :
  reachable book decode s → v ≠ voice s →
  ∃ s', step book decode s (ClickVoice v) = Some s'
    ∧ voice s' = v
    ∧ (∀ p, audioCache s' !! p = None)
    ∧ live_sources s' = 0%nat
    ∧ live_intervals s' = 0%nat
    ∧ audioSourceRef s' = None
    ∧ isPlaying s' = false
    ∧ highlightedWordIndex s' = -1
    ∧ isGenerating s' = isGenerating s
    ∧ currentPage s' = currentPage s
    ∧ tasks s' = tasks s
    ∧ calls s' = calls s
    ∧ (∀ es s'', forallb passive es = true →
         run book decode s' es = Some s'' → rests v s s'')
    ∧ (tasks s = [] → ∀ es s'', forallb autonomous es = true →
         run book decode s' es = Some s'' → rests v s s'').
Proof.
  intros Hreach Hv. pose proof (reachable_Inv _ _ _ Hreach) as H.
  pose proof (voice_click_step book decode s v Hv) as Hstep.
  set (s' := voiceEffect (set_voice v s)) in *.
  exists s'. split; [exact Hstep|].
  assert (reachable book decode s') as Hreach'.
  { eapply (reachable_run _ _ s [ClickVoice v]); [done|].
    cbn [run]. by rewrite Hstep. }
  pose proof (reachable_Inv _ _ _ Hreach') as H'.
  pose proof (reachable_Inv3 _ Hreach') as H3'.
  destruct (Inv_no_playing _ H' eq_refl) as [Hnp Hna].
  assert (∀ es s'',
            forallb passive es = true
            ∨ (tasks s' = [] ∧ forallb autonomous es = true) →
            run book decode s' es = Some s'' → rests v s s'') as Hrest.
  { intros es s'' Hes Hr.
    destruct (passive_run es s' s'' H' H3' eq_refl Hes Hr)
      as (H'' & Hs'' & Hv'' & Hp'' & Hc'' & Hcl'').
    split_and!; try done.
    - intros p. by rewrite Hc''.
    - by apply Inv_stopped. }
  split_and!; try done.
  - by apply count_playing_zero.
  - by apply live_intervals_zero.
  - intros es s'' Hes. apply Hrest. by left.
  - intros Ht es s'' Hes. apply Hrest. by right.
Qed.

End VoiceChange.

(** [book3], page 0 playing, and the male voice chosen. *)
Definition demo_voice_changed : State :=
  after book3 [ClickPlayPause; SpeechSettled 0 (Some demo_audio);
               DecodeSettled 0 (Some 1%Q); ClickVoice MALE].

(** The browser has since delivered [ended] to the node that was
    stopped. *)
Definition demo_voice_rests : State :=
  after book3 [ClickPlayPause; SpeechSettled 0 (Some demo_audio);
               DecodeSettled 0 (Some 1%Q); ClickVoice MALE; SourceEnded 0].

Lemma voice_change_clears_cache_witness :
  reachable book3 demo_decode demo_playing
  ∧ MALE ≠ voice demo_playing
  ∧ audioCache demo_playing !! 0 = Some demo_audio
  ∧ tasks demo_playing = []
  ∧ step book3 demo_decode demo_playing (ClickVoice MALE)
    = Some demo_voice_changed
  ∧ audioCache demo_voice_changed !! 0 = None
  ∧ isPlaying demo_voice_changed = false
  ∧ run book3 demo_decode demo_voice_changed [SourceEnded 0]
    = Some demo_voice_rests
  ∧ rests MALE demo_playing demo_voice_rests.
Proof.
  assert (MALE ≠ voice demo_playing) as Hv by (vm_compute; discriminate).
  assert (audioCache demo_playing !! 0 = Some demo_audio) as Hc
    by (vm_compute; reflexivity).
  assert (tasks demo_playing = []) as Ht by (vm_compute; reflexivity).
  assert (step book3 demo_decode demo_playing (ClickVoice MALE)
          = Some demo_voice_changed) as Hs by (vm_compute; reflexivity).
  assert (run book3 demo_decode demo_voice_changed [SourceEnded 0]
          = Some demo_voice_rests) as Hr by (vm_compute; reflexivity).
  destruct (voice_change_clears_cache book3 demo_decode demo_playing MALE
              demo_playing_reachable Hv)
    as (s' & Hstep & _ & Hmiss & _ & _ & _ & Hp & _ & _ & _ & _ & _ & _ & Hidle).
  assert (s' = demo_voice_changed) as -> by congruence.
  exact (conj demo_playing_reachable (conj Hv (conj Hc (conj Ht (conj Hs
          (conj (Hmiss 0) (conj Hp (conj Hr
            (Hidle Ht [SourceEnded 0] demo_voice_rests eq_refl Hr))))))))).
Defined.

(** Page 1 of [book2], cached under the female voice by the preload while
    the request of a play of that page is still pending. *)
Definition demo_cached_and_fetching : State :=
  after book2 [ClickNext; ClickPlayPause; SpeechSettled 0 (Some demo_audio)].

(** C5 (as stated).  The male voice is chosen while a playCurrentPage
    request sent with the female voice is pending.  The request is not
    cancelled: when its payload arrives it is put into the emptied cache
    and played.  The reader is then playing under the male voice, page 1
    is a cache hit again, and every request that was sent named the female
    voice. *)
Lemma pending_play_survives_voice_change :
  reachable book2 demo_decode demo_cached_and_fetching
  ∧ voice demo_cached_and_fetching = FEMALE
  ∧ currentPage demo_cached_and_fetching = 1
  ∧ audioCache demo_cached_and_fetching !! 1 = Some demo_audio
  ∧ ∃ s' s'',
      step book2 demo_decode demo_cached_and_fetching (ClickVoice MALE)
      = Some s'
      ∧ audioCache s' !! 1 = None
      ∧ run book2 demo_decode s'
          [SpeechSettled 0 (Some demo_audio); DecodeSettled 0 (Some 1%Q)]
        = Some s''
      ∧ voice s'' = MALE
      ∧ currentPage s'' = 1
      ∧ isPlaying s'' = true
      ∧ live_sources s'' = 1%nat
      ∧ audioCache s'' !! 1 = Some demo_audio
      ∧ map sc_voiceName (calls s'') = [js "Kore"; js "Kore"]
      ∧ ¬ rests MALE demo_cached_and_fetching s''.
Proof.
  split; [apply after_reachable; vm_compute; eauto|].
  split; [vm_compute; reflexivity|]. split; [vm_compute; reflexivity|].
  split; [vm_compute; reflexivity|].
  exists (after book2 [ClickNext; ClickPlayPause;
                       SpeechSettled 0 (Some demo_audio); ClickVoice MALE]),
    (after book2 [ClickNext; ClickPlayPause;
                  SpeechSettled 0 (Some demo_audio); ClickVoice MALE;
                  SpeechSettled 0 (Some demo_audio);
                  DecodeSettled 0 (Some 1%Q)]).
  split; [vm_compute; reflexivity|]. split; [vm_compute; reflexivity|].
  split; [vm_compute; reflexivity|]. split; [vm_compute; reflexivity|].
  split; [vm_compute; reflexivity|]. split; [vm_compute; reflexivity|].
  split; [vm_compute; reflexivity|]. split; [vm_compute; reflexivity|].
  split; [vm_compute; reflexivity|].
  intros (_ & _ & Hmiss & _). specialize (Hmiss 1).
  vm_compute in Hmiss. discriminate Hmiss.
Qed.

(** * The bookshelf *)

(** ** services/db.ts *)

(** A record of the [pdfs] store: [{ id, file }]. *)
Record PdfRecord := {
  pdf_id : jsstring;
  pdf_file : list N
}.

(** The two object stores of the database, each keyed by the [id] of its
    records ([keyPath: 'id']). *)
Record DB := {
  bookStore : gmap (list N) Book;
  pdfStore : gmap (list N) PdfRecord
}.

Inductive Outcome (A : Type) :=
| Resolved (a : A)
| Rejected (msg : jsstring).
Arguments Resolved {A} a.
Arguments Rejected {A} msg.

(** [addBook]: two [add] requests in one read-write transaction.  [add]
    fails when the key is already in its store; the transaction then
    aborts, which undoes both requests, and the promise is rejected. *)
Definition addBook (db : DB) (book : Book) (pdfFile : list N)
    : DB * Outcome unit :=
  if bool_decide (is_Some (bookStore db !! id book))
     || bool_decide (is_Some (pdfStore db !! id book))
  then (db, Rejected (js "Transaction error while adding book"))
  else ({| bookStore := <[id book := book]> (bookStore db);
           pdfStore := <[id book := {| pdf_id := id book;
                                       pdf_file := pdfFile |}]> (pdfStore db) |},
        Resolved ()).

(** [getBooks]: [store.getAll()]. *)
Definition getBooks (db : DB) : list Book :=
  (map_to_list (bookStore db)).*2.

Definition withCover (book : Book) (newCoverImage : jsstring) : Book :=
  {| id := id book; title := title book; coverImage := newCoverImage;
     pageTexts := pageTexts book |}.

(** [updateBookCover]: [get], then [put] of the record with its cover
    replaced, or a rejection when there is no such record. *)
Definition updateBookCover (db : DB) (bookId newCoverImage : jsstring)
    : DB * Outcome unit :=
  match bookStore db !! bookId with
  | Some book =>
      let book := withCover book newCoverImage in
      ({| bookStore := <[id book := book]> (bookStore db);
          pdfStore := pdfStore db |}, Resolved ())
  | None => (db, Rejected (js "Book not found"))
  end.

(** [deleteBook]: [delete] on both stores; deleting a key that is not
    there is not an error. *)
Definition deleteBook (db : DB) (bookId : jsstring) : DB * Outcome unit :=
  ({| bookStore := delete bookId (bookStore db);
      pdfStore := delete bookId (pdfStore db) |}, Resolved ()).

(** The database as [initDB] creates it. *)
Definition emptyDB : DB := {| bookStore := ∅; pdfStore := ∅ |}.

Inductive DbOp :=
| OpAdd (book : Book) (pdfFile : list N)
| OpUpdateCover (bookId newCoverImage : jsstring)
| OpDelete (bookId : jsstring).

Definition dbOp (db : DB) (op : DbOp) : DB :=
  match op with
  | OpAdd book pdfFile => (addBook db book pdfFile).1
  | OpUpdateCover bookId cover => (updateBookCover db bookId cover).1
  | OpDelete bookId => (deleteBook db bookId).1
  end.

(** Records sit under their own id, and the two stores have the same
    keys. *)
Record paired (db : DB) : Prop := {
  paired_book_key : ∀ k b, bookStore db !! k = Some b → id b = k;
  paired_pdf_key : ∀ k r, pdfStore db !! k = Some r → pdf_id r = k;
  paired_dom : ∀ k, is_Some (bookStore db !! k) ↔ is_Some (pdfStore db !! k)
}.

Lemma paired_empty : paired emptyDB.
Proof.
  constructor; simpl; intros k; rewrite ?lookup_empty; try done.
Qed.

Lemma paired_dbOp db op : paired db → paired (dbOp db op).
Proof.
  intros [Hb Hp Hd]. destruct op as [book file|bookId cover|bookId]; simpl.
  - unfold addBook. destruct (_ || _); [done|]. constructor; simpl.
    + intros k b. rewrite lookup_insert. case_decide; [|by eauto].
      intros ?. by simplify_eq.
    + intros k r. rewrite lookup_insert. case_decide; [|by eauto].
      intros ?. by simplify_eq.
    + intros k. rewrite !lookup_insert. case_decide; [|by apply Hd].
      split; by eauto.
  - unfold updateBookCover.
    destruct (bookStore db !! bookId) as [book|] eqn:Hbk; [|done].
    pose proof (Hb _ _ Hbk) as Hid. constructor; simpl; [|done|].
    + intros k b. rewrite lookup_insert. case_decide; [|by eauto].
      intros ?. by simplify_eq.
    + intros k. rewrite lookup_insert. case_decide; [|by apply Hd].
      subst k. rewrite <- Hd, Hid, Hbk. split; by eauto.
  - constructor; simpl.
    + intros k b. rewrite lookup_delete. case_decide; [done|by eauto].
    + intros k r. rewrite lookup_delete. case_decide; [done|by eauto].
    + intros k. rewrite !lookup_delete. case_decide; [|by apply Hd].
      split; by intros [? ?].
Qed.

(** X18.  Starting from the empty database, after any sequence of
    [addBook], [updateBookCover] and [deleteBook] the two stores hold the
    same ids: every book has its PDF and every PDF its book, each under
    the id it carries. *)
Theorem stores_stay_paired (ops : list DbOp) :
  let db := fold_left dbOp ops emptyDB in
  (∀ k, is_Some (bookStore db !! k) ↔ is_Some (pdfStore db !! k))
  ∧ (∀ k b, bookStore db !! k = Some b → id b = k)
  ∧ (∀ k r, pdfStore db !! k = Some r → pdf_id r = k).
Proof.
  assert (∀ db, paired db → paired (fold_left dbOp ops db)) as H.
  { induction ops as [|op ops IH]; intros db Hdb; [done|].
    simpl. by apply IH, paired_dbOp. }
  destruct (H emptyDB paired_empty) as [Hb Hp Hd]. by split_and!.
Qed.

(** X19.  [addBook] stores the book and its PDF together or not at all:
    with an id that neither store has, both records are written and
    [getBooks] returns the book; with an id that is taken the promise is
    rejected and the database is left as it was. *)
Theorem addBook_all_or_nothing (db : DB) (book : Book) (pdfFile : list N) :
  (bookStore db !! id book = None → pdfStore db !! id book = None →
     (addBook db book pdfFile).2 = Resolved ()
     ∧ bookStore (addBook db book pdfFile).1 !! id book = Some book
     ∧ pdfStore (addBook db book pdfFile).1 !! id book
       = Some {| pdf_id := id book; pdf_file := pdfFile |}
     ∧ book ∈ getBooks (addBook db book pdfFile).1
     ∧ (∀ k, k ≠ id book →
          bookStore (addBook db book pdfFile).1 !! k = bookStore db !! k
          ∧ pdfStore (addBook db book pdfFile).1 !! k = pdfStore db !! k))
  ∧ (is_Some (bookStore db !! id book) ∨ is_Some (pdfStore db !! id book) →
     addBook db book pdfFile
     = (db, Rejected (js "Transaction error while adding book"))).
Proof.
  unfold addBook. split.
  - intros Hb Hp. rewrite Hb, Hp.
    rewrite !(bool_decide_eq_false_2 (is_Some None)) by (by intros [? ?]).
    simpl. split_and!; try done.
    + by rewrite lookup_insert_eq.
    + by rewrite lookup_insert_eq.
    + unfold getBooks. simpl. apply list_elem_of_fmap.
      exists (id book, book). split; [done|].
      apply elem_of_map_to_list. by rewrite lookup_insert_eq.
    + intros k Hk. by rewrite !lookup_insert_ne.
  - intros [H|H].
    + by rewrite (bool_decide_eq_true_2 _ H).
    + rewrite (bool_decide_eq_true_2 (is_Some (pdfStore db !! id book)) H).
      by rewrite orb_true_r.
Qed.

(** X20.  [updateBookCover] on an id that has no record rejects with
    'Book not found' and changes nothing.  On a stored book it replaces
    the cover and nothing else: id, title and page texts of that book, all
    other books and the PDF store are as before. *)
Theorem updateBookCover_changes_only_cover (db : DB) (bookId cover : jsstring) :
  paired db →
  (bookStore db !! bookId = None →
     updateBookCover db bookId cover = (db, Rejected (js "Book not found")))
  ∧ (∀ book, bookStore db !! bookId = Some book →
       let db' := (updateBookCover db bookId cover).1 in
       (updateBookCover db bookId cover).2 = Resolved ()
       ∧ bookStore db' !! bookId
         = Some {| id := id book; title := title book; coverImage := cover;
                   pageTexts := pageTexts book |}
       ∧ (∀ k, k ≠ bookId → bookStore db' !! k = bookStore db !! k)
       ∧ pdfStore db' = pdfStore db).
Proof.
  intros Hp. unfold updateBookCover. split.
  - by intros ->.
  - intros book Hb. rewrite Hb. simpl.
    pose proof (paired_book_key db Hp _ _ Hb) as Hid.
    split_and!; try done.
    + subst bookId. by rewrite lookup_insert_eq.
    + intros k Hk. rewrite lookup_insert_ne; [done|congruence].
Qed.

(** X21.  [deleteBook] removes the book and its PDF and nothing else, and
    always resolves; on an id that is not stored it changes nothing, so
    deleting twice is the same as deleting once.  Deleting a book that was
    just added under a fresh id gives back the database as it was. *)
Theorem deleteBook_removes_both (db : DB) (bookId : jsstring) :
  let db' := (deleteBook db bookId).1 in
  (deleteBook db bookId).2 = Resolved ()
  ∧ bookStore db' !! bookId = None
  ∧ pdfStore db' !! bookId = None
  ∧ (∀ k, k ≠ bookId →
       bookStore db' !! k = bookStore db !! k
       ∧ pdfStore db' !! k = pdfStore db !! k)
  ∧ (bookStore db !! bookId = None → pdfStore db !! bookId = None →
     db' = db)
  ∧ (deleteBook db' bookId).1 = db'
  ∧ (∀ book pdfFile,
       id book = bookId →
       bookStore db !! bookId = None → pdfStore db !! bookId = None →
       (deleteBook (addBook db book pdfFile).1 bookId).1 = db).
Proof.
  simpl. split_and!; try done.
  - by rewrite lookup_delete_eq.
  - by rewrite lookup_delete_eq.
  - intros k Hk. by rewrite !lookup_delete_ne.
  - intros Hb Hp. destruct db as [bs ps]. simpl in *.
    by rewrite !delete_id.
  - by rewrite !delete_delete_eq.
  - intros book file <- Hb Hp. unfold addBook. rewrite Hb, Hp.
    rewrite !(bool_decide_eq_false_2 (is_Some None)) by (by intros [? ?]).
    simpl. destruct db as [bs ps]. simpl in *.
    by rewrite !delete_insert_eq, !delete_id.
Qed.

(** ** App.tsx *)

(** What [parsePdf] resolves with. *)
Record ParsedPdf := {
  pp_title : option jsstring;
  pp_coverImage : jsstring;
  pp_pageTexts : list jsstring
}.

Fixpoint startsWith (pat s : jsstring) : bool :=
  match pat, s with
  | [], _ => true
  | p :: pat', c :: s' => (p =? c)%N && startsWith pat' s'
  | _ :: _, [] => false
  end.

(** [s.replace(pat, '')] for a string pattern: the first occurrence of
    [pat] is taken out. *)
Fixpoint removeFirst (pat s : jsstring) : jsstring :=
  match s with
  | [] => []
  | c :: r =>
      if startsWith pat s then drop (length pat) s
      else c :: removeFirst pat r
  end.

(** [title || file.name.replace('.pdf', '')] *)
Definition bookTitle (title : option jsstring) (fileName : jsstring) : jsstring :=
  match title with
  | Some (c :: t) => c :: t
  | _ => removeFirst (js ".pdf") fileName
  end.

Record AppState := {
  books : list Book;
  selectedBook : option Book;
  isLoading : bool;
  appAlerts : nat
}.

Inductive AppEvent :=
| AddBook (parsed : Outcome ParsedPdf) (fileName : jsstring)
    (file : list N) (now : jsstring)
    (* a PDF is chosen; [parsed] is how parsePdf settles and [now] is
       [Date.now().toString()] *)
| UpdateCover (bookId newCoverImage : jsstring)
| DeleteBook (bookId : jsstring) (confirmed : bool)
| SelectBook (book : Book)
| BackToShelf.

(** The state after [initDbAndLoadBooks] has loaded the books. *)
Definition loaded (db : DB) : AppState :=
  {| books := getBooks db; selectedBook := None; isLoading := false;
     appAlerts := 0 |}.

(** One handler of App, run to its end against the database. *)
Definition appStep (x : DB * AppState) (e : AppEvent) : DB * AppState :=
  let '(db, st) := x in
  match e with
  | AddBook parsed fileName file now =>
      (* handleAddBook *)
      match parsed with
      | Rejected _ =>
          (db, {| books := books st; selectedBook := selectedBook st;
                  isLoading := false; appAlerts := S (appAlerts st) |})
      | Resolved p =>
          let newBook := {| id := now;
                            title := bookTitle (pp_title p) fileName;
                            coverImage := pp_coverImage p;
                            pageTexts := pp_pageTexts p |} in
          match addBook db newBook file with
          | (db', Resolved _) =>
              (db', {| books := books st ++ [newBook];
                       selectedBook := selectedBook st;
                       isLoading := false; appAlerts := appAlerts st |})
          | (db', Rejected _) =>
              (db', {| books := books st; selectedBook := selectedBook st;
                       isLoading := false; appAlerts := S (appAlerts st) |})
          end
      end
  | UpdateCover bookId newCoverImage =>
      (* handleUpdateBookCover *)
      match updateBookCover db bookId newCoverImage with
      | (db', Resolved _) =>
          (db', {| books :=
                     map (λ book, if bool_decide (id book = bookId)
                                  then withCover book newCoverImage
                                  else book) (books st);
                   selectedBook := selectedBook st;
                   isLoading := isLoading st; appAlerts := appAlerts st |})
      | (db', Rejected _) => (db', st)
      end
  | DeleteBook bookId confirmed =>
      (* handleDeleteBook *)
      if confirmed then
        match deleteBook db bookId with
        | (db', Resolved _) =>
            (db', {| books :=
                       List.filter (λ book, negb (bool_decide (id book = bookId)))
                         (books st);
                     selectedBook := selectedBook st;
                     isLoading := isLoading st; appAlerts := appAlerts st |})
        | (db', Rejected _) => (db', st)
        end
      else (db, st)
  | SelectBook book =>
      (db, {| books := books st; selectedBook := Some book;
              isLoading := isLoading st; appAlerts := appAlerts st |})
  | BackToShelf =>
      (db, {| books := books st; selectedBook := None;
              isLoading := isLoading st; appAlerts := appAlerts st |})
  end.

(** The shelf shows each stored book once, and nothing else. *)
Definition mirrors (db : DB) (bs : list Book) : Prop :=
  NoDup (map id bs) ∧ ∀ b, b ∈ bs ↔ bookStore db !! id b = Some b.

Lemma mirrors_loaded db : paired db → mirrors db (getBooks db).
Proof.
  intros Hp. unfold getBooks. split.
  - assert (map id (map_to_list (bookStore db)).*2
            = (map_to_list (bookStore db)).*1) as ->.
    { apply list_eq. intros i. rewrite !list_lookup_fmap.
      destruct (map_to_list (bookStore db) !! i) as [[k b]|] eqn:Hi; [|done].
      simpl. f_equal. apply (paired_book_key db Hp).
      apply elem_of_map_to_list. by eapply list_elem_of_lookup_2. }
    apply NoDup_fst_map_to_list.
  - intros b. rewrite list_elem_of_fmap. split.
    + intros ([k b'] & -> & Hin). simpl.
      apply elem_of_map_to_list in Hin.
      by rewrite (paired_book_key db Hp _ _ Hin).
    + intros Hb. exists (id b, b). split; [done|].
      by apply elem_of_map_to_list.
Qed.

Lemma mirrors_step db st e :
  paired db → mirrors db (books st) →
  paired (appStep (db, st) e).1
  ∧ mirrors (appStep (db, st) e).1 (books (appStep (db, st) e).2).
Proof.
  intros Hp [Hnd Hm]. destruct e as [parsed name file now|bid cover|bid conf|b|].
  - cbn [appStep]. destruct parsed as [p|msg]; [|done].
    set (newBook := {| id := now; title := bookTitle (pp_title p) name;
                       coverImage := pp_coverImage p;
                       pageTexts := pp_pageTexts p |}).
    pose proof (paired_dbOp db (OpAdd newBook file) Hp) as Hp'.
    cbn [dbOp] in Hp'. unfold addBook in *.
    destruct (bool_decide (is_Some (bookStore db !! id newBook))) eqn:E1;
      [done|].
    destruct (bool_decide (is_Some (pdfStore db !! id newBook))) eqn:E2;
      [done|].
    cbn [orb fst snd books bookStore] in *. split; [done|].
    apply bool_decide_eq_false in E1.
    assert (bookStore db !! now = None) as Hfresh.
    { destruct (bookStore db !! now) eqn:E; [|done]. exfalso. by apply E1. }
    split.
    + rewrite map_app. apply NoDup_app. split; [done|]. split.
      * intros k Hk Hk'. cbn [map] in Hk'.
        apply list_elem_of_singleton in Hk'. subst k.
        apply list_elem_of_fmap in Hk as (b & Hb & Hin).
        apply Hm in Hin. rewrite <- Hb in Hin.
        change (id newBook) with now in Hin. congruence.
      * apply NoDup_singleton.
    + intros b. cbn [bookStore].
      rewrite elem_of_app, list_elem_of_singleton, lookup_insert.
      change (id newBook) with now. case_decide as Hk.
      * split.
        -- intros [Hin| ->]; [|done]. apply Hm in Hin. congruence.
        -- intros [= ->]. by right.
      * rewrite Hm. split; [|by left].
        intros [?| ->]; [done|]. by simpl in Hk.
  - cbn [appStep]. pose proof (paired_dbOp db (OpUpdateCover bid cover) Hp) as Hp'.
    cbn [dbOp] in Hp'. unfold updateBookCover in *.
    destruct (bookStore db !! bid) as [book|] eqn:Hb; [|done].
    cbn [fst snd books bookStore] in *. split; [done|].
    pose proof (paired_book_key db Hp _ _ Hb) as Hid.
    split.
    + rewrite map_map.
      assert (map (λ x, id (if bool_decide (id x = bid)
                            then withCover x cover else x)) (books st)
              = map id (books st)) as ->; [|done].
      apply map_ext. intros x. by destruct (bool_decide _).
    + intros b. rewrite list_elem_of_fmap. simpl. rewrite Hid, lookup_insert.
      split.
      * intros (x & -> & Hin). apply Hm in Hin.
        case_bool_decide as Hx; simpl.
        -- rewrite decide_True by done. rewrite Hx, Hb in Hin. by simplify_eq.
        -- rewrite decide_False by done. done.
      * case_decide as Hk.
        -- intros [= <-]. exists book. rewrite bool_decide_eq_true_2 by done.
           split; [done|]. apply Hm. by rewrite Hid.
        -- intros Hin. exists b. rewrite bool_decide_eq_false_2 by done.
           split; [done|]. by apply Hm.
  - cbn [appStep]. destruct conf; [|done].
    pose proof (paired_dbOp db (OpDelete bid) Hp) as Hp'.
    cbn [dbOp deleteBook fst snd books bookStore] in *. split; [done|].
    split.
    + clear Hm. induction (books st) as [|x l IH]; [done|].
      cbn [List.filter map] in *. apply NoDup_cons in Hnd as [Hx Hl].
      destruct (negb _); [|by apply IH].
      cbn [map]. apply NoDup_cons. split; [|by apply IH].
      intros Hin. apply Hx. apply list_elem_of_fmap in Hin as (y & -> & Hy).
      apply list_elem_of_fmap. exists y. split; [done|].
      apply list_elem_of_In, filter_In in Hy as [Hy _].
      by apply list_elem_of_In.
    + intros b. cbn [bookStore].
      rewrite lookup_delete, list_elem_of_In, filter_In,
        <- list_elem_of_In, Hm.
      case_decide as Hk.
      * rewrite bool_decide_eq_true_2 by done. simpl. split; [by intros []|done].
      * rewrite bool_decide_eq_false_2 by done. simpl. split; [by intros []|done].
  - done.
  - done.
Qed.

(** X22.  The shelf mirrors the store: after the books are loaded from a
    database whose stores are paired, and after any sequence of uploads
    (parsed or failed, with fresh or repeated ids), cover changes,
    deletions (confirmed or declined), selections and returns, the list
    App holds contains each stored book exactly once, by id, and no book
    that is not stored; and the stores are still paired. *)
Theorem shelf_mirrors_store (db0 : DB) (es : list AppEvent) :
  paired db0 →
  let x := fold_left appStep es (db0, loaded db0) in
  NoDup (map id (books x.2))
  ∧ (∀ b, b ∈ books x.2 ↔ bookStore x.1 !! id b = Some b)
  ∧ (∀ k, is_Some (bookStore x.1 !! k) ↔ is_Some (pdfStore x.1 !! k)).
Proof.
  intros Hp0.
  assert (∀ x, paired x.1 → mirrors x.1 (books x.2) →
            paired (fold_left appStep es x).1
            ∧ mirrors (fold_left appStep es x).1
                (books (fold_left appStep es x).2)) as H.
  { induction es as [|e es IH]; intros [db st] Hp Hm; [done|].
    cbn [fold_left]. destruct (mirrors_step db st e Hp Hm) as [Hp' Hm'].
    by apply IH. }
  destruct (H (db0, loaded db0) Hp0 (mirrors_loaded db0 Hp0))
    as [Hp [Hnd Hm]].
  split_and!; [done|done|apply (paired_dom _ Hp)].
Qed.

Lemma startsWith_iff (pat s : jsstring) :
  startsWith pat s = true ↔ ∃ b, s = pat ++ b.
Proof.
  revert s. induction pat as [|p pat IH]; intros s; simpl.
  - split; [by exists s|done].
  - destruct s as [|c s].
    + split; [done|]. by intros (b & ?).
    + rewrite andb_true_iff, N.eqb_eq, IH. split.
      * intros [-> [b ->]]. by exists b.
      * intros (b & [= -> ->]). split; [done|by exists b].
Qed.

(** [removeFirst] takes out the leftmost occurrence of the pattern, and
    leaves a string without an occurrence as it is. *)
Lemma removeFirst_spec (pat s : jsstring) :
  pat ≠ [] →
  ((∀ a b, s ≠ a ++ pat ++ b) ∧ removeFirst pat s = s)
  ∨ (∃ a b, s = a ++ pat ++ b ∧ removeFirst pat s = a ++ b
            ∧ ∀ a' b', s = a' ++ pat ++ b' → (length a <= length a')%nat).
Proof.
  intros Hpat. induction s as [|c r IH].
  - left. split; [|done]. intros a b H. symmetry in H.
    apply app_eq_nil in H as [_ H]. apply app_eq_nil in H as [H _]. done.
  - cbn [removeFirst]. destruct (startsWith pat (c :: r)) eqn:Hsw.
    + right. apply startsWith_iff in Hsw as [b Hb].
      exists [], b. split; [done|]. split.
      * rewrite Hb. by rewrite drop_app_length.
      * intros a' b' _. simpl. lia.
    + assert (∀ b, c :: r ≠ pat ++ b) as Hno.
      { intros b Hb. assert (startsWith pat (c :: r) = true) as E
          by (apply startsWith_iff; by exists b). congruence. }
      destruct IH as [[Hnone ->]|(a & b & -> & -> & Hmin)].
      * left. split; [|done]. intros [|x a] b H.
        -- by apply (Hno b).
        -- injection H as -> H. by apply (Hnone a b).
      * right. exists (c :: a), b. split; [done|]. split; [done|].
        intros [|x a'] b' H.
        -- exfalso. by apply (Hno b').
        -- injection H as -> H. simpl. specialize (Hmin a' b' H). lia.
Qed.

(** X23.  The title of an uploaded book is the title of the PDF metadata
    when that is not empty.  Otherwise it is the file name with the
    leftmost '.pdf' taken out: a name without '.pdf' is kept whole, and
    [stem ++ ".pdf"] gives [stem] when '.pdf' occurs nowhere earlier. *)
Theorem bookTitle_falls_back_to_file_name :
  (∀ c t name, bookTitle (Some (c :: t)) name = c :: t)
  ∧ (∀ name, bookTitle (Some []) name = bookTitle None name)
  ∧ (∀ name,
       ((∀ a b, name ≠ a ++ js ".pdf" ++ b) ∧ bookTitle None name = name)
       ∨ (∃ a b, name = a ++ js ".pdf" ++ b ∧ bookTitle None name = a ++ b
                 ∧ ∀ a' b', name = a' ++ js ".pdf" ++ b' →
                     (length a <= length a')%nat))
  ∧ (∀ stem,
       (∀ a b, stem ++ js ".pdf" = a ++ js ".pdf" ++ b →
          (length stem <= length a)%nat) →
       bookTitle None (stem ++ js ".pdf") = stem).
Proof.
  split_and!; try done.
  - intros name. by apply removeFirst_spec.
  - intros stem Hfirst. unfold bookTitle.
    destruct (removeFirst_spec (js ".pdf") (stem ++ js ".pdf"))
      as [[Hnone _]|(a & b & Heq & -> & Hmin)]; [done|..].
    + exfalso. apply (Hnone stem []). by rewrite app_nil_r.
    + pose proof (Hfirst a b Heq) as H1.
      pose proof (Hmin stem [] ltac:(by rewrite app_nil_r)) as H2.
      assert (length a = length stem) as Hlen by lia.
      assert (a = stem ∧ js ".pdf" ++ b = js ".pdf") as [-> Hb].
      { symmetry in Heq. by apply app_inj_1 in Heq as [? ?]. }
      assert (b = []) as ->.
      { apply (f_equal length) in Hb. rewrite length_app in Hb.
        destruct b; [done|simpl in Hb; lia]. }
      by rewrite app_nil_r.
Qed.

(** ** utils/pdf.ts: the page texts *)

(** [items.join(' ')] *)
Fixpoint joinSpace (items : list jsstring) : jsstring :=
  match items with
  | [] => []
  | a :: r =>
      match r with
      | [] => a
      | _ :: _ => a ++ 32%N :: joinSpace r
      end
  end.

(** What [parsePdf] reads of a document: the [Title] of its metadata, the
    rendering of its first page, and the strings of the text items of each
    page. *)
Record PdfDocument := {
  doc_title : option jsstring;
  doc_cover : jsstring;
  doc_pages : list (list jsstring)
}.

(** The value [parsePdf] resolves with. *)
Definition parsePdf (doc : PdfDocument) : ParsedPdf :=
  {| pp_title := match doc_title doc with
                 | Some (c :: t) => Some (c :: t)
                 | _ => None (* [metadata.info?.Title || null] *)
                 end;
     pp_coverImage := doc_cover doc;
     pp_pageTexts := map joinSpace (doc_pages doc) |}.

Lemma joinSpace_words (items : list jsstring) :
  matchNonSpace [] (joinSpace items) = concat (map (matchNonSpace []) items).
Proof.
  induction items as [|a r IH]; [done|].
  cbn [joinSpace map concat]. destruct r as [|b r].
  - simpl. by rewrite app_nil_r.
  - rewrite matchNonSpace_app_ws by done. by rewrite IH.
Qed.

Lemma words_nil_iff_blank (s : jsstring) :
  matchNonSpace [] s = [] ↔ trim s = [].
Proof. by rewrite matchNonSpace_nil_iff, trim_nil_iff. Qed.

(** X24.  [parsePdf] yields one text per page, in page order, and the
    words of a page text (as the reader counts and shows them) are the
    words of the page's text items, in order.  A page whose items are all
    blank, or that has none, yields a text the reader treats as empty. *)
Theorem parsed_page_words (doc : PdfDocument) :
  length (pp_pageTexts (parsePdf doc)) = length (doc_pages doc)
  ∧ ∀ i items, doc_pages doc !! i = Some items →
      ∃ text, pp_pageTexts (parsePdf doc) !! i = Some text
        ∧ matchNonSpace [] text = concat (map (matchNonSpace []) items)
        ∧ (trim text = [] ↔ Forall (λ item, trim item = []) items).
Proof.
  split; [simpl; by rewrite length_map|].
  intros i items Hi. exists (joinSpace items). split_and!.
  - simpl. by rewrite list_lookup_fmap, Hi.
  - apply joinSpace_words.
  - rewrite <- words_nil_iff_blank, joinSpace_words. clear Hi.
    induction items as [|a r IH]; simpl.
    + split; [by constructor|done].
    + rewrite Forall_cons, <- IH, <- words_nil_iff_blank. split.
      * by intros [? ?]%app_eq_nil.
      * intros [-> ->]. done.
Qed.

(** ** The further theorems at concrete states *)

(** [demo_playing] after a click on Next. *)
Definition demo_next : State :=
  after book3 [ClickPlayPause; SpeechSettled 0 (Some demo_audio);
               DecodeSettled 0 (Some 1%Q); ClickNext].

(** [book2] mounted: the preload of its second page is pending. *)
Definition demo_preloading : State := after book2 [].

Lemma demo_preloading_reachable : reachable book2 demo_decode demo_preloading.
Proof. apply after_reachable. vm_compute. eauto. Defined.

Lemma page_change_stops_playback_witness :
  reachable book3 demo_decode demo_playing
  ∧ step book3 demo_decode demo_playing ClickNext = Some demo_next
  ∧ (currentPage demo_next ≠ currentPage demo_playing
     ∨ autoPlay demo_next ≠ autoPlay demo_playing)
  ∧ stopped demo_next.
Proof.
  assert (step book3 demo_decode demo_playing ClickNext = Some demo_next)
    as Hstep by (vm_compute; reflexivity).
  assert (currentPage demo_next ≠ currentPage demo_playing
          ∨ autoPlay demo_next ≠ autoPlay demo_playing) as Hch
    by (left; vm_compute; discriminate).
  exact (conj demo_playing_reachable (conj Hstep (conj Hch
           (page_change_stops_playback book3 demo_decode demo_playing
              ClickNext demo_next demo_playing_reachable Hstep Hch)))).
Defined.

Lemma autoplay_toggle_stops_playback_witness :
  reachable book3 demo_decode demo_playing
  ∧ ∃ s', step book3 demo_decode demo_playing ToggleAutoPlay = Some s'
      ∧ autoPlay s' = negb (autoPlay demo_playing)
      ∧ stopped s'.
Proof.
  split; [exact demo_playing_reachable|].
  destruct (autoplay_toggle_stops_playback book3 demo_decode demo_playing
              demo_playing_reachable) as (s' & Hstep & Ha & _ & Hst & _).
  exists s'. exact (conj Hstep (conj Ha Hst)).
Defined.

Lemma page_buttons_stay_in_range_witness :
  reachable book3 demo_decode demo_next
  ∧ 0 <= currentPage demo_next
  ∧ (currentPage demo_next < pageCount book3 →
     0 <= currentPage (goToNextPage book3 demo_next) < pageCount book3
     ∧ 0 <= currentPage (goToPrevPage demo_next) < pageCount book3).
Proof.
  assert (reachable book3 demo_decode demo_next) as Hreach
    by (apply after_reachable; vm_compute; eauto).
  destruct (page_buttons_stay_in_range book3 demo_decode demo_next Hreach)
    as (H0 & Hin & _).
  exact (conj Hreach (conj H0 Hin)).
Defined.

Lemma requests_are_for_speakable_pages_witness :
  reachable book3 demo_decode demo_playing
  ∧ mkCall true 0 (js "Hello world") (js "Kore") ∈ calls demo_playing
  ∧ trim (js "Hello world") ≠ [].
Proof.
  assert (calls demo_playing = [mkCall true 0 (js "Hello world") (js "Kore")])
    as Hcalls by (vm_compute; reflexivity).
  assert (mkCall true 0 (js "Hello world") (js "Kore") ∈ calls demo_playing)
    as Hin by (rewrite Hcalls; apply list_elem_of_here).
  destruct (requests_are_for_speakable_pages book3 demo_decode demo_playing
              demo_playing_reachable _ Hin) as (text & _ & Hnb & Htx & _).
  cbn [sc_text mkCall] in Htx. subst text.
  exact (conj demo_playing_reachable (conj Hin Hnb)).
Defined.

Lemma cache_and_tasks_are_for_speakable_pages_witness :
  reachable book3 demo_decode demo_playing
  ∧ audioCache demo_playing !! 0 = Some demo_audio
  ∧ 0 <= 0 < pageCount book3
  ∧ speakable book3 0.
Proof.
  assert (audioCache demo_playing !! 0 = Some demo_audio) as Hc
    by (vm_compute; reflexivity).
  destruct (cache_and_tasks_are_for_speakable_pages book3 demo_decode
              demo_playing demo_playing_reachable) as [H _].
  destruct (H 0 demo_audio Hc) as [Hr Hs].
  exact (conj demo_playing_reachable (conj Hc (conj Hr Hs))).
Defined.

Lemma preload_guard_has_pending_request_witness :
  reachable book2 demo_decode demo_preloading
  ∧ preloadingPageRef demo_preloading = Some 1
  ∧ (∃ i, tasks demo_preloading !! i = Some (PreloadAwaitSpeech 1))
  ∧ preloadPage book2 (closure_of demo_preloading) 1 demo_preloading
    = demo_preloading.
Proof.
  assert (preloadingPageRef demo_preloading = Some 1) as Hr
    by (vm_compute; reflexivity).
  destruct (preload_guard_has_pending_request book2 demo_decode
              demo_preloading (closure_of demo_preloading) 1
              demo_preloading_reachable) as [H _].
  destruct (H Hr) as [Hi Hsame].
  exact (conj demo_preloading_reachable (conj Hr (conj Hi Hsame))).
Defined.

Lemma failed_synthesis_alerts_and_stops_witness :
  reachable book3 demo_decode demo_fetching
  ∧ tasks demo_fetching !! 0%nat
    = Some (PlayAwaitSpeech (closure_of (mount book3 demo_decode)))
  ∧ generateSpeech_finish None = None
  ∧ ∃ s', step book3 demo_decode demo_fetching (SpeechSettled 0 None) = Some s'
      ∧ alerts s' = S (alerts demo_fetching)
      ∧ isGenerating s' = false.
Proof.
  assert (tasks demo_fetching !! 0%nat
          = Some (PlayAwaitSpeech (closure_of (mount book3 demo_decode))))
    as Hi by (vm_compute; reflexivity).
  destruct (failed_synthesis_alerts_and_stops book3 demo_decode demo_fetching
              0%nat _ None demo_fetching_reachable Hi eq_refl)
    as (s' & Hstep & Ha & Hg & _).
  split; [exact demo_fetching_reachable|]. split; [exact Hi|].
  split; [reflexivity|]. exists s'. exact (conj Hstep (conj Ha Hg)).
Defined.

Lemma failed_decode_alerts_and_stops_witness :
  reachable book3 demo_decode demo_decoding
  ∧ tasks demo_decoding !! 0%nat
    = Some (PlayAwaitDecode (closure_of (mount book3 demo_decode))
              demo_audio 2)
  ∧ ∃ s', step book3 demo_decode demo_decoding (DecodeSettled 0 None) = Some s'
      ∧ alerts s' = S (alerts demo_decoding)
      ∧ audioCache s' = audioCache demo_decoding.
Proof.
  assert (tasks demo_decoding !! 0%nat
          = Some (PlayAwaitDecode (closure_of (mount book3 demo_decode))
                    demo_audio 2)) as Hi by (vm_compute; reflexivity).
  destruct (failed_decode_alerts_and_stops book3 demo_decode demo_decoding
              0%nat _ demo_audio 2 demo_decoding_reachable Hi)
    as (s' & Hstep & Ha & _ & Hc & _).
  split; [exact demo_decoding_reachable|]. split; [exact Hi|].
  exists s'. exact (conj Hstep (conj Ha Hc)).
Defined.

Lemma preload_settles_silently_witness :
  tasks demo_preloading !! 0%nat = Some (PreloadAwaitSpeech 1)
  ∧ ∃ s', step book2 demo_decode demo_preloading
            (SpeechSettled 0 (Some demo_audio)) = Some s'
      ∧ isPlaying s' = isPlaying demo_preloading
      ∧ alerts s' = alerts demo_preloading.
Proof.
  assert (tasks demo_preloading !! 0%nat = Some (PreloadAwaitSpeech 1)) as Hi
    by (vm_compute; reflexivity).
  destruct (preload_settles_silently book2 demo_decode demo_preloading
              0%nat 1 (Some demo_audio) Hi)
    as (s' & Hstep & _ & Hp & _ & _ & _ & _ & Ha & _).
  split; [exact Hi|]. exists s'. exact (conj Hstep (conj Hp Ha)).
Defined.

Lemma flags_reflect_playback_witness :
  reachable book3 demo_decode demo_playing
  ∧ isPlaying demo_playing = true
  ∧ live_sources demo_playing = 1%nat
  ∧ isGenerating demo_playing = false.
Proof.
  assert (isPlaying demo_playing = true) as Hp by (vm_compute; reflexivity).
  destruct (flags_reflect_playback book3 demo_decode demo_playing
              demo_playing_reachable) as (Hiff & _ & Hg & _).
  exact (conj demo_playing_reachable
           (conj Hp (conj (proj1 Hiff Hp) (Hg Hp)))).
Defined.

(** A database with one book. *)
Definition demo_book : Book :=
  {| id := js "1700000000000"; title := js "Demo"; coverImage := js "old";
     pageTexts := [js "Hello world"] |}.

Definition demo_db : DB := (addBook emptyDB demo_book []).1.

Lemma demo_db_paired : paired demo_db.
Proof. exact (paired_dbOp emptyDB (OpAdd demo_book []) paired_empty). Defined.

Lemma updateBookCover_changes_only_cover_witness :
  paired demo_db
  ∧ bookStore demo_db !! id demo_book = Some demo_book
  ∧ bookStore (updateBookCover demo_db (id demo_book) (js "new")).1
      !! id demo_book
    = Some {| id := id demo_book; title := title demo_book;
              coverImage := js "new"; pageTexts := pageTexts demo_book |}.
Proof.
  assert (bookStore demo_db !! id demo_book = Some demo_book) as Hb
    by (vm_compute; reflexivity).
  destruct (updateBookCover_changes_only_cover demo_db (id demo_book)
              (js "new") demo_db_paired) as [_ H].
  destruct (H demo_book Hb) as (_ & Hnew & _).
  exact (conj demo_db_paired (conj Hb Hnew)).
Defined.

Lemma shelf_mirrors_store_witness :
  paired emptyDB
  ∧ let x := fold_left appStep
               [AddBook (Resolved {| pp_title := None; pp_coverImage := js "c";
                                     pp_pageTexts := [js "Hello world"] |})
                  (js "demo.pdf") [] (js "1700000000000");
                UpdateCover (js "1700000000000") (js "new");
                DeleteBook (js "1700000000000") false]
               (emptyDB, loaded emptyDB) in
    NoDup (map id (books x.2))
    ∧ ∀ b, b ∈ books x.2 ↔ bookStore x.1 !! id b = Some b.
Proof.
  split; [exact paired_empty|].
  destruct (shelf_mirrors_store emptyDB
              [AddBook (Resolved {| pp_title := None; pp_coverImage := js "c";
                                    pp_pageTexts := [js "Hello world"] |})
                 (js "demo.pdf") [] (js "1700000000000");
               UpdateCover (js "1700000000000") (js "new");
               DeleteBook (js "1700000000000") false]
              paired_empty) as (Hnd & Hm & _).
  exact (conj Hnd Hm).
Defined.
